(** * A shallow embedding of go-winjob: the limit protocol of [JobObject]
    (job_object.go, limits.go, limits_ui.go, the CPU-rate limit) and the
    notification [Subscription] (completion-port loop and its [Close]). *)

From Stdlib Require Import ZArith List Bool String Permutation Lia.
Import ListNotations.
Open Scope Z_scope.

(* ------------------------------------------------------------------ *)
(** ** Errors *)

(** Go [error] values as they occur here: a raw [syscall.Errno], an
    [os.SyscallError] wrapping another error, or an opaque error. *)
Inductive error :=
| Errno (code : Z)
| SyscallError (op : string) (inner : error)
| ErrorString (msg : string).

(** [jobapi.ErrAbandoned = syscall.Errno(0x2df)]. *)
Definition ErrAbandoned : error := Errno 735.

(** [errors.Is(err, jobapi.ErrAbandoned)]: compare, then unwrap. *)
Fixpoint errors_Is_ErrAbandoned (e : error) : bool :=
  match e with
  | Errno c => Z.eqb c 735
  | SyscallError _ inner => errors_Is_ErrAbandoned inner
  | ErrorString _ => false
  end.

(* ------------------------------------------------------------------ *)
(** ** jobapi structures (all integers as Z, unsigned in range) *)

Record JOBOBJECT_BASIC_LIMIT_INFORMATION := {
  PerProcessUserTimeLimit : Z;
  PerJobUserTimeLimit : Z;
  LimitFlags : Z;
  MinimumWorkingSetSize : Z;
  MaximumWorkingSetSize : Z;
  ActiveProcessLimit : Z;
  Affinity : Z;
  PriorityClass : Z;
  SchedulingClass : Z }.

Record IO_COUNTERS := {
  ReadOperationCount : Z;
  WriteOperationCount : Z;
  OtherOperationCount : Z;
  ReadTransferCount : Z;
  WriteTransferCount : Z;
  OtherTransferCount : Z }.

Record JOBOBJECT_EXTENDED_LIMIT_INFORMATION := {
  BasicLimitInformation : JOBOBJECT_BASIC_LIMIT_INFORMATION;
  IoInfo : IO_COUNTERS;
  ProcessMemoryLimit : Z;
  JobMemoryLimit : Z;
  PeakProcessMemoryUsed : Z;
  PeakJobMemoryUsed : Z }.

Record JOBOBJECT_BASIC_UI_RESTRICTIONS := {
  UIRestrictionsClass : Z }.

Record JOBOBJECT_BASIC_ACCOUNTING_INFORMATION := {
  TotalUserTime : Z;
  TotalKernelTime : Z;
  ThisPeriodTotalUserTime : Z;
  ThisPeriodTotalKernelTime : Z;
  TotalPageFaultCount : Z;
  TotalProcesses : Z;
  ActiveProcesses : Z;
  TotalTerminatedProcesses : Z }.

(** Go embeds both structures; the promoted fields are reached through
    [AcctBasic] and [AcctIo]. *)
Record JOBOBJECT_BASIC_AND_IO_ACCOUNTING_INFORMATION := {
  AcctBasic : JOBOBJECT_BASIC_ACCOUNTING_INFORMATION;
  AcctIo : IO_COUNTERS }.

Record JOBOBJECT_CPU_RATE_CONTROL_INFORMATION := {
  ControlFlags : Z;
  Value : Z }.

(** The Go field is [ControlFlags]; renamed here to keep projections apart. *)
Record JOBOBJECT_NET_RATE_CONTROL_INFORMATION := {
  MaxBandwidth : Z;
  NetControlFlags : Z;
  DscpTag : Z }.

(** [JobInfo]: the cached copy of the five information blocks. *)
Record JobInfo := {
  ExtendedLimits : JOBOBJECT_EXTENDED_LIMIT_INFORMATION;
  UIRestrictions : JOBOBJECT_BASIC_UI_RESTRICTIONS;
  AccountingInfo : JOBOBJECT_BASIC_AND_IO_ACCOUNTING_INFORMATION;
  CPURateControl : JOBOBJECT_CPU_RATE_CONTROL_INFORMATION;
  NetRateControl : JOBOBJECT_NET_RATE_CONTROL_INFORMATION }.

Record JobObject := {
  Name : string;
  Handle : Z;
  Info : JobInfo }.

(** Zero values ([JobInfo{}]). *)
Definition zero_io : IO_COUNTERS := Build_IO_COUNTERS 0 0 0 0 0 0.
Definition zero_basic : JOBOBJECT_BASIC_LIMIT_INFORMATION :=
  Build_JOBOBJECT_BASIC_LIMIT_INFORMATION 0 0 0 0 0 0 0 0 0.
Definition zero_ext : JOBOBJECT_EXTENDED_LIMIT_INFORMATION :=
  Build_JOBOBJECT_EXTENDED_LIMIT_INFORMATION zero_basic zero_io 0 0 0 0.
Definition zero_ui : JOBOBJECT_BASIC_UI_RESTRICTIONS :=
  Build_JOBOBJECT_BASIC_UI_RESTRICTIONS 0.
Definition zero_acct : JOBOBJECT_BASIC_AND_IO_ACCOUNTING_INFORMATION :=
  Build_JOBOBJECT_BASIC_AND_IO_ACCOUNTING_INFORMATION
    (Build_JOBOBJECT_BASIC_ACCOUNTING_INFORMATION 0 0 0 0 0 0 0 0) zero_io.
Definition zero_cpu : JOBOBJECT_CPU_RATE_CONTROL_INFORMATION :=
  Build_JOBOBJECT_CPU_RATE_CONTROL_INFORMATION 0 0.
Definition zero_net : JOBOBJECT_NET_RATE_CONTROL_INFORMATION :=
  Build_JOBOBJECT_NET_RATE_CONTROL_INFORMATION 0 0 0.
Definition zero_JobInfo : JobInfo :=
  Build_JobInfo zero_ext zero_ui zero_acct zero_cpu zero_net.

(** Field updates used by the limits ([job.X.Y = v]). *)
Definition set_ExtendedLimits (x : JOBOBJECT_EXTENDED_LIMIT_INFORMATION) (i : JobInfo) :=
  Build_JobInfo x (UIRestrictions i) (AccountingInfo i) (CPURateControl i) (NetRateControl i).
Definition set_UIRestrictions (x : JOBOBJECT_BASIC_UI_RESTRICTIONS) (i : JobInfo) :=
  Build_JobInfo (ExtendedLimits i) x (AccountingInfo i) (CPURateControl i) (NetRateControl i).
Definition set_AccountingInfo (x : JOBOBJECT_BASIC_AND_IO_ACCOUNTING_INFORMATION) (i : JobInfo) :=
  Build_JobInfo (ExtendedLimits i) (UIRestrictions i) x (CPURateControl i) (NetRateControl i).
Definition set_CPURateControl (x : JOBOBJECT_CPU_RATE_CONTROL_INFORMATION) (i : JobInfo) :=
  Build_JobInfo (ExtendedLimits i) (UIRestrictions i) (AccountingInfo i) x (NetRateControl i).
Definition set_NetRateControl (x : JOBOBJECT_NET_RATE_CONTROL_INFORMATION) (i : JobInfo) :=
  Build_JobInfo (ExtendedLimits i) (UIRestrictions i) (AccountingInfo i) (CPURateControl i) x.

(** Update of [ExtendedLimits.BasicLimitInformation] through a function. *)
Definition upd_basic (f : JOBOBJECT_BASIC_LIMIT_INFORMATION -> JOBOBJECT_BASIC_LIMIT_INFORMATION)
    (i : JobInfo) : JobInfo :=
  let e := ExtendedLimits i in
  set_ExtendedLimits
    (Build_JOBOBJECT_EXTENDED_LIMIT_INFORMATION (f (BasicLimitInformation e)) (IoInfo e)
       (ProcessMemoryLimit e) (JobMemoryLimit e) (PeakProcessMemoryUsed e) (PeakJobMemoryUsed e)) i.

Definition upd_ext_memory (procMem jobMem : option Z) (i : JobInfo) : JobInfo :=
  let e := ExtendedLimits i in
  set_ExtendedLimits
    (Build_JOBOBJECT_EXTENDED_LIMIT_INFORMATION (BasicLimitInformation e) (IoInfo e)
       (match procMem with Some v => v | None => ProcessMemoryLimit e end)
       (match jobMem with Some v => v | None => JobMemoryLimit e end)
       (PeakProcessMemoryUsed e) (PeakJobMemoryUsed e)) i.

Definition with_LimitFlags (v : Z) (b : JOBOBJECT_BASIC_LIMIT_INFORMATION) :=
  {| PerProcessUserTimeLimit := PerProcessUserTimeLimit b; PerJobUserTimeLimit := PerJobUserTimeLimit b;
     LimitFlags := v; MinimumWorkingSetSize := MinimumWorkingSetSize b;
     MaximumWorkingSetSize := MaximumWorkingSetSize b; ActiveProcessLimit := ActiveProcessLimit b;
     Affinity := Affinity b; PriorityClass := PriorityClass b; SchedulingClass := SchedulingClass b |}.
Definition with_Affinity (v : Z) (b : JOBOBJECT_BASIC_LIMIT_INFORMATION) :=
  {| PerProcessUserTimeLimit := PerProcessUserTimeLimit b; PerJobUserTimeLimit := PerJobUserTimeLimit b;
     LimitFlags := LimitFlags b; MinimumWorkingSetSize := MinimumWorkingSetSize b;
     MaximumWorkingSetSize := MaximumWorkingSetSize b; ActiveProcessLimit := ActiveProcessLimit b;
     Affinity := v; PriorityClass := PriorityClass b; SchedulingClass := SchedulingClass b |}.
Definition with_PerJobUserTimeLimit (v : Z) (b : JOBOBJECT_BASIC_LIMIT_INFORMATION) :=
  {| PerProcessUserTimeLimit := PerProcessUserTimeLimit b; PerJobUserTimeLimit := v;
     LimitFlags := LimitFlags b; MinimumWorkingSetSize := MinimumWorkingSetSize b;
     MaximumWorkingSetSize := MaximumWorkingSetSize b; ActiveProcessLimit := ActiveProcessLimit b;
     Affinity := Affinity b; PriorityClass := PriorityClass b; SchedulingClass := SchedulingClass b |}.
Definition with_PerProcessUserTimeLimit (v : Z) (b : JOBOBJECT_BASIC_LIMIT_INFORMATION) :=
  {| PerProcessUserTimeLimit := v; PerJobUserTimeLimit := PerJobUserTimeLimit b;
     LimitFlags := LimitFlags b; MinimumWorkingSetSize := MinimumWorkingSetSize b;
     MaximumWorkingSetSize := MaximumWorkingSetSize b; ActiveProcessLimit := ActiveProcessLimit b;
     Affinity := Affinity b; PriorityClass := PriorityClass b; SchedulingClass := SchedulingClass b |}.
Definition with_ActiveProcessLimit (v : Z) (b : JOBOBJECT_BASIC_LIMIT_INFORMATION) :=
  {| PerProcessUserTimeLimit := PerProcessUserTimeLimit b; PerJobUserTimeLimit := PerJobUserTimeLimit b;
     LimitFlags := LimitFlags b; MinimumWorkingSetSize := MinimumWorkingSetSize b;
     MaximumWorkingSetSize := MaximumWorkingSetSize b; ActiveProcessLimit := v;
     Affinity := Affinity b; PriorityClass := PriorityClass b; SchedulingClass := SchedulingClass b |}.
Definition with_WorkingSet (mn mx : Z) (b : JOBOBJECT_BASIC_LIMIT_INFORMATION) :=
  {| PerProcessUserTimeLimit := PerProcessUserTimeLimit b; PerJobUserTimeLimit := PerJobUserTimeLimit b;
     LimitFlags := LimitFlags b; MinimumWorkingSetSize := mn;
     MaximumWorkingSetSize := mx; ActiveProcessLimit := ActiveProcessLimit b;
     Affinity := Affinity b; PriorityClass := PriorityClass b; SchedulingClass := SchedulingClass b |}.
Definition with_PriorityClass (v : Z) (b : JOBOBJECT_BASIC_LIMIT_INFORMATION) :=
  {| PerProcessUserTimeLimit := PerProcessUserTimeLimit b; PerJobUserTimeLimit := PerJobUserTimeLimit b;
     LimitFlags := LimitFlags b; MinimumWorkingSetSize := MinimumWorkingSetSize b;
     MaximumWorkingSetSize := MaximumWorkingSetSize b; ActiveProcessLimit := ActiveProcessLimit b;
     Affinity := Affinity b; PriorityClass := v; SchedulingClass := SchedulingClass b |}.
Definition with_SchedulingClass (v : Z) (b : JOBOBJECT_BASIC_LIMIT_INFORMATION) :=
  {| PerProcessUserTimeLimit := PerProcessUserTimeLimit b; PerJobUserTimeLimit := PerJobUserTimeLimit b;
     LimitFlags := LimitFlags b; MinimumWorkingSetSize := MinimumWorkingSetSize b;
     MaximumWorkingSetSize := MaximumWorkingSetSize b; ActiveProcessLimit := ActiveProcessLimit b;
     Affinity := Affinity b; PriorityClass := PriorityClass b; SchedulingClass := v |}.

(* ------------------------------------------------------------------ *)
(** ** jobapi constants *)

(** [LimitFlag] bits ([1 << iota]). *)
Definition JOB_OBJECT_LIMIT_WORKINGSET := 1.
Definition JOB_OBJECT_LIMIT_PROCESS_TIME := 2.
Definition JOB_OBJECT_LIMIT_JOB_TIME := 4.
Definition JOB_OBJECT_LIMIT_ACTIVE_PROCESS := 8.
Definition JOB_OBJECT_LIMIT_AFFINITY := 16.
Definition JOB_OBJECT_LIMIT_PRIORITY_CLASS := 32.
Definition JOB_OBJECT_LIMIT_PRESERVE_JOB_TIME := 64.
Definition JOB_OBJECT_LIMIT_SCHEDULING_CLASS := 128.
Definition JOB_OBJECT_LIMIT_PROCESS_MEMORY := 256.
Definition JOB_OBJECT_LIMIT_JOB_MEMORY := 512.
Definition JOB_OBJECT_LIMIT_DIE_ON_UNHANDLED_EXCEPTION := 1024.
Definition JOB_OBJECT_LIMIT_BREAKAWAY_OK := 2048.
Definition JOB_OBJECT_LIMIT_SILENT_BREAKAWAY_OK := 4096.
Definition JOB_OBJECT_LIMIT_KILL_ON_JOB_CLOSE := 8192.
Definition JOB_OBJECT_LIMIT_SUBSET_AFFINITY := 16384.

(** [UIRestrictionsClass] bits. *)
Definition JOB_OBJECT_UILIMIT_HANDLES := 1.
Definition JOB_OBJECT_UILIMIT_READCLIPBOARD := 2.
Definition JOB_OBJECT_UILIMIT_WRITECLIPBOARD := 4.
Definition JOB_OBJECT_UILIMIT_SYSTEMPARAMETERS := 8.
Definition JOB_OBJECT_UILIMIT_DISPLAYSETTINGS := 16.
Definition JOB_OBJECT_UILIMIT_GLOBALATOMS := 32.
Definition JOB_OBJECT_UILIMIT_DESKTOP := 64.
Definition JOB_OBJECT_UILIMIT_EXITWINDOWS := 128.

(** [CPUControlFlag] bits. *)
Definition JOB_OBJECT_CPU_RATE_CONTROL_ENABLE := 1.
Definition JOB_OBJECT_CPU_RATE_CONTROL_WEIGHT_BASED := 2.
Definition JOB_OBJECT_CPU_RATE_CONTROL_HARD_CAP := 4.
Definition JOB_OBJECT_CPU_RATE_CONTROL_NOTIFY := 8.
Definition JOB_OBJECT_CPU_RATE_CONTROL_MIN_MAX_RATE := 16.

(** [JOB_OBJECT_NET_RATE_CONTROL_FLAGS] bits. *)
Definition JOB_OBJECT_NET_RATE_CONTROL_ENABLE := 1.
Definition JOB_OBJECT_NET_RATE_CONTROL_MAX_BANDWIDTH := 2.
Definition JOB_OBJECT_NET_RATE_CONTROL_DSCP_TAG := 4.

(* ------------------------------------------------------------------ *)
(** ** encoding/binary, little endian, bytes as Z in [0, 256) *)

Definition le_put_uint16 (x : Z) : list Z := [x mod 256; (x / 256) mod 256].
Definition le_put_uint32 (x : Z) : list Z :=
  [x mod 256; (x / 256) mod 256; (x / 65536) mod 256; (x / 16777216) mod 256].
(** [binary.LittleEndian.Uint16] / [Uint32]; Go panics on a short slice,
    which never happens here. *)
Definition le_Uint16 (b : list Z) : Z :=
  match b with b0 :: b1 :: _ => b0 + 256 * b1 | _ => 0 end.
Definition le_Uint32 (b : list Z) : Z :=
  match b with
  | b0 :: b1 :: b2 :: b3 :: _ => b0 + 256 * b1 + 65536 * b2 + 16777216 * b3
  | _ => 0
  end.

(* ------------------------------------------------------------------ *)
(** ** Limits *)

Record CPURate := { Min : Z; Max : Z; Weight : Z; HardCap : Z }.
Definition zero_CPURate : CPURate := Build_CPURate 0 0 0 0.

(** The closed set of [Limit] implementations; the flag carried by each
    [basicLimit]-embedding variant is the one of its package variable. *)
Inductive Limit :=
| basicLimit (flag : Z)
| affinityLimit (flag affinity : Z)
| jobMemoryLimit (flag jobMemory : Z)
| jobTimeLimit (flag jobTime : Z)
| processMemoryLimit (flag processMemory : Z)
| processTimeLimit (flag processTime : Z)
| activeProcessLimit (flag procs : Z)
| workingSetLimit (flag wsMin wsMax : Z)
| priorityClassLimit (flag prio : Z)
| schedulingClassLimit (flag schedClass : Z)
| uiRestriction (r : Z)
| cpuLimit (r : CPURate)
| netBandwidthLimit (maxBandwidth : Z)
| netDSCPTagLimit (tag : Z).

(** Constructors of the limit catalogue. *)
Definition WithBreakawayOK := basicLimit JOB_OBJECT_LIMIT_BREAKAWAY_OK.
Definition WithSilentBreakawayOK := basicLimit JOB_OBJECT_LIMIT_SILENT_BREAKAWAY_OK.
Definition WithDieOnUnhandledException := basicLimit JOB_OBJECT_LIMIT_DIE_ON_UNHANDLED_EXCEPTION.
Definition WithKillOnJobClose := basicLimit JOB_OBJECT_LIMIT_KILL_ON_JOB_CLOSE.
Definition WithPreserveJobTime := basicLimit JOB_OBJECT_LIMIT_PRESERVE_JOB_TIME.
Definition WithSubsetAffinity := basicLimit JOB_OBJECT_LIMIT_SUBSET_AFFINITY.
Definition WithAffinity (x : Z) := affinityLimit JOB_OBJECT_LIMIT_AFFINITY x.
Definition WithJobMemoryLimit (x : Z) := jobMemoryLimit JOB_OBJECT_LIMIT_JOB_MEMORY x.
(** [x.Nanoseconds() / timeFraction], Go division truncates. *)
Definition WithJobTimeLimit (ns : Z) := jobTimeLimit JOB_OBJECT_LIMIT_JOB_TIME (Z.quot ns 100).
Definition WithProcessMemoryLimit (x : Z) := processMemoryLimit JOB_OBJECT_LIMIT_PROCESS_MEMORY x.
Definition WithProcessTimeLimit (ns : Z) :=
  processTimeLimit JOB_OBJECT_LIMIT_PROCESS_TIME (Z.quot ns 100).
Definition WithActiveProcessLimit (x : Z) := activeProcessLimit JOB_OBJECT_LIMIT_ACTIVE_PROCESS x.
Definition WithWorkingSetLimit (mn mx : Z) := workingSetLimit JOB_OBJECT_LIMIT_WORKINGSET mn mx.
Definition WithPriorityClassLimit (x : Z) := priorityClassLimit JOB_OBJECT_LIMIT_PRIORITY_CLASS x.
Definition WithSchedulingClassLimit (x : Z) :=
  schedulingClassLimit JOB_OBJECT_LIMIT_SCHEDULING_CLASS x.

Definition WithDesktopLimit := uiRestriction JOB_OBJECT_UILIMIT_DESKTOP.
Definition WithDisplaySettingsLimit := uiRestriction JOB_OBJECT_UILIMIT_DISPLAYSETTINGS.
Definition WithExitWindowsLimit := uiRestriction JOB_OBJECT_UILIMIT_EXITWINDOWS.
Definition WithGlobalAtomsLimit := uiRestriction JOB_OBJECT_UILIMIT_GLOBALATOMS.
Definition WithHandlesLimit := uiRestriction JOB_OBJECT_UILIMIT_HANDLES.
Definition WithReadClipboardLimit := uiRestriction JOB_OBJECT_UILIMIT_READCLIPBOARD.
Definition WithSystemParametersLimit := uiRestriction JOB_OBJECT_UILIMIT_SYSTEMPARAMETERS.
Definition WithWriteClipboardLimit := uiRestriction JOB_OBJECT_UILIMIT_WRITECLIPBOARD.

Definition WithCPUHardCapLimit (v : Z) := cpuLimit {| Min := 0; Max := 0; Weight := 0; HardCap := v |}.
Definition WithCPUWeightedLimit (v : Z) := cpuLimit {| Min := 0; Max := 0; Weight := v; HardCap := 0 |}.
Definition WithCPUMinMaxLimit (mn mx : Z) :=
  cpuLimit {| Min := mn; Max := mx; Weight := 0; HardCap := 0 |}.

(** [basicLimit.set] / [reset] / [IsSet] on [LimitFlags]. *)
Definition basic_set (f : Z) (i : JobInfo) : JobInfo :=
  upd_basic (fun b => with_LimitFlags (Z.lor (LimitFlags b) f) b) i.
Definition basic_reset (f : Z) (i : JobInfo) : JobInfo :=
  upd_basic (fun b => with_LimitFlags (Z.ldiff (LimitFlags b) f) b) i.
Definition basic_IsSet (f : Z) (i : JobInfo) : bool :=
  0 <? Z.land (LimitFlags (BasicLimitInformation (ExtendedLimits i))) f.

(** [uiRestriction.set] / [reset] / [IsSet]. *)
Definition ui_set (r : Z) (i : JobInfo) : JobInfo :=
  set_UIRestrictions {| UIRestrictionsClass := Z.lor (UIRestrictionsClass (UIRestrictions i)) r |} i.
Definition ui_reset (r : Z) (i : JobInfo) : JobInfo :=
  set_UIRestrictions {| UIRestrictionsClass := Z.ldiff (UIRestrictionsClass (UIRestrictions i)) r |} i.
Definition ui_IsSet (r : Z) (i : JobInfo) : bool :=
  0 <? Z.land (UIRestrictionsClass (UIRestrictions i)) r.

(** [cpuLimit.set]: the switch picks the sub-mode; with none of
    [HardCap], [Weight], [Max] positive, [f] stays 0 and [Value] is kept. *)
Definition cpu_set (l : CPURate) (i : JobInfo) : JobInfo :=
  let c := CPURateControl i in
  let '(v, f) :=
    if 0 <? HardCap l then (HardCap l, JOB_OBJECT_CPU_RATE_CONTROL_HARD_CAP)
    else if 0 <? Weight l then (Weight l, JOB_OBJECT_CPU_RATE_CONTROL_WEIGHT_BASED)
    else if 0 <? Max l then
      (le_Uint32 (le_put_uint16 (Min l) ++ le_put_uint16 (Max l)),
       JOB_OBJECT_CPU_RATE_CONTROL_MIN_MAX_RATE)
    else (Value c, 0) in
  set_CPURateControl
    {| ControlFlags := Z.lor (Z.lor f JOB_OBJECT_CPU_RATE_CONTROL_ENABLE)
                             JOB_OBJECT_CPU_RATE_CONTROL_NOTIFY;
       Value := v |} i.

(** [cpuLimit.reset]. *)
Definition cpu_reset (i : JobInfo) : JobInfo :=
  set_CPURateControl {| ControlFlags := 0; Value := Value (CPURateControl i) |} i.

(** [cpuLimit.IsSet]. *)
Definition cpu_IsSet (i : JobInfo) : bool := negb (ControlFlags (CPURateControl i) =? 0).

(** [cpuLimit.LimitValue]: decode the shared [Value] slot by the flags. *)
Definition cpu_LimitValue (i : JobInfo) : CPURate :=
  let c := CPURateControl i in
  if 0 <? Z.land (ControlFlags c) JOB_OBJECT_CPU_RATE_CONTROL_HARD_CAP then
    {| Min := 0; Max := 0; Weight := 0; HardCap := Value c |}
  else if 0 <? Z.land (ControlFlags c) JOB_OBJECT_CPU_RATE_CONTROL_WEIGHT_BASED then
    {| Min := 0; Max := 0; Weight := Value c; HardCap := 0 |}
  else if 0 <? Z.land (ControlFlags c) JOB_OBJECT_CPU_RATE_CONTROL_MIN_MAX_RATE then
    let b := le_put_uint32 (Value c) in
    {| Min := le_Uint16 (firstn 2 b); Max := le_Uint16 (skipn 2 b); Weight := 0; HardCap := 0 |}
  else zero_CPURate.

(** Modelled from the spec: the set/reset of [netBandwidthLimit] and
    [netDSCPTagLimit], whose source is not part of the tree ("network limits
    (bandwidth ceiling, DSCP tag) - independently settable bits of one
    control block"). Each writes its value and its own control bit (with the
    enable bit) of [NetRateControl], and reset clears its own bit. *)
Definition net_set (l : Limit) (i : JobInfo) : JobInfo :=
  let n := NetRateControl i in
  match l with
  | netBandwidthLimit x =>
      set_NetRateControl
        {| MaxBandwidth := x;
           NetControlFlags := Z.lor (NetControlFlags n)
             (Z.lor JOB_OBJECT_NET_RATE_CONTROL_ENABLE JOB_OBJECT_NET_RATE_CONTROL_MAX_BANDWIDTH);
           DscpTag := DscpTag n |} i
  | netDSCPTagLimit x =>
      set_NetRateControl
        {| MaxBandwidth := MaxBandwidth n;
           NetControlFlags := Z.lor (NetControlFlags n)
             (Z.lor JOB_OBJECT_NET_RATE_CONTROL_ENABLE JOB_OBJECT_NET_RATE_CONTROL_DSCP_TAG);
           DscpTag := x |} i
  | _ => i
  end.
Definition net_reset (l : Limit) (i : JobInfo) : JobInfo :=
  let n := NetRateControl i in
  let bit := match l with
             | netBandwidthLimit _ => JOB_OBJECT_NET_RATE_CONTROL_MAX_BANDWIDTH
             | _ => JOB_OBJECT_NET_RATE_CONTROL_DSCP_TAG end in
  set_NetRateControl
    {| MaxBandwidth := MaxBandwidth n; NetControlFlags := Z.ldiff (NetControlFlags n) bit;
       DscpTag := DscpTag n |} i.

(** [Limit.set]: value fields first, then the embedded [basicLimit.set]. *)
Definition limit_set (l : Limit) (i : JobInfo) : JobInfo :=
  match l with
  | basicLimit f => basic_set f i
  | affinityLimit f x => basic_set f (upd_basic (with_Affinity x) i)
  | jobMemoryLimit f x => basic_set f (upd_ext_memory None (Some x) i)
  | jobTimeLimit f x => basic_set f (upd_basic (with_PerJobUserTimeLimit x) i)
  | processMemoryLimit f x => basic_set f (upd_ext_memory (Some x) None i)
  | processTimeLimit f x => basic_set f (upd_basic (with_PerProcessUserTimeLimit x) i)
  | activeProcessLimit f x => basic_set f (upd_basic (with_ActiveProcessLimit x) i)
  | workingSetLimit f mn mx => basic_set f (upd_basic (with_WorkingSet mn mx) i)
  | priorityClassLimit f x => basic_set f (upd_basic (with_PriorityClass x) i)
  | schedulingClassLimit f x => basic_set f (upd_basic (with_SchedulingClass x) i)
  | uiRestriction r => ui_set r i
  | cpuLimit r => cpu_set r i
  | netBandwidthLimit _ | netDSCPTagLimit _ => net_set l i
  end.

(** [Limit.reset]: the extended-limit variants inherit [basicLimit.reset]. *)
Definition limit_reset (l : Limit) (i : JobInfo) : JobInfo :=
  match l with
  | basicLimit f | affinityLimit f _ | jobMemoryLimit f _ | jobTimeLimit f _
  | processMemoryLimit f _ | processTimeLimit f _ | activeProcessLimit f _
  | workingSetLimit f _ _ | priorityClassLimit f _ | schedulingClassLimit f _ => basic_reset f i
  | uiRestriction r => ui_reset r i
  | cpuLimit _ => cpu_reset i
  | netBandwidthLimit _ | netDSCPTagLimit _ => net_reset l i
  end.

(** [Limit.IsSet]. *)
Definition IsSet (l : Limit) (i : JobInfo) : bool :=
  match l with
  | basicLimit f | affinityLimit f _ | jobMemoryLimit f _ | jobTimeLimit f _
  | processMemoryLimit f _ | processTimeLimit f _ | activeProcessLimit f _
  | workingSetLimit f _ _ | priorityClassLimit f _ | schedulingClassLimit f _ => basic_IsSet f i
  | uiRestriction r => ui_IsSet r i
  | cpuLimit _ => cpu_IsSet i
  | netBandwidthLimit _ => 0 <? Z.land (NetControlFlags (NetRateControl i))
                                        JOB_OBJECT_NET_RATE_CONTROL_MAX_BANDWIDTH
  | netDSCPTagLimit _ => 0 <? Z.land (NetControlFlags (NetRateControl i))
                                      JOB_OBJECT_NET_RATE_CONTROL_DSCP_TAG
  end.

(* ------------------------------------------------------------------ *)
(** ** Information classes and the OS side *)

Inductive JobObjectInformationClass :=
| JobObjectBasicUIRestrictions
| JobObjectBasicAndIoAccountingInformation
| JobObjectExtendedLimitInformation
| JobObjectCpuRateControlInformation
| JobObjectNetRateControlInformation.

Definition class_eq_dec (a b : JobObjectInformationClass) : {a = b} + {a <> b}.
Proof. decide equality. Defined.

Definition class_eqb (a b : JobObjectInformationClass) : bool :=
  if class_eq_dec a b then true else false.

(** [resolveRequiredInfoClass]: the type switch, [default] first. *)
Definition resolveRequiredInfoClass (l : Limit) : JobObjectInformationClass :=
  match l with
  | uiRestriction _ => JobObjectBasicUIRestrictions
  | cpuLimit _ => JobObjectCpuRateControlInformation
  | netBandwidthLimit _ | netDSCPTagLimit _ => JobObjectNetRateControlInformation
  | _ => JobObjectExtendedLimitInformation
  end.

(** The block of class [c] copied from [src] into [dst]: what
    [QueryInformationJobObject] / [SetInformationJobObject] do through
    [job.infoPtr(c)]. *)
Definition copy_block (c : JobObjectInformationClass) (src dst : JobInfo) : JobInfo :=
  match c with
  | JobObjectBasicUIRestrictions => set_UIRestrictions (UIRestrictions src) dst
  | JobObjectBasicAndIoAccountingInformation => set_AccountingInfo (AccountingInfo src) dst
  | JobObjectExtendedLimitInformation => set_ExtendedLimits (ExtendedLimits src) dst
  | JobObjectCpuRateControlInformation => set_CPURateControl (CPURateControl src) dst
  | JobObjectNetRateControlInformation => set_NetRateControl (NetRateControl src) dst
  end.

(** The two [infoClassSync] functions. *)
Inductive infoClassSync := QueryInfo | SetInfo.

(** OS requests whose outcome the OS decides. *)
Inductive OsRequest :=
| ReqInfo (fn : infoClassSync) (c : JobObjectInformationClass)
| ReqCreateJobObject
| ReqCloseJob.

(** Observable events: each OS call issued, and each merge of a limit into
    the cached block of a class. *)
Inductive Event :=
| EvInfo (fn : infoClassSync) (c : JobObjectInformationClass)
| EvMerge (c : JobObjectInformationClass)
| EvCreateJobObject
| EvCloseJob (h : Z).

(** The OS as seen by the job: its copy of the blocks, which requests fail
    (and with which error), the handle it hands out, and the call log. *)
Record Env := {
  os_info : JobInfo;
  os_fail : OsRequest -> option error;
  os_handle : Z;
  trace : list Event }.

Definition log (ev : Event) (env : Env) : Env :=
  {| os_info := os_info env; os_fail := os_fail env; os_handle := os_handle env;
     trace := trace env ++ [ev] |}.
Definition set_os_info (i : JobInfo) (env : Env) : Env :=
  {| os_info := i; os_fail := os_fail env; os_handle := os_handle env; trace := trace env |}.

Definition set_Info (i : JobInfo) (job : JobObject) : JobObject :=
  {| Name := Name job; Handle := Handle job; Info := i |}.

(** A state and error monad over the job value and the OS. *)
Inductive result (A : Type) := Ok (a : A) | Err (e : error).
Arguments Ok {A} a.
Arguments Err {A} e.

Definition St : Type := JobObject * Env.
Definition M (A : Type) : Type := St -> St * result A.

Definition ret {A} (a : A) : M A := fun s => (s, Ok a).
Definition bind {A B} (m : M A) (k : A -> M B) : M B :=
  fun s => match m s with
           | (s', Ok a) => k a s'
           | (s', Err e) => (s', Err e)
           end.
Notation "x <- m ;; k" := (bind m (fun x => k)) (at level 61, m at next level, right associativity).
Notation "m ;;; k" := (bind m (fun _ => k)) (at level 61, right associativity).

(** One [fn(job.Handle, infoClass, job.infoPtr(infoClass))] call. *)
Definition info_call (fn : infoClassSync) (c : JobObjectInformationClass) : M unit :=
  fun '(job, env) =>
    let env1 := log (EvInfo fn c) env in
    match os_fail env (ReqInfo fn c) with
    | Some e => ((job, env1), Err e)
    | None =>
        match fn with
        | QueryInfo => ((set_Info (copy_block c (os_info env) (Info job)) job, env1), Ok tt)
        | SetInfo => ((job, set_os_info (copy_block c (Info job) (os_info env)) env1), Ok tt)
        end
    end.

(** [job.sync(fn, infoClasses...)]: stop at the first error. *)
Fixpoint sync (fn : infoClassSync) (cs : list JobObjectInformationClass) : M unit :=
  match cs with
  | [] => ret tt
  | c :: cs' => info_call fn c ;;; sync fn cs'
  end.

(** [limit.set(job)] or [limit.reset(job)] on the cache. *)
Definition merge (set : bool) (l : Limit) : M unit :=
  fun '(job, env) =>
    let i' := if set then limit_set l (Info job) else limit_reset l (Info job) in
    ((set_Info i' job, log (EvMerge (resolveRequiredInfoClass l)) env), Ok tt).

(** [classesSet[c] = struct{}{}] on the key list, in insertion order. *)
Definition map_insert (c : JobObjectInformationClass) (keys : list JobObjectInformationClass) :=
  if existsb (class_eqb c) keys then keys else keys ++ [c].

(** The [for _, limit := range limits] loop of [applyLimit]. *)
Fixpoint apply_loop (set : bool) (limits : list Limit) (classesSet : list JobObjectInformationClass)
  : M (list JobObjectInformationClass) :=
  match limits with
  | [] => ret classesSet
  | l :: ls =>
      let c := resolveRequiredInfoClass l in
      (if existsb (class_eqb c) classesSet then ret tt else sync QueryInfo [c]) ;;;
      merge set l ;;;
      apply_loop set ls (map_insert c classesSet)
  end.

(** [applyLimit]. Go ranges over the [classesSet] map in an unspecified
    order: [range_order] gives the order of that run. *)
Definition applyLimit (range_order : list JobObjectInformationClass -> list JobObjectInformationClass)
    (set : bool) (limits : list Limit) : M unit :=
  classesSet <- apply_loop set limits [] ;;
  sync SetInfo (range_order classesSet).

Definition SetLimit range_order (limits : list Limit) : M unit := applyLimit range_order true limits.
Definition ResetLimit range_order (limits : list Limit) : M unit := applyLimit range_order false limits.

(** [QueryLimits]. *)
Definition QueryLimits : M unit :=
  sync QueryInfo [JobObjectExtendedLimitInformation; JobObjectBasicUIRestrictions;
                  JobObjectCpuRateControlInformation; JobObjectNetRateControlInformation].

(** [limitInfoClassesSet]. *)
Definition limitInfoClassesSet (i : JobInfo) : list JobObjectInformationClass :=
  (if 0 <? LimitFlags (BasicLimitInformation (ExtendedLimits i))
   then [JobObjectExtendedLimitInformation] else []) ++
  (if 0 <? UIRestrictionsClass (UIRestrictions i) then [JobObjectBasicUIRestrictions] else []) ++
  (if 0 <? ControlFlags (CPURateControl i) then [JobObjectCpuRateControlInformation] else []) ++
  (if 0 <? NetControlFlags (NetRateControl i) then [JobObjectNetRateControlInformation] else []).

(** [HasLimits]: on error Go returns [false, err]. *)
Definition HasLimits : M bool :=
  QueryLimits ;;;
  fun '(job, env) => ((job, env), Ok (negb (Nat.eqb (List.length (limitInfoClassesSet (Info job))) 0))).

(** [ResetLimits]. *)
Definition ResetLimits : M unit :=
  QueryLimits ;;;
  infoClasses <- (fun '(job, env) =>
                    ((set_Info zero_JobInfo job, env), Ok (limitInfoClassesSet (Info job)))) ;;
  sync SetInfo infoClasses.

(** [JobObject.Close]: [syscall.Close(job.Handle)]. *)
Definition Close_job : M unit :=
  fun '(job, env) =>
    let env1 := log (EvCloseJob (Handle job)) env in
    match os_fail env ReqCloseJob with
    | Some e => ((job, env1), Err e)
    | None => ((job, env1), Ok tt)
    end.

(** [Create(name, limits...)]. *)
Definition Create range_order (name : string) (limits : list Limit) (env : Env)
  : Env * result JobObject :=
  let env1 := log EvCreateJobObject env in
  match os_fail env ReqCreateJobObject with
  | Some e => (env1, Err e)
  | None =>
      let job := {| Name := name; Handle := os_handle env; Info := zero_JobInfo |} in
      match limits with
      | [] => (env1, Ok job)
      | _ :: _ =>
          match SetLimit range_order limits (job, env1) with
          | ((job', env2), Err e) =>
              let '((_, env3), _) := Close_job (job', env2) in (env3, Err e)
          | ((job', env2), Ok _) => (env2, Ok job')
          end
      end
  end.

Module Counters.
(** [Counters]. *)
Record t := {
  TotalUserTime : Z;
  TotalKernelTime : Z;
  ThisPeriodTotalUserTime : Z;
  ThisPeriodTotalKernelTime : Z;
  TotalPageFaultCount : Z;
  TotalProcesses : Z;
  ActiveProcesses : Z;
  TotalTerminatedProcesses : Z;
  ReadOperationCount : Z;
  WriteOperationCount : Z;
  OtherOperationCount : Z;
  ReadTransferCount : Z;
  WriteTransferCount : Z;
  OtherTransferCount : Z }.
End Counters.

(** [QueryCounters(c)]: one query of the accounting block, then the
    fourteen assignments exactly as written in job_object.go. On error
    [c] is left as it was. *)
Definition QueryCounters (c : Counters.t) : M Counters.t :=
  sync QueryInfo [JobObjectBasicAndIoAccountingInformation] ;;;
  fun '(job, env) =>
    let a := AccountingInfo (Info job) in
    let b := AcctBasic a in
    let io := AcctIo a in
    ((job, env), Ok
      {| Counters.TotalUserTime := TotalUserTime b;
         Counters.TotalKernelTime := TotalUserTime b;
         Counters.ThisPeriodTotalUserTime := TotalUserTime b;
         Counters.ThisPeriodTotalKernelTime := TotalUserTime b;
         Counters.TotalPageFaultCount := TotalPageFaultCount b;
         Counters.TotalProcesses := TotalProcesses b;
         Counters.ActiveProcesses := ActiveProcesses b;
         Counters.TotalTerminatedProcesses := TotalTerminatedProcesses b;
         Counters.ReadOperationCount := ReadOperationCount io;
         Counters.WriteOperationCount := WriteOperationCount io;
         Counters.OtherOperationCount := OtherOperationCount io;
         Counters.ReadTransferCount := ReadTransferCount io;
         Counters.WriteTransferCount := WriteTransferCount io;
         Counters.OtherTransferCount := OtherOperationCount io |}).

(** Sample data for the concrete runs below. *)
Definition sample_acct : JOBOBJECT_BASIC_AND_IO_ACCOUNTING_INFORMATION :=
  {| AcctBasic := Build_JOBOBJECT_BASIC_ACCOUNTING_INFORMATION 1 2 3 4 5 6 7 8;
     AcctIo := Build_IO_COUNTERS 9 10 11 12 13 14 |}.
Definition no_failure : OsRequest -> option error := fun _ => None.
Definition sample_env (fail : OsRequest -> option error) : Env :=
  {| os_info := set_AccountingInfo sample_acct zero_JobInfo; os_fail := fail;
     os_handle := 42; trace := [] |}.
Definition sample_job : JobObject := {| Name := ""; Handle := 42; Info := zero_JobInfo |}.
(** An OS whose blocks carry the breakaway flag and the desktop UI
    restriction, and which refuses to write the extended-limit block. *)
Definition limited_info : JobInfo :=
  limit_set WithDesktopLimit (limit_set WithBreakawayOK zero_JobInfo).
Definition ext_write_fails : OsRequest -> option error :=
  fun r => match r with
           | ReqInfo SetInfo JobObjectExtendedLimitInformation => Some (Errno 5)
           | _ => None
           end.
Definition limited_env (fail : OsRequest -> option error) : Env :=
  {| os_info := limited_info; os_fail := fail; os_handle := 42; trace := [] |}.
Definition zero_counters : Counters.t :=
  Counters.Build_t 0 0 0 0 0 0 0 0 0 0 0 0 0 0.

(* ------------------------------------------------------------------ *)
(** ** Subscription: the dequeue loop and concurrent [Close]/[Err] calls *)

Module Subscription.

(** [Notification]. *)
(** [Type] is a keyword here: the field is [Type_]. *)
Record Notification := { Type_ : string; PID : Z }.

(** Threads that take the subscription mutex [s.mu]. *)
Inductive Thread := TLoop | TClient (i : nat).

(** Program points of the [notify] goroutine. *)
Inductive LoopPc :=
| LWait                      (* in [s.Port.NextMessage()] *)
| LSend (m : Notification)   (* [c <- m] *)
| LLock (e : error)          (* [handlePortErr]: [s.mu.Lock()] *)
| LClassify (e : error)      (* the [errors.Is(...) && s.closed] test *)
| LUnlock                    (* deferred [s.mu.Unlock()] *)
| LCloseSink                 (* deferred [close(c)] *)
| LExit.

(** Program points of a caller goroutine running [Close] or [Err]. *)
Inductive ClientPc :=
| CIdle
| CCloseLock | CCloseCheck | CClosePort | CCloseSet
| CCloseUnlock (r : option error)       (* deferred unlock, then return r *)
| CErrLock | CErrRead
| CErrUnlock (r : option error).

(** Observable events. *)
Inductive SEvent :=
| SPortClose (i : nat) (r : option error)   (* [s.Port.Close()] issued, with outcome *)
| SFlagSet (i : nat)                        (* [s.closed = true] *)
| SCloseReturn (i : nat) (r : option error)
| SErrReturn (i : nat) (r : option error)
| SSend (m : Notification)
| SRecord (e : error)                       (* [s.err = err] *)
| SSinkClose.

Record W := {
  port_open : bool;       (* the completion port handle is valid *)
  closed : bool;          (* [s.closed] *)
  err : option error;     (* [s.err] *)
  mu : option Thread;     (* holder of [s.mu] *)
  sink : list Notification;
  sink_closes : nat;      (* how many times [close(c)] ran *)
  strace : list SEvent;
  loop : LoopPc;
  clients : nat -> ClientPc }.

Definition upd_client (cs : nat -> ClientPc) (i : nat) (pc : ClientPc) : nat -> ClientPc :=
  fun j => if Nat.eqb j i then pc else cs j.

(** The state right after [Notify] returned: port created and associated. *)
Definition init : W :=
  {| port_open := true; closed := false; err := None; mu := None; sink := [];
     sink_closes := 0; strace := []; loop := LWait; clients := fun _ => CIdle |}.

(** Steps of the [notify] goroutine. The OS decides what
    [GetQueuedCompletionStatus] returns: a message while the port is open,
    or any error. *)
Inductive loop_step : W -> W -> Prop :=
| l_recv w m :
    loop w = LWait -> port_open w = true ->
    loop_step w {| port_open := port_open w; closed := closed w; err := err w; mu := mu w;
                   sink := sink w; sink_closes := sink_closes w; strace := strace w;
                   loop := LSend m; clients := clients w |}
| l_fail w e :
    loop w = LWait ->
    loop_step w {| port_open := port_open w; closed := closed w; err := err w; mu := mu w;
                   sink := sink w; sink_closes := sink_closes w; strace := strace w;
                   loop := LLock e; clients := clients w |}
| l_send w m :
    loop w = LSend m ->
    loop_step w {| port_open := port_open w; closed := closed w; err := err w; mu := mu w;
                   sink := sink w ++ [m]; sink_closes := sink_closes w;
                   strace := strace w ++ [SSend m]; loop := LWait; clients := clients w |}
| l_lock w e :
    loop w = LLock e -> mu w = None ->
    loop_step w {| port_open := port_open w; closed := closed w; err := err w; mu := Some TLoop;
                   sink := sink w; sink_closes := sink_closes w; strace := strace w;
                   loop := LClassify e; clients := clients w |}
| l_classify_expected w e :
    loop w = LClassify e -> errors_Is_ErrAbandoned e && closed w = true ->
    loop_step w {| port_open := port_open w; closed := closed w; err := err w; mu := mu w;
                   sink := sink w; sink_closes := sink_closes w; strace := strace w;
                   loop := LUnlock; clients := clients w |}
| l_classify_record w e :
    loop w = LClassify e -> errors_Is_ErrAbandoned e && closed w = false ->
    loop_step w {| port_open := port_open w; closed := closed w; err := Some e; mu := mu w;
                   sink := sink w; sink_closes := sink_closes w; strace := strace w ++ [SRecord e];
                   loop := LUnlock; clients := clients w |}
| l_unlock w :
    loop w = LUnlock ->
    loop_step w {| port_open := port_open w; closed := closed w; err := err w; mu := None;
                   sink := sink w; sink_closes := sink_closes w; strace := strace w;
                   loop := LCloseSink; clients := clients w |}
| l_close_sink w :
    loop w = LCloseSink ->
    loop_step w {| port_open := port_open w; closed := closed w; err := err w; mu := mu w;
                   sink := sink w; sink_closes := S (sink_closes w);
                   strace := strace w ++ [SSinkClose]; loop := LExit; clients := clients w |}.

(** Steps of caller goroutine [i] running [Subscription.Close] or
    [Subscription.Err]. The OS decides whether [CloseHandle] succeeds; it
    can only succeed on a valid handle. *)
Inductive client_step (i : nat) : W -> W -> Prop :=
| c_start_close w :
    clients w i = CIdle ->
    client_step i w {| port_open := port_open w; closed := closed w; err := err w; mu := mu w;
                       sink := sink w; sink_closes := sink_closes w; strace := strace w;
                       loop := loop w; clients := upd_client (clients w) i CCloseLock |}
| c_close_lock w :
    clients w i = CCloseLock -> mu w = None ->
    client_step i w {| port_open := port_open w; closed := closed w; err := err w;
                       mu := Some (TClient i);
                       sink := sink w; sink_closes := sink_closes w; strace := strace w;
                       loop := loop w; clients := upd_client (clients w) i CCloseCheck |}
| c_close_check w :
    clients w i = CCloseCheck ->
    client_step i w {| port_open := port_open w; closed := closed w; err := err w; mu := mu w;
                       sink := sink w; sink_closes := sink_closes w; strace := strace w;
                       loop := loop w;
                       clients := upd_client (clients w) i
                                    (if closed w then CCloseUnlock None else CClosePort) |}
| c_close_port_ok w :
    clients w i = CClosePort -> port_open w = true ->
    client_step i w {| port_open := false; closed := closed w; err := err w; mu := mu w;
                       sink := sink w; sink_closes := sink_closes w;
                       strace := strace w ++ [SPortClose i None];
                       loop := loop w; clients := upd_client (clients w) i CCloseSet |}
| c_close_port_fail w e :
    clients w i = CClosePort ->
    client_step i w {| port_open := port_open w; closed := closed w; err := err w; mu := mu w;
                       sink := sink w; sink_closes := sink_closes w;
                       strace := strace w ++ [SPortClose i (Some e)];
                       loop := loop w; clients := upd_client (clients w) i (CCloseUnlock (Some e)) |}
| c_close_set w :
    clients w i = CCloseSet ->
    client_step i w {| port_open := port_open w; closed := true; err := err w; mu := mu w;
                       sink := sink w; sink_closes := sink_closes w;
                       strace := strace w ++ [SFlagSet i];
                       loop := loop w; clients := upd_client (clients w) i (CCloseUnlock None) |}
| c_close_unlock w r :
    clients w i = CCloseUnlock r ->
    client_step i w {| port_open := port_open w; closed := closed w; err := err w; mu := None;
                       sink := sink w; sink_closes := sink_closes w;
                       strace := strace w ++ [SCloseReturn i r];
                       loop := loop w; clients := upd_client (clients w) i CIdle |}
| c_start_err w :
    clients w i = CIdle ->
    client_step i w {| port_open := port_open w; closed := closed w; err := err w; mu := mu w;
                       sink := sink w; sink_closes := sink_closes w; strace := strace w;
                       loop := loop w; clients := upd_client (clients w) i CErrLock |}
| c_err_lock w :
    clients w i = CErrLock -> mu w = None ->
    client_step i w {| port_open := port_open w; closed := closed w; err := err w;
                       mu := Some (TClient i);
                       sink := sink w; sink_closes := sink_closes w; strace := strace w;
                       loop := loop w; clients := upd_client (clients w) i CErrRead |}
| c_err_read w :
    clients w i = CErrRead ->
    client_step i w {| port_open := port_open w; closed := closed w; err := err w; mu := mu w;
                       sink := sink w; sink_closes := sink_closes w; strace := strace w;
                       loop := loop w; clients := upd_client (clients w) i (CErrUnlock (err w)) |}
| c_err_unlock w r :
    clients w i = CErrUnlock r ->
    client_step i w {| port_open := port_open w; closed := closed w; err := err w; mu := None;
                       sink := sink w; sink_closes := sink_closes w;
                       strace := strace w ++ [SErrReturn i r];
                       loop := loop w; clients := upd_client (clients w) i CIdle |}.

(** Interleaving of all goroutines. *)
Inductive step (w w' : W) : Prop :=
| s_loop : loop_step w w' -> step w w'
| s_client i : client_step i w w' -> step w w'.

Inductive reachable : W -> Prop :=
| r_init : reachable init
| r_step w w' : reachable w -> step w w' -> reachable w'.

(** Runs of the loop goroutine alone. *)
Inductive loop_steps : W -> W -> Prop :=
| ls_refl w : loop_steps w w
| ls_step w w' w'' : loop_step w w' -> loop_steps w' w'' -> loop_steps w w''.

(** Program points at which a caller holds [s.mu]. *)
Definition holds_lock (pc : ClientPc) : bool :=
  match pc with
  | CCloseCheck | CClosePort | CCloseSet | CCloseUnlock _ | CErrRead | CErrUnlock _ => true
  | _ => false
  end.


(** Program points at which the loop holds [s.mu]. *)
Definition loop_holds (pc : LoopPc) : bool :=
  match pc with LClassify _ | LUnlock => true | _ => false end.

(** Program points after the classification of the loop's error. *)
Definition loop_done (pc : LoopPc) : bool :=
  match pc with LUnlock | LCloseSink | LExit => true | _ => false end.

(** The invariant of reachable states. *)
Record Inv (w : W) : Prop := {
  inv_client_lock : forall i, holds_lock (clients w i) = true -> mu w = Some (TClient i);
  inv_loop_lock : loop_holds (loop w) = true -> mu w = Some TLoop;
  inv_port : forall i, clients w i = CClosePort -> closed w = false /\ port_open w = true;
  inv_set : forall i, clients w i = CCloseSet -> closed w = false /\ port_open w = false;
  inv_open : (forall i, clients w i <> CCloseSet) -> port_open w = negb (closed w);
  inv_fail : forall i e, clients w i = CCloseUnlock (Some e) -> closed w = false;
  inv_errread : forall i r, clients w i = CErrUnlock r -> r = err w;
  inv_sink : (loop w = LExit /\ sink_closes w = 1%nat) \/ (loop w <> LExit /\ sink_closes w = 0%nat);
  inv_record : forall e, In (SRecord e) (strace w) -> err w = Some e /\ loop_done (loop w) = true;
  inv_noerr : loop_done (loop w) = false -> err w = None;
  inv_sinkclose : In SSinkClose (strace w) -> loop w = LExit;
  inv_flag : forall i, In (SFlagSet i) (strace w) -> closed w = true }.

End Subscription.

(* ------------------------------------------------------------------ *)
(** ** Definitions used in the statements *)

(** Number of CPU-rate sub-mode bits (weight, hard cap, min/max) set. *)
Definition cpu_submode_count (flags : Z) : Z :=
  (if Z.testbit flags 1 then 1 else 0) + (if Z.testbit flags 2 then 1 else 0)
  + (if Z.testbit flags 4 then 1 else 0).

(** The fourteen single boolean-flag limits. *)
Definition single_flag_limits : list Limit :=
  [WithBreakawayOK; WithSilentBreakawayOK; WithDieOnUnhandledException; WithKillOnJobClose;
   WithPreserveJobTime; WithSubsetAffinity;
   WithDesktopLimit; WithDisplaySettingsLimit; WithExitWindowsLimit; WithGlobalAtomsLimit;
   WithHandlesLimit; WithReadClipboardLimit; WithSystemParametersLimit; WithWriteClipboardLimit].

(** The bit of a flag limit, the flag word it lives in, and that word
    overwritten. *)
Definition flag_bit (l : Limit) : Z :=
  match l with basicLimit f => f | uiRestriction r => r | _ => 0 end.
Definition flag_word (l : Limit) (i : JobInfo) : Z :=
  match l with
  | uiRestriction _ => UIRestrictionsClass (UIRestrictions i)
  | _ => LimitFlags (BasicLimitInformation (ExtendedLimits i))
  end.
Definition set_flag_word (l : Limit) (v : Z) (i : JobInfo) : JobInfo :=
  match l with
  | uiRestriction _ => set_UIRestrictions {| UIRestrictionsClass := v |} i
  | _ => upd_basic (with_LimitFlags v) i
  end.

(** The block behind [job.infoPtr(c)]. *)
Inductive InfoBlock :=
| BExt (x : JOBOBJECT_EXTENDED_LIMIT_INFORMATION)
| BUI (x : JOBOBJECT_BASIC_UI_RESTRICTIONS)
| BAcct (x : JOBOBJECT_BASIC_AND_IO_ACCOUNTING_INFORMATION)
| BCpu (x : JOBOBJECT_CPU_RATE_CONTROL_INFORMATION)
| BNet (x : JOBOBJECT_NET_RATE_CONTROL_INFORMATION).

Definition infoPtr (c : JobObjectInformationClass) (i : JobInfo) : InfoBlock :=
  match c with
  | JobObjectBasicUIRestrictions => BUI (UIRestrictions i)
  | JobObjectBasicAndIoAccountingInformation => BAcct (AccountingInfo i)
  | JobObjectExtendedLimitInformation => BExt (ExtendedLimits i)
  | JobObjectCpuRateControlInformation => BCpu (CPURateControl i)
  | JobObjectNetRateControlInformation => BNet (NetRateControl i)
  end.

(** Several blocks copied, in order. *)
Definition copy_blocks (cs : list JobObjectInformationClass) (src dst : JobInfo) : JobInfo :=
  fold_left (fun d c => copy_block c src d) cs dst.

(** The four limit blocks, in the order [QueryLimits] reads them. *)
Definition limit_classes : list JobObjectInformationClass :=
  [JobObjectExtendedLimitInformation; JobObjectBasicUIRestrictions;
   JobObjectCpuRateControlInformation; JobObjectNetRateControlInformation].

Definition event_eq_dec (a b : Event) : {a = b} + {a <> b}.
Proof.
  decide equality; try apply class_eq_dec; try apply Z.eq_dec; decide equality.
Defined.

Definition is_merge (e : Event) : bool := match e with EvMerge _ => true | _ => false end.
Definition is_setinfo (e : Event) : bool :=
  match e with EvInfo SetInfo _ => true | _ => false end.

Definition is_query (e : Event) : bool :=
  match e with EvInfo QueryInfo _ => true | _ => false end.

(** The key list of [classesSet] after the loop of [applyLimit]. *)
Definition keys_after (limits : list Limit) (keys : list JobObjectInformationClass) :=
  fold_left (fun ks l => map_insert (resolveRequiredInfoClass l) ks) limits keys.

(** The events the loop of [applyLimit] logs when no call fails: a query of
    a block the first time it is needed, then the merge of the limit. *)
Fixpoint loop_events (limits : list Limit) (keys : list JobObjectInformationClass) : list Event :=
  match limits with
  | [] => []
  | l :: ls =>
      let c := resolveRequiredInfoClass l in
      (if existsb (class_eqb c) keys then [] else [EvInfo QueryInfo c])
        ++ EvMerge c :: loop_events ls (map_insert c keys)
  end.

(** A computation that never changes the job's handle. *)
Definition keeps_handle {A} (m : M A) : Prop :=
  forall job env job' env' r, m (job, env) = ((job', env'), r) -> Handle job' = Handle job.

(* ------------------------------------------------------------------ *)
(** ** Limit values and the remaining [JobObject] entry points *)

(** What [Limit.Value] returns, by Go type: [bool], an unsigned integer
    ([uintptr], [uint32], [PriorityClass]), a [time.Duration] in
    nanoseconds, or a [CPURate]. *)
Inductive LimitVal :=
| VBool (b : bool)
| VUint (x : Z)
| VDuration (ns : Z)
| VCPURate (r : CPURate).

(** [int64] arithmetic wraps modulo 2^64. *)
Definition wrap_int64 (x : Z) : Z := (x + 2 ^ 63) mod 2 ^ 64 - 2 ^ 63.

(** [const timeFraction = 100]. *)
Definition timeFraction : Z := 100.

(** [workingSetLimit.MinWorkingSetSize] / [MaxWorkingSetSize]. *)
Definition MinWorkingSetSize (i : JobInfo) : Z :=
  MinimumWorkingSetSize (BasicLimitInformation (ExtendedLimits i)).
Definition MaxWorkingSetSize (i : JobInfo) : Z :=
  MaximumWorkingSetSize (BasicLimitInformation (ExtendedLimits i)).

(** [Limit.Value]: each value limit returns its [LimitValue]; [basicLimit]
    and [uiRestriction] return [IsSet]; [workingSetLimit] declares no
    [Value] and promotes the one of its embedded [basicLimit]. The network
    limits' methods are not in the tree ([None]). *)
Definition Limit_Value (l : Limit) (i : JobInfo) : option LimitVal :=
  let b := BasicLimitInformation (ExtendedLimits i) in
  match l with
  | basicLimit f => Some (VBool (basic_IsSet f i))
  | affinityLimit _ _ => Some (VUint (Affinity b))
  | jobMemoryLimit _ _ => Some (VUint (JobMemoryLimit (ExtendedLimits i)))
  | jobTimeLimit _ _ => Some (VDuration (wrap_int64 (PerJobUserTimeLimit b * timeFraction)))
  | processMemoryLimit _ _ => Some (VUint (ProcessMemoryLimit (ExtendedLimits i)))
  | processTimeLimit _ _ => Some (VDuration (wrap_int64 (PerProcessUserTimeLimit b * timeFraction)))
  | activeProcessLimit _ _ => Some (VUint (ActiveProcessLimit b))
  | workingSetLimit f _ _ => Some (VBool (basic_IsSet f i))
  | priorityClassLimit _ _ => Some (VUint (PriorityClass b))
  | schedulingClassLimit _ _ => Some (VUint (SchedulingClass b))
  | uiRestriction r => Some (VBool (ui_IsSet r i))
  | cpuLimit _ => Some (VCPURate (cpu_LimitValue i))
  | netBandwidthLimit _ | netDSCPTagLimit _ => None
  end.

(** The network limits, whose methods are not part of the tree. *)
Definition is_net_limit (l : Limit) : bool :=
  match l with netBandwidthLimit _ | netDSCPTagLimit _ => true | _ => false end.

(** A limit of the tree whose flag (if it has one) is a non-zero bit set. *)
Definition flag_positive (l : Limit) : Prop :=
  match l with
  | basicLimit f | affinityLimit f _ | jobMemoryLimit f _ | jobTimeLimit f _
  | processMemoryLimit f _ | processTimeLimit f _ | activeProcessLimit f _
  | workingSetLimit f _ _ | priorityClassLimit f _ | schedulingClassLimit f _ => 0 < f
  | uiRestriction r => 0 < r
  | cpuLimit _ => True
  | netBandwidthLimit _ | netDSCPTagLimit _ => False
  end.

(** [jobapi.JOB_OBJECT_ALL_ACCESS]. *)
Definition JOB_OBJECT_ALL_ACCESS : Z := 2031647.

(** [OpenWithAccess(name, access)]: [jobapi.OpenJobObject(access, 0, name)]
    is the OS's answer. *)
Definition OpenWithAccess (OpenJobObject : Z -> Z -> string -> result Z)
    (name : string) (access : Z) : result JobObject :=
  match OpenJobObject access 0 name with
  | Err e => Err e
  | Ok h => Ok {| Name := name; Handle := h; Info := zero_JobInfo |}
  end.

(** [Open(name)]. *)
Definition Open (OpenJobObject : Z -> Z -> string -> result Z) (name : string) : result JobObject :=
  OpenWithAccess OpenJobObject name JOB_OBJECT_ALL_ACCESS.

(* ------------------------------------------------------------------ *)
(** ** Completion-port messages, [CreatePort], [NextMessage], [Notify] *)

(** [jobapi.CompletionPortMessage] values ([iota + 1], 5 skipped). *)
Definition JOB_OBJECT_MSG_END_OF_JOB_TIME := 1.
Definition JOB_OBJECT_MSG_END_OF_PROCESS_TIME := 2.
Definition JOB_OBJECT_MSG_ACTIVE_PROCESS_LIMIT := 3.
Definition JOB_OBJECT_MSG_ACTIVE_PROCESS_ZERO := 4.
Definition JOB_OBJECT_MSG_NEW_PROCESS := 6.
Definition JOB_OBJECT_MSG_EXIT_PROCESS := 7.
Definition JOB_OBJECT_MSG_ABNORMAL_EXIT_PROCESS := 8.
Definition JOB_OBJECT_MSG_PROCESS_MEMORY_LIMIT := 9.
Definition JOB_OBJECT_MSG_JOB_MEMORY_LIMIT := 10.
Definition JOB_OBJECT_MSG_NOTIFICATION_LIMIT := 11.
Definition JOB_OBJECT_MSG_JOB_CYCLE_TIME_LIMIT := 12.
Definition JOB_OBJECT_MSG_SILO_TERMINATED := 13.

(** The [notificationTypes] map, entry by entry. *)
Definition notificationTypes : list (Z * string) :=
  [(JOB_OBJECT_MSG_END_OF_JOB_TIME, "EndOfJobTime"%string);
   (JOB_OBJECT_MSG_END_OF_PROCESS_TIME, "EndOfProcessTime"%string);
   (JOB_OBJECT_MSG_ACTIVE_PROCESS_LIMIT, "ActiveProcessLimit"%string);
   (JOB_OBJECT_MSG_ACTIVE_PROCESS_ZERO, "ActiveProcessZero"%string);
   (JOB_OBJECT_MSG_NEW_PROCESS, "NewProcess"%string);
   (JOB_OBJECT_MSG_EXIT_PROCESS, "ExitProcess"%string);
   (JOB_OBJECT_MSG_ABNORMAL_EXIT_PROCESS, "AbnormalExitProcess"%string);
   (JOB_OBJECT_MSG_PROCESS_MEMORY_LIMIT, "ProcessMemoryExit"%string);
   (JOB_OBJECT_MSG_JOB_MEMORY_LIMIT, "JobMemoryLimit"%string);
   (JOB_OBJECT_MSG_NOTIFICATION_LIMIT, "NotificationLimit"%string);
   (JOB_OBJECT_MSG_JOB_CYCLE_TIME_LIMIT, "JobCycleLimit"%string);
   (JOB_OBJECT_MSG_SILO_TERMINATED, "SiloTerminated"%string)].

(** [resolveNotificationType]: the map lookup, [ok] as [Some]. *)
Definition resolveNotificationType (mType : Z) : option string :=
  match find (fun p => Z.eqb (fst p) mType) notificationTypes with
  | Some (_, t) => Some t
  | None => None
  end.

(** [fmt.Sprintf("%v", x)] of an unsigned integer: its decimal digits,
    most significant first; the fuel bounds the number of digits. *)
Definition dec_digit (d : Z) : Ascii.ascii := Ascii.ascii_of_nat (48 + Z.to_nat d).
Fixpoint dec_digits (fuel : nat) (n : Z) (acc : string) : string :=
  match fuel with
  | O => acc
  | S f =>
      let acc' := String (dec_digit (n mod 10)) acc in
      if n <? 10 then acc' else dec_digits f (n / 10) acc'
  end.
Definition fmt_uint (n : Z) : string := dec_digits 20 n EmptyString.

(** [jobapi.GetQueuedCompletionStatus]: [sys] is what
    [syscall.GetQueuedCompletionStatus] produced, the message type and the
    [overlapped] pointer, or its error. *)
Definition jobapi_GetQueuedCompletionStatus (sys : result (Z * Z)) : Z * Z * option error :=
  match sys with
  | Err e => (0, 0, Some (SyscallError "GetQueuedCompletionStatus" e))
  | Ok (mType, overlapped) => (mType, overlapped, None)
  end.

Definition zero_Notification : Subscription.Notification :=
  {| Subscription.Type_ := EmptyString; Subscription.PID := 0 |}.

(** [Port.NextMessage]; [int(pid)] of a [uintptr] wraps on 64 bits. *)
Definition NextMessage (sys : result (Z * Z)) : Subscription.Notification * option error :=
  let '(mType, pid, err) := jobapi_GetQueuedCompletionStatus sys in
  match err with
  | Some e => (zero_Notification, Some e)
  | None =>
      let typ := match resolveNotificationType mType with
                 | Some t => t
                 | None => fmt_uint mType
                 end in
      ({| Subscription.Type_ := typ; Subscription.PID := wrap_int64 pid |}, None)
  end.

(** The OS calls of [CreatePort] and [Notify]. *)
Inductive PortEvent :=
| PECreateIoCompletionPort
| PEAssociate (job port : Z)     (* [SetInformationJobObject] of the association *)
| PECloseHandle (h : Z)
| PEStartNotify (port : Z).      (* [go s.notify(c)] *)

(** What the OS answers: the new port handle or the error of
    [CreateIoCompletionPort], and the [lastErr] of a failed association. *)
Record PortOS := {
  create_port : result Z;
  associate_fail : Z -> Z -> option error }.

(** [jobapi.AssociateCompletionPort]: the error of
    [SetInformationJobObject] is wrapped once more under the same name. *)
Definition AssociateCompletionPort (os : PortOS) (hJob hPort : Z) : option error :=
  match associate_fail os hJob hPort with
  | None => None
  | Some lastErr =>
      Some (SyscallError "SetInformationJobObject" (SyscallError "SetInformationJobObject" lastErr))
  end.

(** [CreatePort]: the events issued, the returned [Port] and error. *)
Definition CreatePort (os : PortOS) (job : JobObject) : list PortEvent * (Z * option error) :=
  match create_port os with
  | Err e => ([PECreateIoCompletionPort], (0, Some e))
  | Ok handle =>
      match AssociateCompletionPort os (Handle job) handle with
      | None => ([PECreateIoCompletionPort; PEAssociate (Handle job) handle], (handle, None))
      | Some e =>
          ([PECreateIoCompletionPort; PEAssociate (Handle job) handle; PECloseHandle handle],
           (handle, Some e))
      end
  end.

(** [Notify]: the subscription's port, or the error. *)
Definition Notify (os : PortOS) (job : JobObject) : list PortEvent * result Z :=
  let '(evs, (p, err)) := CreatePort os job in
  match err with
  | Some e => (evs, Err e)
  | None => (evs ++ [PEStartNotify p], Ok p)
  end.

Definition port_event_eq_dec (a b : PortEvent) : {a = b} + {a <> b}.
Proof. decide equality; apply Z.eq_dec. Defined.

(** Reading decimal digits back, most significant first. *)
Definition digit_val (c : Ascii.ascii) : Z := Z.of_nat (Ascii.nat_of_ascii c) - 48.
Fixpoint parse_dec_aux (s : string) (acc : Z) : Z :=
  match s with
  | EmptyString => acc
  | String c s' => parse_dec_aux s' (acc * 10 + digit_val c)
  end.

(** The six limits whose [Value] is an unsigned integer. *)
Definition uint_value_limits (x : Z) : list Limit :=
  [WithAffinity x; WithJobMemoryLimit x; WithProcessMemoryLimit x; WithActiveProcessLimit x;
   WithPriorityClassLimit x; WithSchedulingClassLimit x].

(** A port whose association is refused. *)
Definition refusing_os : PortOS :=
  {| create_port := Ok 7; associate_fail := fun _ _ => Some (Errno 5) |}.

(* ------------------------------------------------------------------ *)
(** ** Processes: [Assign], [Contains], [Start], [Resume] *)

(** Errors of the process helpers: one passed through unchanged, one
    wrapped by [fmt.Errorf("<prefix>: %w", err)], or a plain
    [fmt.Errorf(msg)]. *)
Inductive werror :=
| WErr (e : error)
| WWrap (prefix : string) (inner : error)
| WMsg (msg : string).

Definition PROCESS_QUERY_LIMITED_INFORMATION := 4096.   (* 0x001000 *)
Definition PROCESS_ALL_ACCESS := 2035711.               (* 0x1F0FFF *)
Definition THREAD_SUSPEND_RESUME := 2.
Definition TH32CS_SNAPTHREAD := 4.
Definition CREATE_SUSPENDED := 4.
(** [windows.ERROR_NO_MORE_FILES]. *)
Definition ERROR_NO_MORE_FILES := 18.

(** The OS calls of this part, with their arguments. *)
Inductive ProcEvent :=
| PrCmdStart (flags : Z)
| PrOpenProcess (access pid : Z)
| PrAssign (job h : Z)
| PrIsInJob (h job : Z)
| PrSnapshot (flags pid : Z)
| PrThread32First (s : Z)
| PrThread32Next (s : Z)
| PrOpenThread (access tid : Z)
| PrResumeThread (h : Z)
| PrCloseHandle (h : Z).

Definition proc_event_eq_dec (a b : ProcEvent) : {a = b} + {a <> b}.
Proof. decide equality; apply Z.eq_dec. Defined.

(** [windows.ThreadEntry32], the two fields read. *)
Record ThreadEntry32 := { OwnerProcessID : Z; ThreadID : Z }.

(** What the OS answers. [cmd.Start()] sees the creation flags and gives
    the new process id; a snapshot lists its thread entries, after which
    [Thread32First]/[Thread32Next] report [snapshot_end]. Failed calls give
    their [lastErr]; the results of [CloseHandle] are discarded. *)
Record ProcOS := {
  cmd_start : Z -> result Z;
  OpenProcess_os : Z -> Z -> result Z;
  AssignProcessToJobObject_fail : Z -> Z -> option error;
  IsProcessInJob_os : Z -> Z -> bool * option error;
  CreateToolhelp32Snapshot_os : Z -> Z -> result Z;
  snapshot_entries : list ThreadEntry32;
  snapshot_end : error;
  OpenThread_os : Z -> Z -> result Z;
  ResumeThread_fail : Z -> option error }.

(** [withProcessHandle(pid, access, fn)]: [fn] also updates the variable
    its closure captured ([captured]); the handle is closed when [fn]
    returns. *)
Definition withProcessHandle {A} (os : ProcOS) (pid access : Z)
    (fn : Z -> A -> list ProcEvent * A * option error) (captured : A)
  : list ProcEvent * A * option error :=
  let acc32 := access mod 2 ^ 32 in
  let pid32 := pid mod 2 ^ 32 in
  match OpenProcess_os os acc32 pid32 with
  | Err e => ([PrOpenProcess acc32 pid32], captured, Some e)
  | Ok hProcess =>
      let '(evs, a, r) := fn hProcess captured in
      (PrOpenProcess acc32 pid32 :: evs ++ [PrCloseHandle hProcess], a, r)
  end.

(** [job.Assign(p)]. *)
Definition Assign (os : ProcOS) (job : JobObject) (pid : Z) : list ProcEvent * option error :=
  let '(evs, _, r) :=
    withProcessHandle os pid PROCESS_ALL_ACCESS
      (fun h (u : unit) =>
         ([PrAssign (Handle job) h], u,
          match AssignProcessToJobObject_fail os (Handle job) h with
          | None => None
          | Some lastErr => Some (SyscallError "AssignProcessToJobObject" lastErr)
          end)) tt in
  (evs, r).

(** [job.Contains(p)]: [found] starts [false] and is set by the closure. *)
Definition Contains (os : ProcOS) (job : JobObject) (pid : Z)
  : list ProcEvent * (bool * option error) :=
  let '(evs, found, r) :=
    withProcessHandle os pid PROCESS_QUERY_LIMITED_INFORMATION
      (fun h (_ : bool) =>
         let '(f, lastErr) := IsProcessInJob_os os h (Handle job) in
         ([PrIsInJob h (Handle job)], f, option_map (SyscallError "IsProcessInJob") lastErr)) false in
  (evs, (found, r)).

(** [ResumeThread(tid)]. *)
Definition ResumeThread (os : ProcOS) (tid : Z) : list ProcEvent * option werror :=
  match OpenThread_os os THREAD_SUSPEND_RESUME tid with
  | Err e => ([PrOpenThread THREAD_SUSPEND_RESUME tid], Some (WWrap "OpenThread" e))
  | Ok hThread =>
      ([PrOpenThread THREAD_SUSPEND_RESUME tid; PrResumeThread hThread; PrCloseHandle hThread],
       match ResumeThread_fail os hThread with
       | None => None
       | Some e => Some (WWrap "ResumeThread" e)
       end)
  end.

(** The [for] loop of [ResumeProcess]: [Thread32Next] first, then the
    [switch] on its error; [rest] are the entries after the one
    [Thread32First] filled in. *)
Fixpoint thread_scan (os : ProcOS) (s pid : Z) (rest : list ThreadEntry32)
  : list ProcEvent * option werror :=
  match rest with
  | [] =>
      ([PrThread32Next s],
       match snapshot_end os with
       | Errno c =>
           if c =? ERROR_NO_MORE_FILES then Some (WMsg "no threads found")
           else Some (WWrap "Thread32Next" (Errno c))
       | e => Some (WWrap "Thread32Next" e)
       end)
  | e :: rest' =>
      let '(evs, r) :=
        if (OwnerProcessID e =? pid) && negb (ThreadID e =? 0)
        then ResumeThread os (ThreadID e)
        else thread_scan os s pid rest' in
      (PrThread32Next s :: evs, r)
  end.

(** [ResumeProcess(pid)]; the snapshot handle is closed by the deferred
    call. *)
Definition ResumeProcess (os : ProcOS) (pid : Z) : list ProcEvent * option werror :=
  let pid32 := pid mod 2 ^ 32 in
  match CreateToolhelp32Snapshot_os os TH32CS_SNAPTHREAD pid32 with
  | Err e => ([PrSnapshot TH32CS_SNAPTHREAD pid32], Some (WWrap "CreateToolhelp32Snapshot" e))
  | Ok s =>
      let '(evs, r) :=
        match snapshot_entries os with
        | [] => ([PrThread32First s], Some (WWrap "Thread32First" (snapshot_end os)))
        | _ :: rest =>
            let '(evs, r) := thread_scan os s pid rest in (PrThread32First s :: evs, r)
        end in
      (PrSnapshot TH32CS_SNAPTHREAD pid32 :: evs ++ [PrCloseHandle s], r)
  end.

(** [exec.Cmd], the fields used: [SysProcAttr.CreationFlags] and the pid
    of [Process]. *)
Record SysProcAttr := { CreationFlags : Z }.
Record Cmd := { SysProcAttr_ : option SysProcAttr; Process : option Z }.

(** [Resume(cmd)]. *)
Definition Resume (os : ProcOS) (cmd : Cmd) : list ProcEvent * option werror :=
  match Process cmd with
  | None => ([], Some (WMsg "process is nil"))
  | Some pid => ResumeProcess os pid
  end.

(** [StartInJobObject(cmd, job)]: the command as left, the events, the
    error. *)
Definition StartInJobObject (os : ProcOS) (cmd : Cmd) (job : JobObject)
  : Cmd * list ProcEvent * option werror :=
  let attr := match SysProcAttr_ cmd with None => {| CreationFlags := 0 |} | Some a => a end in
  let flags := Z.lor (CreationFlags attr) CREATE_SUSPENDED in
  let cmd1 := {| SysProcAttr_ := Some {| CreationFlags := flags |}; Process := Process cmd |} in
  match cmd_start os flags with
  | Err e => (cmd1, [PrCmdStart flags], Some (WErr e))
  | Ok pid =>
      let cmd2 := {| SysProcAttr_ := SysProcAttr_ cmd1; Process := Some pid |} in
      let '(evs1, r1) := Assign os job pid in
      match r1 with
      | Some e => (cmd2, PrCmdStart flags :: evs1, Some (WErr e))
      | None =>
          let '(evs2, r2) := Resume os cmd2 in
          (cmd2, PrCmdStart flags :: evs1 ++ evs2, r2)
      end
  end.

(** [Start(cmd, limits...)]: the OS of the job side, the process-side
    events, the job returned and the error. *)
Definition Start range_order (limits : list Limit) (os : ProcOS) (cmd : Cmd) (env : Env)
  : Env * list ProcEvent * option JobObject * option werror :=
  match Create range_order EmptyString limits env with
  | (env1, Err e) => (env1, [], None, Some (WErr e))
  | (env1, Ok job) =>
      let '(_, evs, r) := StartInJobObject os cmd job in
      match r with
      | None => (env1, evs, Some job, None)
      | Some e => let '((_, env2), _) := Close_job (job, env1) in (env2, evs, None, Some e)
      end
  end.

(** The test of [ResumeProcess]'s loop on one entry. *)
Definition thread_matches (pid : Z) (e : ThreadEntry32) : bool :=
  (OwnerProcessID e =? pid) && negb (ThreadID e =? 0).

(** The same OS with other snapshot entries. *)
Definition set_snapshot_entries (es : list ThreadEntry32) (os : ProcOS) : ProcOS :=
  {| cmd_start := cmd_start os; OpenProcess_os := OpenProcess_os os;
     AssignProcessToJobObject_fail := AssignProcessToJobObject_fail os;
     IsProcessInJob_os := IsProcessInJob_os os;
     CreateToolhelp32Snapshot_os := CreateToolhelp32Snapshot_os os;
     snapshot_entries := es; snapshot_end := snapshot_end os;
     OpenThread_os := OpenThread_os os; ResumeThread_fail := ResumeThread_fail os |}.

(** An OS whose every call succeeds, with a snapshot of three threads. *)
Definition sample_proc_os : ProcOS :=
  {| cmd_start := fun _ => Ok 100; OpenProcess_os := fun _ _ => Ok 11;
     AssignProcessToJobObject_fail := fun _ _ => None;
     IsProcessInJob_os := fun _ _ => (true, None);
     CreateToolhelp32Snapshot_os := fun _ _ => Ok 12;
     snapshot_entries := [{| OwnerProcessID := 100; ThreadID := 1 |};
                          {| OwnerProcessID := 4; ThreadID := 2 |};
                          {| OwnerProcessID := 100; ThreadID := 3 |}];
     snapshot_end := Errno ERROR_NO_MORE_FILES;
     OpenThread_os := fun _ tid => Ok (1000 + tid); ResumeThread_fail := fun _ => None |}.

(* ================================================================== *)
(** * Proofs *)

(** Shared rewriting facts. *)
Lemma log_os_fail ev env : os_fail (log ev env) = os_fail env.
Proof. reflexivity. Qed.
Lemma set_os_info_os_fail i env : os_fail (set_os_info i env) = os_fail env.
Proof. reflexivity. Qed.

(** ** C2 *)

(** C2 (code_bug): on an accounting block whose fourteen fields are all
    different, [QueryCounters] fills [TotalKernelTime],
    [ThisPeriodTotalUserTime] and [ThisPeriodTotalKernelTime] from
    [TotalUserTime], and [OtherTransferCount] from [OtherOperationCount]. *)
Lemma QueryCounters_copies_wrong_fields :
  match QueryCounters zero_counters (sample_job, sample_env no_failure) with
  | ((_, env'), Ok c) =>
      trace env' = [EvInfo QueryInfo JobObjectBasicAndIoAccountingInformation] /\
      TotalUserTime (AcctBasic sample_acct) = 1 /\
      TotalKernelTime (AcctBasic sample_acct) = 2 /\ Counters.TotalKernelTime c = 1 /\
      ThisPeriodTotalUserTime (AcctBasic sample_acct) = 3 /\ Counters.ThisPeriodTotalUserTime c = 1 /\
      ThisPeriodTotalKernelTime (AcctBasic sample_acct) = 4 /\
      Counters.ThisPeriodTotalKernelTime c = 1 /\
      OtherOperationCount (AcctIo sample_acct) = 11 /\
      OtherTransferCount (AcctIo sample_acct) = 14 /\ Counters.OtherTransferCount c = 11
  | _ => False
  end.
Proof. vm_compute. repeat split. Qed.

(** ** C5: CPU rate *)

(** Little-endian packing of two 16-bit values into the 32-bit slot. *)
Lemma byte_split x : 0 <= x < 65536 -> x mod 256 + 256 * ((x / 256) mod 256) = x.
Proof.
  intros Hx.
  assert (0 <= x / 256 < 256) by (split; [apply Z.div_pos | apply Z.div_lt_upper_bound]; lia).
  rewrite (Z.mod_small (x / 256) 256) by lia.
  pose proof (Z.div_mod x 256). lia.
Qed.
Lemma pack a b : 0 <= a < 65536 -> 0 <= b < 65536 ->
  le_Uint32 (le_put_uint16 a ++ le_put_uint16 b) = a + 65536 * b.
Proof.
  intros Ha Hb. unfold le_put_uint16, le_Uint32. cbn [app].
  pose proof (byte_split a Ha). pose proof (byte_split b Hb). lia.
Qed.
Lemma unpack_lo a b : 0 <= a < 65536 -> 0 <= b < 65536 ->
  le_Uint16 (firstn 2 (le_put_uint32 (a + 65536 * b))) = a.
Proof.
  intros Ha Hb. unfold le_put_uint32, le_Uint16. cbn [firstn].
  replace (a + 65536 * b) with (a + (256 * b) * 256) by lia.
  rewrite Z.mod_add, Z.div_add by lia.
  replace (a / 256 + 256 * b) with (a / 256 + b * 256) by lia.
  rewrite Z.mod_add by lia. apply byte_split; lia.
Qed.
Lemma unpack_hi a b : 0 <= a < 65536 -> 0 <= b < 65536 ->
  le_Uint16 (skipn 2 (le_put_uint32 (a + 65536 * b))) = b.
Proof.
  intros Ha Hb. unfold le_put_uint32, le_Uint16. cbn [skipn].
  set (v := a + 65536 * b).
  assert (Hq : v / 65536 = b).
  { unfold v. replace (a + 65536 * b) with (a + b * 65536) by lia. rewrite Z.div_add by lia.
    rewrite (Z.div_small a 65536) by lia. lia. }
  replace (v / 16777216) with ((v / 65536) / 256)
    by (rewrite Z.div_div by lia; reflexivity).
  rewrite Hq. apply byte_split. lia.
Qed.

Ltac cpu_simpl :=
  unfold limit_set, cpu_set, cpu_LimitValue, cpu_submode_count, WithCPUHardCapLimit,
    WithCPUWeightedLimit, WithCPUMinMaxLimit; cbn [HardCap Weight Max Min CPURateControl
    set_CPURateControl ControlFlags Value].

(** C5 (counterexample): a hard-cap limit of value 0, applied after a weight
    limit of 7, leaves no sub-mode flag at all: the flags become
    ENABLE|NOTIFY, the shared slot keeps the weight 7, and decoding yields
    the zero [CPURate]. *)
Lemma cpu_zero_value_sets_no_submode :
  let i' := limit_set (WithCPUHardCapLimit 0) (limit_set (WithCPUWeightedLimit 7) zero_JobInfo) in
  cpu_submode_count (ControlFlags (CPURateControl i')) = 0 /\
  ControlFlags (CPURateControl i') = 9 /\ Value (CPURateControl i') = 7 /\
  cpu_LimitValue i' = zero_CPURate.
Proof. vm_compute. repeat split. Qed.

(** C5 (amended): for every prior block, [WithCPUHardCapLimit v] and
    [WithCPUWeightedLimit v] with [v > 0], and [WithCPUMinMaxLimit min max]
    with [max > 0], overwrite the control flags with exactly one sub-mode
    bit plus ENABLE and NOTIFY, and decoding returns only that sub-mode's
    value ([HardCap v], [Weight v], or the pair [(min, max)] unpacked from
    the 32-bit slot). With a zero value (or [max = 0]) no sub-mode bit is
    set: the flags are ENABLE|NOTIFY, the value slot is unchanged and
    decoding returns the zero [CPURate]. *)
Theorem cpu_limit_last_submode_wins (i : JobInfo) (v mn mx : Z)
  (Hv : 0 <= v < 4294967296) (Hmn : 0 <= mn < 65536) (Hmx : 0 <= mx < 65536) :
  (let i' := limit_set (WithCPUHardCapLimit v) i in
   if 0 <? v then
     ControlFlags (CPURateControl i') = 13 /\ cpu_submode_count (ControlFlags (CPURateControl i')) = 1 /\
     cpu_LimitValue i' = {| Min := 0; Max := 0; Weight := 0; HardCap := v |}
   else
     ControlFlags (CPURateControl i') = 9 /\ cpu_submode_count (ControlFlags (CPURateControl i')) = 0 /\
     Value (CPURateControl i') = Value (CPURateControl i) /\ cpu_LimitValue i' = zero_CPURate) /\
  (let i' := limit_set (WithCPUWeightedLimit v) i in
   if 0 <? v then
     ControlFlags (CPURateControl i') = 11 /\ cpu_submode_count (ControlFlags (CPURateControl i')) = 1 /\
     cpu_LimitValue i' = {| Min := 0; Max := 0; Weight := v; HardCap := 0 |}
   else
     ControlFlags (CPURateControl i') = 9 /\ cpu_submode_count (ControlFlags (CPURateControl i')) = 0 /\
     Value (CPURateControl i') = Value (CPURateControl i) /\ cpu_LimitValue i' = zero_CPURate) /\
  (let i' := limit_set (WithCPUMinMaxLimit mn mx) i in
   if 0 <? mx then
     ControlFlags (CPURateControl i') = 25 /\ cpu_submode_count (ControlFlags (CPURateControl i')) = 1 /\
     cpu_LimitValue i' = {| Min := mn; Max := mx; Weight := 0; HardCap := 0 |}
   else
     ControlFlags (CPURateControl i') = 9 /\ cpu_submode_count (ControlFlags (CPURateControl i')) = 0 /\
     Value (CPURateControl i') = Value (CPURateControl i) /\ cpu_LimitValue i' = zero_CPURate).
Proof.
  cpu_simpl. cbn zeta.
  destruct (0 <? v) eqn:Ev; destruct (0 <? mx) eqn:Emx;
    cbn -[le_Uint32 le_Uint16 le_put_uint16 le_put_uint32 firstn skipn]; repeat split.
  all: rewrite pack by lia; rewrite unpack_lo, unpack_hi by lia; reflexivity.
Qed.

(** ** The query / write-back plumbing *)

Lemma infoPtr_copy_block c c' src dst :
  infoPtr c (copy_block c' src dst) = if class_eqb c c' then infoPtr c src else infoPtr c dst.
Proof. destruct c, c'; reflexivity. Qed.

Lemma infoPtr_copy_blocks c cs : forall src dst,
  infoPtr c (copy_blocks cs src dst) =
  if existsb (class_eqb c) cs then infoPtr c src else infoPtr c dst.
Proof.
  induction cs as [|c' cs IH]; intros src dst; [reflexivity|].
  unfold copy_blocks in *; cbn [fold_left existsb]. rewrite IH, infoPtr_copy_block.
  destruct (class_eqb c c'), (existsb (class_eqb c) cs); reflexivity.
Qed.

Lemma class_eqb_true a b : class_eqb a b = true <-> a = b.
Proof. unfold class_eqb. destruct (class_eq_dec a b); split; congruence. Qed.

Lemma existsb_class_In c cs : existsb (class_eqb c) cs = true <-> In c cs.
Proof.
  rewrite existsb_exists. split.
  - intros [x [Hx Heq]]. apply class_eqb_true in Heq. subst. exact Hx.
  - intros H. exists c. split; [exact H | apply class_eqb_true; reflexivity].
Qed.

(** What a successful [sync] did, and that its success needs every call
    to succeed. *)
Lemma sync_spec fn cs : forall job env,
  (forall c, In c cs -> os_fail env (ReqInfo fn c) = None) ->
  exists env',
    sync fn cs (job, env) =
      ((match fn with
        | QueryInfo => set_Info (copy_blocks cs (os_info env) (Info job)) job
        | SetInfo => job end, env'), Ok tt) /\
    trace env' = trace env ++ map (EvInfo fn) cs /\ os_fail env' = os_fail env /\
    os_info env' = match fn with
                   | QueryInfo => os_info env
                   | SetInfo => copy_blocks cs (Info job) (os_info env) end.
Proof.
  induction cs as [|c cs IH]; intros job env Hok.
  - exists env. destruct fn; destruct job; simpl; rewrite app_nil_r; auto.
  - assert (Hc : os_fail env (ReqInfo fn c) = None) by (apply Hok; left; reflexivity).
    cbn [sync]. unfold bind at 1, info_call. rewrite Hc.
    destruct fn.
    + destruct (IH (set_Info (copy_block c (os_info env) (Info job)) job)
                   (log (EvInfo QueryInfo c) env)) as [env' [Hrun [Htr [Hf Hi]]]].
      { intros c' Hin. apply Hok. right. exact Hin. }
      exists env'. rewrite Hrun. simpl in *. rewrite Htr, Hi, <- app_assoc. repeat split; auto.
    + destruct (IH job (set_os_info (copy_block c (Info job) (os_info env))
                          (log (EvInfo SetInfo c) env))) as [env' [Hrun [Htr [Hf Hi]]]].
      { intros c' Hin. apply Hok. right. exact Hin. }
      exists env'. rewrite Hrun. simpl in *. rewrite Htr, Hi, <- app_assoc. repeat split; auto.
Qed.

Lemma sync_ok_inv fn cs : forall job env s',
  sync fn cs (job, env) = (s', Ok tt) ->
  forall c, In c cs -> os_fail env (ReqInfo fn c) = None.
Proof.
  induction cs as [|c cs IH]; intros job env s' Hrun c' Hin; [destruct Hin|].
  cbn [sync] in Hrun. unfold bind at 1, info_call in Hrun.
  destruct (os_fail env (ReqInfo fn c)) eqn:Hc; [discriminate|].
  destruct Hin as [<-|Hin]; [exact Hc|].
  destruct fn; eapply IH in Hrun; eauto.
Qed.

(** A failing [sync] stops at the call that failed. *)
Lemma sync_err fn cs : forall job env job' env' e,
  sync fn cs (job, env) = ((job', env'), Err e) ->
  exists pre c, trace env' = trace env ++ pre ++ [EvInfo fn c] /\
                os_fail env (ReqInfo fn c) = Some e /\ os_fail env' = os_fail env.
Proof.
  induction cs as [|c cs IH]; intros job env job' env' e Hrun; [discriminate|].
  cbn [sync] in Hrun. unfold bind at 1, info_call in Hrun.
  destruct (os_fail env (ReqInfo fn c)) eqn:Hc.
  - inversion Hrun; subst. exists [], c. simpl. auto.
  - destruct fn.
    + apply IH in Hrun as [pre [c' [Htr [Hf Hf']]]].
      exists (EvInfo QueryInfo c :: pre), c'. simpl in *. rewrite Htr, <- app_assoc. auto.
    + apply IH in Hrun as [pre [c' [Htr [Hf Hf']]]].
      exists (EvInfo SetInfo c :: pre), c'. simpl in *. rewrite Htr, <- app_assoc. auto.
Qed.

(** ** C6: ResetLimits *)

Lemma Info_set_Info i job : Info (set_Info i job) = i.
Proof. reflexivity. Qed.

Lemma limitInfoClassesSet_infoPtr i1 i2 :
  (forall c, In c limit_classes -> infoPtr c i1 = infoPtr c i2) ->
  limitInfoClassesSet i1 = limitInfoClassesSet i2.
Proof.
  intros H.
  pose proof (H JobObjectExtendedLimitInformation ltac:(simpl; tauto)) as H1.
  pose proof (H JobObjectBasicUIRestrictions ltac:(simpl; tauto)) as H2.
  pose proof (H JobObjectCpuRateControlInformation ltac:(simpl; tauto)) as H3.
  pose proof (H JobObjectNetRateControlInformation ltac:(simpl; tauto)) as H4.
  simpl in H1, H2, H3, H4. injection H1 as H1. injection H2 as H2.
  injection H3 as H3. injection H4 as H4.
  unfold limitInfoClassesSet. rewrite H1, H2, H3, H4. reflexivity.
Qed.

Lemma limitInfoClassesSet_after_query src dst :
  limitInfoClassesSet (copy_blocks limit_classes src dst) = limitInfoClassesSet src.
Proof.
  apply limitInfoClassesSet_infoPtr. intros c Hc.
  rewrite infoPtr_copy_blocks. apply existsb_class_In in Hc. rewrite Hc. reflexivity.
Qed.

(** Zeroing exactly the non-empty limit blocks leaves no limit block
    non-empty. *)
Lemma limitInfoClassesSet_after_reset o :
  limitInfoClassesSet (copy_blocks (limitInfoClassesSet o) zero_JobInfo o) = [].
Proof.
  unfold limitInfoClassesSet at 2.
  destruct (0 <? LimitFlags (BasicLimitInformation (ExtendedLimits o))) eqn:E1;
  destruct (0 <? UIRestrictionsClass (UIRestrictions o)) eqn:E2;
  destruct (0 <? ControlFlags (CPURateControl o)) eqn:E3;
  destruct (0 <? NetControlFlags (NetRateControl o)) eqn:E4;
  unfold limitInfoClassesSet; simpl; rewrite ?E1, ?E2, ?E3, ?E4; reflexivity.
Qed.

Lemma ResetLimits_run job env :
  (forall c, In c limit_classes -> os_fail env (ReqInfo QueryInfo c) = None) ->
  (forall c, In c (limitInfoClassesSet (os_info env)) -> os_fail env (ReqInfo SetInfo c) = None) ->
  exists env',
    ResetLimits (job, env) =
      ((set_Info zero_JobInfo (set_Info (copy_blocks limit_classes (os_info env) (Info job)) job),
        env'), Ok tt) /\
    trace env' = trace env ++ map (EvInfo QueryInfo) limit_classes
                           ++ map (EvInfo SetInfo) (limitInfoClassesSet (os_info env)) /\
    os_fail env' = os_fail env /\
    os_info env' = copy_blocks (limitInfoClassesSet (os_info env)) zero_JobInfo (os_info env).
Proof.
  intros Hq Hs.
  destruct (sync_spec QueryInfo limit_classes job env Hq) as [env1 [Hrun1 [Htr1 [Hf1 Hi1]]]].
  unfold ResetLimits, QueryLimits, bind at 1. fold limit_classes. rewrite Hrun1.
  cbn beta iota. unfold bind. cbn [Info set_Info].
  rewrite limitInfoClassesSet_after_query.
  destruct (sync_spec SetInfo (limitInfoClassesSet (os_info env))
              (set_Info zero_JobInfo (set_Info (copy_blocks limit_classes (os_info env) (Info job)) job))
              env1) as [env2 [Hrun2 [Htr2 [Hf2 Hi2]]]].
  { intros c Hc. rewrite Hf1. apply Hs. exact Hc. }
  exists env2. rewrite Hrun2. split; [reflexivity|].
  rewrite Htr2, Htr1, <- app_assoc, Hf2, Hf1, Hi2, Hi1. auto.
Qed.

(** The shape of a [ResetLimits] run once [QueryLimits] succeeded. *)
Lemma ResetLimits_after_query job env s' r :
  ResetLimits (job, env) = (s', r) ->
  (exists e, r = Err e /\ sync QueryInfo limit_classes (job, env) = (s', Err e)) \/
  ((forall c, In c limit_classes -> os_fail env (ReqInfo QueryInfo c) = None) /\
   exists env1,
     trace env1 = trace env ++ map (EvInfo QueryInfo) limit_classes /\
     os_fail env1 = os_fail env /\
     sync SetInfo (limitInfoClassesSet (os_info env))
       (set_Info zero_JobInfo (set_Info (copy_blocks limit_classes (os_info env) (Info job)) job), env1)
     = (s', r)).
Proof.
  intros Hrun. unfold ResetLimits, QueryLimits, bind at 1 in Hrun. fold limit_classes in Hrun.
  destruct (sync QueryInfo limit_classes (job, env)) as [[j1 e1] r1] eqn:HQ.
  destruct r1 as [[]|e].
  - right. pose proof (sync_ok_inv _ _ _ _ _ HQ) as Hq. split; [exact Hq|].
    destruct (sync_spec QueryInfo limit_classes job env Hq) as [env1 [Hrun1 [Htr1 [Hf1 Hi1]]]].
    assert (Hj : j1 = set_Info (copy_blocks limit_classes (os_info env) (Info job)) job /\ e1 = env1)
      by (rewrite Hrun1 in HQ; inversion HQ; auto).
    destruct Hj as [-> ->].
    exists env1. split; [exact Htr1|]. split; [exact Hf1|].
    unfold bind in Hrun. cbv beta iota in Hrun. rewrite Info_set_Info in Hrun.
    rewrite limitInfoClassesSet_after_query in Hrun. exact Hrun.
  - left. exists e. inversion Hrun; subst. auto.
Qed.

(** C6 (amended): when every OS call succeeds, [ResetLimits] issues the
    four limit-block queries, zeroes the whole cache, then writes back
    exactly the limit blocks whose flag or control word was non-zero in the
    state it read (and those blocks are now zero on the OS side, the others
    untouched); when an OS call fails, the call stops at that call and
    returns its error; and after a successful [ResetLimits], [HasLimits]
    reports false. *)
Theorem ResetLimits_writes_back_nonempty_blocks (job : JobObject) (env : Env) :
  ((forall r, os_fail env r = None) ->
   exists job' env',
     ResetLimits (job, env) = ((job', env'), Ok tt) /\
     trace env' = trace env ++ map (EvInfo QueryInfo) limit_classes
                            ++ map (EvInfo SetInfo) (limitInfoClassesSet (os_info env)) /\
     Info job' = zero_JobInfo /\
     (forall c, infoPtr c (os_info env') =
                if existsb (class_eqb c) (limitInfoClassesSet (os_info env))
                then infoPtr c zero_JobInfo else infoPtr c (os_info env))) /\
  (forall job' env' e, ResetLimits (job, env) = ((job', env'), Err e) ->
     exists pre fn c, trace env' = trace env ++ pre ++ [EvInfo fn c] /\
                      os_fail env (ReqInfo fn c) = Some e) /\
  (forall job' env', ResetLimits (job, env) = ((job', env'), Ok tt) ->
     snd (HasLimits (job', env')) = Ok false).
Proof.
  split; [|split].
  - intros Hnf.
    destruct (ResetLimits_run job env (fun c _ => Hnf _) (fun c _ => Hnf _))
      as [env' [Hrun [Htr [Hf Hi]]]].
    eexists _, env'. split; [exact Hrun|]. split; [exact Htr|]. split; [reflexivity|].
    intros c. rewrite Hi, infoPtr_copy_blocks. reflexivity.
  - intros job' env' e Hrun.
    destruct (ResetLimits_after_query _ _ _ _ Hrun) as [[e' [He HQ]]|[Hq [env1 [Htr1 [Hf1 HS]]]]].
    + injection He as <-. destruct (sync_err _ _ _ _ _ _ _ HQ) as [pre [c [Htr [Hc _]]]].
      exists pre, QueryInfo, c. auto.
    + destruct (sync_err _ _ _ _ _ _ _ HS) as [pre [c [Htr [Hc _]]]].
      exists (map (EvInfo QueryInfo) limit_classes ++ pre), SetInfo, c.
      rewrite Htr, Htr1, !app_assoc. rewrite Hf1 in Hc. auto.
  - intros job' env' Hrun.
    destruct (ResetLimits_after_query _ _ _ _ Hrun) as [[e' [He _]]|[Hq [env1 [Htr1 [Hf1 HS]]]]];
      [discriminate|].
    pose proof (sync_ok_inv _ _ _ _ _ HS) as Hs.
    destruct (ResetLimits_run job env Hq (fun c Hc => eq_trans (eq_sym (f_equal (fun f => f _) Hf1)) (Hs c Hc)))
      as [env2 [Hrun2 [_ [Hf2 Hi2]]]].
    rewrite Hrun in Hrun2.
    assert (Hj : job' = set_Info zero_JobInfo
                   (set_Info (copy_blocks limit_classes (os_info env) (Info job)) job))
      by exact (f_equal (fun p => fst (fst p)) Hrun2).
    assert (He : env' = env2) by exact (f_equal (fun p => snd (fst p)) Hrun2).
    subst job' env'.
    destruct (sync_spec QueryInfo limit_classes
                (set_Info zero_JobInfo
                   (set_Info (copy_blocks limit_classes (os_info env) (Info job)) job)) env2)
      as [env3 [Hrun3 _]].
    { intros c Hc. rewrite Hf2. apply Hq. exact Hc. }
    unfold HasLimits, QueryLimits, bind. fold limit_classes. rewrite Hrun3. cbn [Info set_Info snd].
    rewrite limitInfoClassesSet_after_query, Hi2, limitInfoClassesSet_after_reset. reflexivity.
Qed.

(** C6 (counterexample): the extended-limit and UI blocks are non-empty;
    the query succeeds, the cache is zeroed, and the write-back of the
    extended-limit block fails. The UI block is never written back, the OS
    keeps both limits, and [HasLimits] still reports true. *)
Lemma ResetLimits_stops_at_failed_write_back :
  match ResetLimits (sample_job, limited_env ext_write_fails) with
  | ((job', env'), Err e) =>
      e = Errno 5 /\ Info job' = zero_JobInfo /\
      trace env' = map (EvInfo QueryInfo) limit_classes
                   ++ [EvInfo SetInfo JobObjectExtendedLimitInformation] /\
      limitInfoClassesSet limited_info
        = [JobObjectExtendedLimitInformation; JobObjectBasicUIRestrictions] /\
      IsSet WithBreakawayOK (os_info env') = true /\ IsSet WithDesktopLimit (os_info env') = true /\
      snd (HasLimits (job', env')) = Ok true
  | _ => False
  end.
Proof. vm_compute. repeat split. Qed.

(** Witness of C6: a run on an OS that carries two limits and never fails. *)
Lemma ResetLimits_writes_back_nonempty_blocks_witness :
  (forall r, os_fail (limited_env no_failure) r = None) /\
  exists job' env',
    ResetLimits (sample_job, limited_env no_failure) = ((job', env'), Ok tt) /\
    snd (HasLimits (job', env')) = Ok false.
Proof.
  assert (Hnf : forall r, os_fail (limited_env no_failure) r = None) by reflexivity.
  split; [exact Hnf|].
  destruct (ResetLimits_writes_back_nonempty_blocks sample_job (limited_env no_failure))
    as [H1 [_ H3]].
  destruct (H1 Hnf) as [job' [env' [Hrun _]]].
  exists job', env'. split; [exact Hrun|]. exact (H3 job' env' Hrun).
Defined.

(** Witness of C5: a min/max limit (10, 20) on the zero block. *)
Lemma cpu_limit_last_submode_wins_witness :
  (0 <= 5000 < 4294967296 /\ 0 <= 10 < 65536 /\ 0 <= 20 < 65536) /\
  cpu_LimitValue (limit_set (WithCPUMinMaxLimit 10 20) zero_JobInfo)
    = {| Min := 10; Max := 20; Weight := 0; HardCap := 0 |}.
Proof.
  split; [lia|].
  destruct (cpu_limit_last_submode_wins zero_JobInfo 5000 10 20 ltac:(lia) ltac:(lia) ltac:(lia))
    as [_ [_ H]].
  exact (proj2 (proj2 H)).
Defined.

(** ** C1: applyLimit *)

Lemma apply_loop_run set limits : forall keys job env,
  (forall r, os_fail env r = None) ->
  exists job' env',
    apply_loop set limits keys (job, env) = ((job', env'), Ok (keys_after limits keys)) /\
    trace env' = trace env ++ loop_events limits keys /\ os_fail env' = os_fail env.
Proof.
  induction limits as [|l ls IH]; intros keys job env Hnf.
  - exists job, env. rewrite app_nil_r. auto.
  - cbn [apply_loop loop_events keys_after fold_left]. fold (keys_after ls).
    unfold bind at 1.
    destruct (existsb (class_eqb (resolveRequiredInfoClass l)) keys) eqn:Hk.
    + unfold ret at 1. unfold bind, merge at 1. cbv beta iota.
      destruct (IH (map_insert (resolveRequiredInfoClass l) keys)
                   (set_Info (if set then limit_set l (Info job) else limit_reset l (Info job)) job)
                   (log (EvMerge (resolveRequiredInfoClass l)) env) Hnf)
        as [job' [env' [Hrun [Htr Hf]]]].
      exists job', env'. split; [exact Hrun|].
      rewrite Htr, Hf. simpl. rewrite <- app_assoc. auto.
    + cbn [sync]. unfold bind at 1, info_call. rewrite (Hnf _). cbv beta iota.
      unfold bind, merge at 1. cbv beta iota.
      edestruct (IH (map_insert (resolveRequiredInfoClass l) keys)) as [job' [env' [Hrun [Htr Hf]]]].
      2:{ exists job', env'. split; [exact Hrun|].
          rewrite Htr, Hf. simpl. rewrite <- !app_assoc. auto. }
      exact Hnf.
Qed.

Lemma In_map_insert c c0 keys : In c (map_insert c0 keys) <-> In c keys \/ c = c0.
Proof.
  unfold map_insert. destruct (existsb (class_eqb c0) keys) eqn:E.
  - apply existsb_class_In in E. split; [auto|]. intros [H| ->]; auto.
  - rewrite in_app_iff. simpl. intuition.
Qed.

Lemma not_In_existsb c keys : existsb (class_eqb c) keys = false -> ~ In c keys.
Proof. intros E H. apply existsb_class_In in H. congruence. Qed.

Lemma NoDup_map_insert c0 keys : NoDup keys -> NoDup (map_insert c0 keys).
Proof.
  intros Hd. unfold map_insert. destruct (existsb (class_eqb c0) keys) eqn:E; [exact Hd|].
  apply (Permutation_NoDup (Permutation_cons_append keys c0)).
  constructor; [apply not_In_existsb; exact E | exact Hd].
Qed.

Lemma keys_after_cons l ls keys :
  keys_after (l :: ls) keys = keys_after ls (map_insert (resolveRequiredInfoClass l) keys).
Proof. reflexivity. Qed.

Lemma In_keys_after ls : forall keys c,
  In c (keys_after ls keys) <-> In c keys \/ In c (map resolveRequiredInfoClass ls).
Proof.
  induction ls as [|l ls IH]; intros keys c.
  - simpl. tauto.
  - rewrite keys_after_cons, IH, In_map_insert. simpl. intuition.
Qed.

Lemma NoDup_keys_after ls : forall keys, NoDup keys -> NoDup (keys_after ls keys).
Proof.
  induction ls as [|l ls IH]; intros keys Hd; [exact Hd|].
  rewrite keys_after_cons. apply IH, NoDup_map_insert, Hd.
Qed.

Lemma loop_events_cons l ls keys :
  loop_events (l :: ls) keys =
  (if existsb (class_eqb (resolveRequiredInfoClass l)) keys then []
   else [EvInfo QueryInfo (resolveRequiredInfoClass l)])
    ++ EvMerge (resolveRequiredInfoClass l) :: loop_events ls (map_insert (resolveRequiredInfoClass l) keys).
Proof. reflexivity. Qed.

Lemma loop_events_query_count ls : forall keys c,
  count_occ event_eq_dec (loop_events ls keys) (EvInfo QueryInfo c) =
  (if in_dec class_eq_dec c keys then 0
   else if in_dec class_eq_dec c (map resolveRequiredInfoClass ls) then 1 else 0)%nat.
Proof.
  induction ls as [|l ls IH]; intros keys c.
  - simpl. destruct (in_dec class_eq_dec c keys); reflexivity.
  - rewrite loop_events_cons, count_occ_app, count_occ_cons_neq, IH by discriminate.
    cbn [map]. set (c0 := resolveRequiredInfoClass l).
    destruct (existsb (class_eqb c0) keys) eqn:E.
    + pose proof (proj1 (existsb_class_In c0 keys) E) as Hc0.
      assert (Hm : map_insert c0 keys = keys) by (unfold map_insert; rewrite E; reflexivity).
      rewrite Hm. cbn [count_occ].
      destruct (in_dec class_eq_dec c keys) as [Hk|Hk]; [reflexivity|].
      destruct (in_dec class_eq_dec c (map resolveRequiredInfoClass ls)) as [Hl|Hl];
        destruct (in_dec class_eq_dec c (c0 :: map resolveRequiredInfoClass ls)) as [Hl'|Hl'];
        try reflexivity.
      * exfalso. apply Hl'. right. exact Hl.
      * exfalso. destruct Hl' as [Heq|Hin]; [apply Hk; rewrite <- Heq; exact Hc0|contradiction].
    + pose proof (not_In_existsb _ _ E) as Hc0.
      cbn [count_occ].
      destruct (event_eq_dec (EvInfo QueryInfo c0) (EvInfo QueryInfo c)) as [Heq|Hne].
      * injection Heq as <-.
        destruct (in_dec class_eq_dec c0 keys) as [Hk|Hk]; [contradiction|].
        destruct (in_dec class_eq_dec c0 (map_insert c0 keys)) as [Hk'|Hk'];
          [|exfalso; apply Hk'; apply In_map_insert; auto].
        destruct (in_dec class_eq_dec c0 (c0 :: map resolveRequiredInfoClass ls)) as [_|Hn];
          [reflexivity|exfalso; apply Hn; left; reflexivity].
      * assert (Hcc : c <> c0) by (intros ->; apply Hne; reflexivity).
        destruct (in_dec class_eq_dec c (map_insert c0 keys)) as [Hk'|Hk'];
          destruct (in_dec class_eq_dec c keys) as [Hk|Hk];
          try (apply In_map_insert in Hk'; destruct Hk'; [contradiction|congruence]).
        -- reflexivity.
        -- exfalso. apply Hk'. apply In_map_insert. auto.
        -- destruct (in_dec class_eq_dec c (map resolveRequiredInfoClass ls)) as [Hl|Hl];
           destruct (in_dec class_eq_dec c (c0 :: map resolveRequiredInfoClass ls)) as [Hl'|Hl'];
           try reflexivity.
           ++ exfalso. apply Hl'. right. exact Hl.
           ++ exfalso. destruct Hl' as [Heq|Hin]; [apply Hcc; symmetry; exact Heq|contradiction].
Qed.

Lemma loop_events_no_setinfo ls : forall keys, filter is_setinfo (loop_events ls keys) = [].
Proof.
  induction ls as [|l ls IH]; intros keys; [reflexivity|].
  rewrite loop_events_cons, filter_app.
  destruct (existsb (class_eqb (resolveRequiredInfoClass l)) keys); cbn; apply IH.
Qed.

Lemma loop_events_merges ls : forall keys,
  filter is_merge (loop_events ls keys) = map (fun l => EvMerge (resolveRequiredInfoClass l)) ls.
Proof.
  induction ls as [|l ls IH]; intros keys; [reflexivity|].
  rewrite loop_events_cons, filter_app.
  destruct (existsb (class_eqb (resolveRequiredInfoClass l)) keys); cbn; rewrite IH; reflexivity.
Qed.

Lemma loop_events_query_length ls : forall keys,
  (List.length (filter is_query (loop_events ls keys)) + List.length keys
   = List.length (keys_after ls keys))%nat.
Proof.
  induction ls as [|l ls IH]; intros keys; [reflexivity|].
  rewrite loop_events_cons, filter_app, keys_after_cons, <- IH.
  unfold map_insert.
  destruct (existsb (class_eqb (resolveRequiredInfoClass l)) keys); cbn.
  - reflexivity.
  - rewrite length_app. cbn. lia.
Qed.

Lemma loop_events_first_merge ls : forall keys c,
  In c (map resolveRequiredInfoClass ls) -> ~ In c keys ->
  exists a b, loop_events ls keys = a ++ EvMerge c :: b /\
              ~ In (EvMerge c) a /\ In (EvInfo QueryInfo c) a.
Proof.
  induction ls as [|l ls IH]; intros keys c Hin Hk; [destruct Hin|].
  rewrite loop_events_cons. cbn [map] in Hin.
  destruct (class_eq_dec (resolveRequiredInfoClass l) c) as [Heq|Hne].
  - rewrite Heq.
    destruct (existsb (class_eqb c) keys) eqn:E; [apply existsb_class_In in E; contradiction|].
    exists [EvInfo QueryInfo c], (loop_events ls (map_insert c keys)).
    split; [reflexivity|]. split; [|left; reflexivity].
    intros [H|[]]. discriminate.
  - destruct Hin as [Heq|Hin]; [contradiction|].
    destruct (IH (map_insert (resolveRequiredInfoClass l) keys) c Hin) as [a [b [Ha [Hna Hqa]]]].
    { rewrite In_map_insert. intros [H|H]; [contradiction|]. apply Hne. symmetry. exact H. }
    exists ((if existsb (class_eqb (resolveRequiredInfoClass l)) keys then []
             else [EvInfo QueryInfo (resolveRequiredInfoClass l)])
              ++ EvMerge (resolveRequiredInfoClass l) :: a), b.
    rewrite Ha, <- app_assoc. split; [reflexivity|].
    split.
    + rewrite in_app_iff. intros [H|[H|H]]; [|congruence|contradiction].
      destruct (existsb (class_eqb (resolveRequiredInfoClass l)) keys);
        [destruct H|destruct H as [H|[]]; discriminate].
    + rewrite in_app_iff. right. right. exact Hqa.
Qed.

Lemma apply_loop_err set ls : forall keys job env job' env' e,
  apply_loop set ls keys (job, env) = ((job', env'), Err e) ->
  exists pre c, trace env' = trace env ++ pre ++ [EvInfo QueryInfo c] /\
                os_fail env (ReqInfo QueryInfo c) = Some e.
Proof.
  induction ls as [|l ls IH]; intros keys job env job' env' e Hrun; [discriminate|].
  cbn [apply_loop] in Hrun. unfold bind at 1 in Hrun.
  destruct (existsb (class_eqb (resolveRequiredInfoClass l)) keys).
  - unfold ret at 1 in Hrun. unfold bind, merge at 1 in Hrun. cbv beta iota in Hrun.
    apply IH in Hrun as [pre [c [Htr Hc]]].
    exists (EvMerge (resolveRequiredInfoClass l) :: pre), c.
    rewrite Htr. cbn. rewrite <- app_assoc. auto.
  - cbn [sync] in Hrun. unfold bind at 1, info_call in Hrun.
    destruct (os_fail env (ReqInfo QueryInfo (resolveRequiredInfoClass l))) eqn:Hc.
    + inversion Hrun; subst. exists [], (resolveRequiredInfoClass l). auto.
    + unfold bind, merge at 1 in Hrun. cbv beta iota in Hrun.
      apply IH in Hrun as [pre [c [Htr Hc']]].
      exists (EvInfo QueryInfo (resolveRequiredInfoClass l) :: EvMerge (resolveRequiredInfoClass l) :: pre), c.
      rewrite Htr. cbn. rewrite <- !app_assoc. auto.
Qed.

Lemma count_occ_map_setinfo cs c :
  count_occ event_eq_dec (map (EvInfo SetInfo) cs) (EvInfo SetInfo c) = count_occ class_eq_dec cs c.
Proof.
  symmetry. apply count_occ_map. intros x y H. injection H as H. exact H.
Qed.

Lemma count_occ_map_setinfo_query cs c :
  count_occ event_eq_dec (map (EvInfo SetInfo) cs) (EvInfo QueryInfo c) = 0%nat.
Proof. induction cs as [|c' cs IH]; [reflexivity|]. cbn [map]. rewrite count_occ_cons_neq; [exact IH|discriminate]. Qed.

Lemma count_occ_setinfo_loop ls keys c :
  count_occ event_eq_dec (loop_events ls keys) (EvInfo SetInfo c) = 0%nat.
Proof.
  apply count_occ_not_In. intros H.
  assert (Hf : In (EvInfo SetInfo c) (filter is_setinfo (loop_events ls keys)))
    by (apply filter_In; auto).
  rewrite loop_events_no_setinfo in Hf. destruct Hf.
Qed.

Lemma filter_map_setinfo cs : filter is_setinfo (map (EvInfo SetInfo) cs) = map (EvInfo SetInfo) cs.
Proof. induction cs as [|c cs IH]; [reflexivity|]. cbn. rewrite IH. reflexivity. Qed.

Lemma filter_map_setinfo_query cs : filter is_query (map (EvInfo SetInfo) cs) = [].
Proof. induction cs as [|c cs IH]; [reflexivity|]. exact IH. Qed.

Lemma filter_map_setinfo_merge cs : filter is_merge (map (EvInfo SetInfo) cs) = [].
Proof. induction cs as [|c cs IH]; [reflexivity|]. exact IH. Qed.

Lemma keys_after_nil_length ls :
  List.length (keys_after ls []) = List.length (nodup class_eq_dec (map resolveRequiredInfoClass ls)).
Proof.
  apply Permutation_length, NoDup_Permutation.
  - apply NoDup_keys_after. constructor.
  - apply NoDup_nodup.
  - intros c. rewrite In_keys_after, nodup_In. simpl. tauto.
Qed.

Lemma in_dec_existsb c cs :
  (if in_dec class_eq_dec c cs then 1 else 0)%nat = (if existsb (class_eqb c) cs then 1 else 0)%nat.
Proof.
  destruct (in_dec class_eq_dec c cs) as [H|H], (existsb (class_eqb c) cs) eqn:E; try reflexivity.
  - apply existsb_class_In in H. congruence.
  - apply existsb_class_In in E. contradiction.
Qed.

Lemma apply_loop_extends set ls : forall keys job env job1 env1 r,
  apply_loop set ls keys (job, env) = ((job1, env1), r) ->
  os_fail env1 = os_fail env /\ exists pre, trace env1 = trace env ++ pre.
Proof.
  induction ls as [|l ls IH]; intros keys job env job1 env1 r Hrun.
  - injection Hrun as _ <- _. split; [reflexivity|]. exists []. rewrite app_nil_r. reflexivity.
  - cbn [apply_loop] in Hrun. unfold bind at 1 in Hrun.
    destruct (existsb (class_eqb (resolveRequiredInfoClass l)) keys).
    + unfold ret at 1 in Hrun. unfold bind, merge at 1 in Hrun. cbv beta iota in Hrun.
      apply IH in Hrun as [Hf [pre Htr]]. split; [exact Hf|].
      exists (EvMerge (resolveRequiredInfoClass l) :: pre). rewrite Htr. cbn. rewrite <- app_assoc. auto.
    + cbn [sync] in Hrun. unfold bind at 1, info_call in Hrun.
      destruct (os_fail env (ReqInfo QueryInfo (resolveRequiredInfoClass l))) eqn:Hc.
      * inversion Hrun; subst. split; [reflexivity|]. eexists. reflexivity.
      * unfold bind, merge at 1 in Hrun. cbv beta iota in Hrun.
        apply IH in Hrun as [Hf [pre Htr]]. split; [exact Hf|].
        exists (EvInfo QueryInfo (resolveRequiredInfoClass l) :: EvMerge (resolveRequiredInfoClass l) :: pre).
        rewrite Htr. cbn. rewrite <- !app_assoc. auto.
Qed.

(** C1 (amended): [SetLimit] and [ResetLimit] are [applyLimit] with
    [set = true] and [set = false]; Go ranges over the key set in some
    order, any permutation of it. When every OS call succeeds, the call
    returns success and its events [t] hold, for every block, exactly one
    query and one write-back if some limit targets the block and none
    otherwise (so [M] of each in total, [M] the number of distinct target
    blocks), one merge per limit in the order of the limits, the first merge
    into each block preceded by its query, and all write-backs after all
    merges; zero limits log nothing. When an OS call fails, the call stops
    right after that call and returns its error, so the remaining queries or
    write-backs are not issued. *)
Theorem applyLimit_one_query_one_write_back_per_block
  (range_order : list JobObjectInformationClass -> list JobObjectInformationClass)
  (Hro : forall ks, Permutation (range_order ks) ks)
  (set : bool) (limits : list Limit) (job : JobObject) (env : Env) :
  ((forall r, os_fail env r = None) ->
   exists job' env' t,
     applyLimit range_order set limits (job, env) = ((job', env'), Ok tt) /\
     trace env' = trace env ++ t /\
     (forall c,
        count_occ event_eq_dec t (EvInfo QueryInfo c) =
          (if existsb (class_eqb c) (map resolveRequiredInfoClass limits) then 1 else 0)%nat /\
        count_occ event_eq_dec t (EvInfo SetInfo c) =
          (if existsb (class_eqb c) (map resolveRequiredInfoClass limits) then 1 else 0)%nat) /\
     List.length (filter is_query t)
       = List.length (nodup class_eq_dec (map resolveRequiredInfoClass limits)) /\
     List.length (filter is_setinfo t)
       = List.length (nodup class_eq_dec (map resolveRequiredInfoClass limits)) /\
     filter is_merge t = map (fun l => EvMerge (resolveRequiredInfoClass l)) limits /\
     (forall c, In c (map resolveRequiredInfoClass limits) ->
        exists a b, t = a ++ EvMerge c :: b /\ ~ In (EvMerge c) a /\ In (EvInfo QueryInfo c) a) /\
     (exists pre post, t = pre ++ post /\
        forallb (fun e => negb (is_setinfo e)) pre = true /\ forallb is_setinfo post = true) /\
     (limits = [] -> t = [])) /\
  (forall job' env' e,
     applyLimit range_order set limits (job, env) = ((job', env'), Err e) ->
     exists pre fn c, trace env' = trace env ++ pre ++ [EvInfo fn c] /\
                      os_fail env (ReqInfo fn c) = Some e).
Proof.
  split.
  - intros Hnf.
    destruct (apply_loop_run set limits [] job env Hnf) as [job1 [env1 [Hrun1 [Htr1 Hf1]]]].
    set (K := keys_after limits []).
    destruct (sync_spec SetInfo (range_order K) job1 env1) as [env2 [Hrun2 [Htr2 _]]].
    { intros c _. rewrite Hf1. apply Hnf. }
    set (L := loop_events limits []).
    exists job1, env2, (L ++ map (EvInfo SetInfo) (range_order K)).
    split.
    { unfold applyLimit, bind. rewrite Hrun1. exact Hrun2. }
    split; [rewrite Htr2, Htr1, app_assoc; reflexivity|].
    split.
    { intros c. unfold L. rewrite !count_occ_app, count_occ_map_setinfo_query, count_occ_setinfo_loop,
        count_occ_map_setinfo.
      rewrite loop_events_query_count. cbn [in_dec]. rewrite Nat.add_0_r, in_dec_existsb.
      split; [reflexivity|].
      rewrite Nat.add_0_l, (proj1 (Permutation_count_occ class_eq_dec _ _) (Hro K) c).
      rewrite <- in_dec_existsb.
      destruct (in_dec class_eq_dec c (map resolveRequiredInfoClass limits)) as [Hin|Hin].
      - apply (NoDup_count_occ' class_eq_dec K).
        + apply NoDup_keys_after. constructor.
        + unfold K. apply In_keys_after. auto.
      - apply count_occ_not_In. unfold K. rewrite In_keys_after. simpl. tauto. }
    split.
    { unfold L, K. rewrite filter_app, filter_map_setinfo_query, app_nil_r, <- keys_after_nil_length.
      pose proof (loop_events_query_length limits []) as H. cbn [List.length] in H. lia. }
    split.
    { unfold L, K. rewrite filter_app, loop_events_no_setinfo, filter_map_setinfo, app_nil_l, length_map.
      rewrite (Permutation_length (Hro _)). apply keys_after_nil_length. }
    split.
    { unfold L, K. rewrite filter_app, loop_events_merges, filter_map_setinfo_merge, app_nil_r. reflexivity. }
    split.
    { intros c Hc. destruct (loop_events_first_merge limits [] c Hc (fun H => H))
        as [a [b [Ha [Hna Hqa]]]].
      exists a, (b ++ map (EvInfo SetInfo) (range_order K)).
      unfold L. rewrite Ha, <- app_assoc. auto. }
    split.
    { exists L, (map (EvInfo SetInfo) (range_order K)). split; [reflexivity|]. split.
      - apply forallb_forall. intros e He. destruct (is_setinfo e) eqn:Es; [|reflexivity].
        assert (Hf : In e (filter is_setinfo L)) by (apply filter_In; auto).
        unfold L in Hf. rewrite loop_events_no_setinfo in Hf. destruct Hf.
      - apply forallb_forall. intros e He. apply in_map_iff in He as [c [<- _]]. reflexivity. }
    intros ->. unfold L, K. cbn.
    rewrite (Permutation_nil (Permutation_sym (Hro []))). reflexivity.
  - intros job' env' e Hrun. unfold applyLimit, bind in Hrun.
    destruct (apply_loop set limits [] (job, env)) as [[job1 env1] [ks|e1]] eqn:H1.
    + destruct (sync_err _ _ _ _ _ _ _ Hrun) as [pre [c [Htr [Hc _]]]].
      destruct (apply_loop_extends _ _ _ _ _ _ _ _ H1) as [Hf1 [pre1 Htr1]].
      exists (pre1 ++ pre), SetInfo, c. rewrite Htr, Htr1, <- !app_assoc. rewrite Hf1 in Hc. auto.
    + injection Hrun as -> -> ->.
      destruct (apply_loop_err _ _ _ _ _ _ _ _ H1) as [pre [c [Htr Hc]]].
      exists pre, QueryInfo, c. auto.
Qed.

(** C1 (counterexample): two limits on two blocks, the OS refusing the
    write-back of the extended-limit block. The call returns that error
    after one write-back instead of two: the UI block is never written. *)
Lemma SetLimit_stops_at_failed_write_back :
  match SetLimit (fun ks => ks) [WithBreakawayOK; WithDesktopLimit]
          (sample_job, sample_env ext_write_fails) with
  | ((_, env'), Err e) =>
      e = Errno 5 /\
      trace env' = [EvInfo QueryInfo JobObjectExtendedLimitInformation;
                    EvMerge JobObjectExtendedLimitInformation;
                    EvInfo QueryInfo JobObjectBasicUIRestrictions;
                    EvMerge JobObjectBasicUIRestrictions;
                    EvInfo SetInfo JobObjectExtendedLimitInformation] /\
      count_occ event_eq_dec (trace env') (EvInfo SetInfo JobObjectBasicUIRestrictions) = 0%nat
  | _ => False
  end.
Proof. vm_compute. repeat split. Qed.

(** Witness of C1: the same two limits on an OS that never fails, keys
    ranged over in reverse order. *)
Lemma applyLimit_one_query_one_write_back_per_block_witness :
  (forall ks : list JobObjectInformationClass, Permutation (rev ks) ks) /\
  (forall r, os_fail (sample_env no_failure) r = None) /\
  exists job' env' t,
    applyLimit (@rev _) true [WithBreakawayOK; WithDesktopLimit] (sample_job, sample_env no_failure)
      = ((job', env'), Ok tt) /\
    trace env' = t /\ List.length (filter is_setinfo t) = 2%nat.
Proof.
  assert (Hro : forall ks : list JobObjectInformationClass, Permutation (rev ks) ks)
    by (intros ks; apply Permutation_sym, Permutation_rev).
  assert (Hnf : forall r, os_fail (sample_env no_failure) r = None) by reflexivity.
  split; [exact Hro|]. split; [exact Hnf|].
  destruct (applyLimit_one_query_one_write_back_per_block (@rev _) Hro true
              [WithBreakawayOK; WithDesktopLimit] sample_job (sample_env no_failure)) as [H _].
  destruct (H Hnf) as [job' [env' [t [Hrun [Htr [_ [_ [Hs _]]]]]]]].
  exists job', env', t. split; [exact Hrun|]. split; [exact Htr|]. exact Hs.
Defined.

(** ** C7: Create *)

Lemma bind_keeps_handle {A B} (m : M A) (k : A -> M B) :
  keeps_handle m -> (forall a, keeps_handle (k a)) -> keeps_handle (bind m k).
Proof.
  intros Hm Hk job env job' env' r H. unfold bind in H.
  destruct (m (job, env)) as [[j1 e1] [a|e]] eqn:H1.
  - apply Hk in H. apply Hm in H1. congruence.
  - injection H as <- _ _. exact (Hm _ _ _ _ _ H1).
Qed.

Lemma ret_keeps_handle {A} (a : A) : keeps_handle (ret a).
Proof. intros job env job' env' r H. injection H as <- _ _. reflexivity. Qed.

Lemma info_call_keeps_handle fn c : keeps_handle (info_call fn c).
Proof.
  intros job env job' env' r H. unfold info_call in H.
  destruct (os_fail env (ReqInfo fn c)); [injection H as <- _ _; reflexivity|].
  destruct fn; injection H as <- _ _; reflexivity.
Qed.

Lemma merge_keeps_handle set l : keeps_handle (merge set l).
Proof. intros job env job' env' r H. injection H as <- _ _. reflexivity. Qed.

Lemma sync_keeps_handle fn cs : keeps_handle (sync fn cs).
Proof.
  induction cs as [|c cs IH]; [apply ret_keeps_handle|].
  apply bind_keeps_handle; [apply info_call_keeps_handle|intros; exact IH].
Qed.

Lemma apply_loop_keeps_handle set ls : forall keys, keeps_handle (apply_loop set ls keys).
Proof.
  induction ls as [|l ls IH]; intros keys; [apply ret_keeps_handle|].
  cbn [apply_loop]. apply bind_keeps_handle.
  - destruct (existsb (class_eqb (resolveRequiredInfoClass l)) keys);
      [apply ret_keeps_handle|apply sync_keeps_handle].
  - intros _. apply bind_keeps_handle; [apply merge_keeps_handle|intros _; apply IH].
Qed.

Lemma SetLimit_keeps_handle range_order limits : keeps_handle (SetLimit range_order limits).
Proof.
  apply bind_keeps_handle; [apply apply_loop_keeps_handle|intros; apply sync_keeps_handle].
Qed.

(** C7: with a non-empty list of limits, when the OS refuses to create the
    job, [Create] returns that error having issued only the create call;
    when the job is created and applying the limits fails with [e], [Create]
    closes the new job's handle as its last call and returns [e], whatever
    the outcome of the close. *)
Theorem Create_closes_job_on_limit_failure
  (range_order : list JobObjectInformationClass -> list JobObjectInformationClass)
  (name : string) (limits : list Limit) (env : Env) (Hne : limits <> []) :
  (forall e, os_fail env ReqCreateJobObject = Some e ->
     Create range_order name limits env = (log EvCreateJobObject env, Err e)) /\
  (os_fail env ReqCreateJobObject = None ->
   forall job' env2 e,
     SetLimit range_order limits
       ({| Name := name; Handle := os_handle env; Info := zero_JobInfo |}, log EvCreateJobObject env)
       = ((job', env2), Err e) ->
     Create range_order name limits env = (log (EvCloseJob (os_handle env)) env2, Err e)).
Proof.
  split.
  - intros e He. unfold Create. rewrite He. reflexivity.
  - intros Hc job' env2 e Hset. unfold Create. rewrite Hc.
    destruct limits as [|l ls]; [contradiction|].
    rewrite Hset. apply SetLimit_keeps_handle in Hset. cbn [Handle] in Hset.
    unfold Close_job. rewrite Hset.
    destruct (os_fail env2 ReqCloseJob); reflexivity.
Qed.

(** Witness of C7: one limit, the OS refusing its write-back. *)
Lemma Create_closes_job_on_limit_failure_witness :
  [WithBreakawayOK] <> [] /\
  os_fail (sample_env ext_write_fails) ReqCreateJobObject = None /\
  Create (fun ks => ks) "job"%string [WithBreakawayOK] (sample_env ext_write_fails)
    = (log (EvCloseJob 42)
         (log (EvInfo SetInfo JobObjectExtendedLimitInformation)
            (log (EvMerge JobObjectExtendedLimitInformation)
               (log (EvInfo QueryInfo JobObjectExtendedLimitInformation)
                  (log EvCreateJobObject (sample_env ext_write_fails))))), Err (Errno 5)).
Proof.
  assert (Hne : [WithBreakawayOK] <> []) by discriminate.
  split; [exact Hne|]. split; [reflexivity|].
  destruct (Create_closes_job_on_limit_failure (fun ks => ks) "job"%string [WithBreakawayOK]
              (sample_env ext_write_fails) Hne) as [_ H].
  exact (H eq_refl _ _ _ eq_refl).
Defined.

(** ** C9: single flag limits *)

Lemma bind_ok {A B} (m : M A) (k : A -> M B) s s' a :
  m s = (s', Ok a) -> bind m k s = k a s'.
Proof. intros H. unfold bind. rewrite H. reflexivity. Qed.

(** A one-limit [applyLimit] when no call fails: query the block, merge,
    write the block back. *)
Lemma applyLimit_single range_order (Hro : forall ks, Permutation (range_order ks) ks)
    set L job env :
  (forall r, os_fail env r = None) ->
  exists env',
    applyLimit range_order set [L] (job, env) =
      ((set_Info (if set
                  then limit_set L (copy_block (resolveRequiredInfoClass L) (os_info env) (Info job))
                  else limit_reset L (copy_block (resolveRequiredInfoClass L) (os_info env) (Info job)))
                 job, env'), Ok tt) /\
    os_fail env' = os_fail env /\
    os_info env' =
      copy_block (resolveRequiredInfoClass L)
        (if set
         then limit_set L (copy_block (resolveRequiredInfoClass L) (os_info env) (Info job))
         else limit_reset L (copy_block (resolveRequiredInfoClass L) (os_info env) (Info job)))
        (os_info env).
Proof.
  intros Hnf.
  set (c := resolveRequiredInfoClass L).
  set (merged := if set then limit_set L (copy_block c (os_info env) (Info job))
                 else limit_reset L (copy_block c (os_info env) (Info job))).
  assert (Hk : range_order (map_insert c []) = [c])
    by exact (Permutation_length_1_inv (Permutation_sym (Hro _))).
  destruct (sync_spec QueryInfo [c] job env (fun _ _ => Hnf _)) as [envq [Hq [_ [Hfq Hiq]]]].
  assert (HA : apply_loop set [L] [] (job, env)
               = ((set_Info merged job, log (EvMerge c) envq), Ok (map_insert c []))).
  { cbn [apply_loop existsb]. fold c. rewrite (bind_ok _ _ _ _ _ Hq).
    unfold merged. reflexivity. }
  unfold applyLimit. rewrite (bind_ok _ _ _ _ _ HA), Hk.
  destruct (sync_spec SetInfo [c] (set_Info merged job) (log (EvMerge c) envq)) as [envs [Hs [_ [Hfs His]]]].
  { intros c' _. cbn. rewrite Hfq. apply Hnf. }
  rewrite Hs. exists envs. split; [reflexivity|].
  split; [rewrite Hfs; exact Hfq|]. rewrite His. cbn [os_info log Info set_Info]. rewrite Hiq.
  reflexivity.
Qed.

Lemma single_flag_shape L : In L single_flag_limits ->
  exists k, 0 <= k /\ flag_bit L = 2 ^ k /\
            (L = basicLimit (flag_bit L) \/ L = uiRestriction (flag_bit L)).
Proof.
  intros H. unfold single_flag_limits in H.
  repeat (destruct H as [<-|H]); [..|destruct H].
  all: match goal with |- exists k, _ /\ flag_bit ?l = _ /\ _ => exists (Z.log2 (flag_bit l)) end.
  all: split; [apply Z.log2_nonneg|split; [reflexivity|]].
  all: first [left; reflexivity | right; reflexivity].
Qed.

Section FlagLimit.
Variable L : Limit.
Variable f : Z.
Hypothesis Hshape : L = basicLimit f \/ L = uiRestriction f.

Lemma flag_IsSet i : IsSet L i = (0 <? Z.land (flag_word L i) f).
Proof. destruct Hshape; subst; reflexivity. Qed.

Lemma flag_word_set i : flag_word L (limit_set L i) = Z.lor (flag_word L i) f.
Proof. destruct Hshape; subst; reflexivity. Qed.

Lemma flag_word_reset i : flag_word L (limit_reset L i) = Z.ldiff (flag_word L i) f.
Proof. destruct Hshape; subst; reflexivity. Qed.

Lemma flag_word_copy src dst :
  flag_word L (copy_block (resolveRequiredInfoClass L) src dst) = flag_word L src.
Proof. destruct Hshape; subst; reflexivity. Qed.

Lemma flag_frame_set i : set_flag_word L 0 (limit_set L i) = set_flag_word L 0 i.
Proof. destruct Hshape; subst; reflexivity. Qed.

Lemma flag_frame_reset i : set_flag_word L 0 (limit_reset L i) = set_flag_word L 0 i.
Proof. destruct Hshape; subst; reflexivity. Qed.

End FlagLimit.

Lemma land_lor_self x f : Z.land (Z.lor x f) f = f.
Proof.
  apply Z.bits_inj'. intros n _. rewrite Z.land_spec, Z.lor_spec.
  destruct (Z.testbit f n), (Z.testbit x n); reflexivity.
Qed.

Lemma land_ldiff_self x f : Z.land (Z.ldiff x f) f = 0.
Proof.
  apply Z.bits_inj'. intros n _. rewrite Z.land_spec, Z.ldiff_spec, Z.bits_0.
  destruct (Z.testbit f n), (Z.testbit x n); reflexivity.
Qed.

Lemma copy_blocks_one c src dst : copy_blocks [c] src dst = copy_block c src dst.
Proof. reflexivity. Qed.

(** C9: for each of the fourteen single flag limits (six extended-limit
    flags, eight UI restrictions), every cache and every OS state: when no
    OS call fails, [SetLimit L] followed by a query of L's block gives
    [IsSet L = true], and a following [ResetLimit L] and query give
    [IsSet L = false]. The flag of L is a single bit [2^k] of one flag word;
    set turns that bit on and reset turns it off, and neither changes any
    other bit of the word or anything outside the word. *)
Theorem flag_limit_set_reset_roundtrip
  (range_order : list JobObjectInformationClass -> list JobObjectInformationClass)
  (Hro : forall ks, Permutation (range_order ks) ks)
  (L : Limit) (HL : In L single_flag_limits) (job : JobObject) (env : Env)
  (Hnf : forall r, os_fail env r = None) :
  (exists job1 env1 job2 env2 job3 env3 job4 env4,
     SetLimit range_order [L] (job, env) = ((job1, env1), Ok tt) /\
     sync QueryInfo [resolveRequiredInfoClass L] (job1, env1) = ((job2, env2), Ok tt) /\
     IsSet L (Info job2) = true /\
     ResetLimit range_order [L] (job2, env2) = ((job3, env3), Ok tt) /\
     sync QueryInfo [resolveRequiredInfoClass L] (job3, env3) = ((job4, env4), Ok tt) /\
     IsSet L (Info job4) = false) /\
  exists k, 0 <= k /\ flag_bit L = 2 ^ k /\
  forall i,
    set_flag_word L 0 (limit_set L i) = set_flag_word L 0 i /\
    set_flag_word L 0 (limit_reset L i) = set_flag_word L 0 i /\
    Z.testbit (flag_word L (limit_set L i)) k = true /\
    Z.testbit (flag_word L (limit_reset L i)) k = false /\
    (forall n, n <> k ->
       Z.testbit (flag_word L (limit_set L i)) n = Z.testbit (flag_word L i) n /\
       Z.testbit (flag_word L (limit_reset L i)) n = Z.testbit (flag_word L i) n).
Proof.
  destruct (single_flag_shape L HL) as [k [Hk0 [Hf Hsh]]].
  assert (Hpos : 0 < flag_bit L) by (rewrite Hf; apply Z.pow_pos_nonneg; lia).
  split.
  - destruct (applyLimit_single range_order Hro true L job env Hnf) as [env1 [H1 [Hf1 Hi1]]].
    destruct (sync_spec QueryInfo [resolveRequiredInfoClass L]
                (set_Info (limit_set L (copy_block (resolveRequiredInfoClass L) (os_info env) (Info job))) job)
                env1) as [env2 [H2 [_ [Hf2 Hi2]]]].
    { intros c _. rewrite Hf1. apply Hnf. }
    assert (Hnf2 : forall r, os_fail env2 r = None) by (intros r; rewrite Hf2, Hf1; apply Hnf).
    match type of H2 with _ = ((?j2, _), _) => set (job2 := j2) in H2 end.
    destruct (applyLimit_single range_order Hro false L job2 env2 Hnf2) as [env3 [H3 [Hf3 Hi3]]].
    match type of H3 with _ = ((?j3, _), _) => set (job3 := j3) in H3 end.
    destruct (sync_spec QueryInfo [resolveRequiredInfoClass L] job3 env3) as [env4 [H4 _]].
    { intros c _. rewrite Hf3. apply Hnf2. }
    do 8 eexists. split; [exact H1|]. split; [exact H2|]. split.
    { unfold job2. cbn [Info set_Info].
      rewrite (flag_IsSet _ _ Hsh), copy_blocks_one, (flag_word_copy _ _ Hsh), Hi1,
        (flag_word_copy _ _ Hsh), (flag_word_set _ _ Hsh), land_lor_self.
      apply Z.ltb_lt. exact Hpos. }
    split; [exact H3|]. split; [exact H4|].
    cbn [Info set_Info].
    rewrite (flag_IsSet _ _ Hsh), copy_blocks_one, (flag_word_copy _ _ Hsh), Hi3,
      (flag_word_copy _ _ Hsh), (flag_word_reset _ _ Hsh), land_ldiff_self.
    reflexivity.
  - exists k. split; [exact Hk0|]. split; [exact Hf|]. intros i.
    split; [apply (flag_frame_set _ _ Hsh)|].
    split; [apply (flag_frame_reset _ _ Hsh)|].
    rewrite (flag_word_set _ _ Hsh), (flag_word_reset _ _ Hsh), Hf.
    split; [rewrite Z.lor_spec, Z.pow2_bits_true by exact Hk0; apply orb_true_r|].
    split; [rewrite Z.ldiff_spec, Z.pow2_bits_true by exact Hk0; apply andb_false_r|].
    intros n Hn.
    rewrite Z.lor_spec, Z.ldiff_spec, Z.pow2_bits_false by (intros ->; apply Hn; reflexivity).
    rewrite orb_false_r, andb_true_r. auto.
Qed.

(** Witness of C9: the desktop restriction on the sample OS. *)
Lemma flag_limit_set_reset_roundtrip_witness :
  (forall ks : list JobObjectInformationClass, Permutation (rev ks) ks) /\
  In WithDesktopLimit single_flag_limits /\
  (forall r, os_fail (sample_env no_failure) r = None) /\
  exists k, 0 <= k /\ flag_bit WithDesktopLimit = 2 ^ k.
Proof.
  assert (Hro : forall ks : list JobObjectInformationClass, Permutation (rev ks) ks)
    by (intros ks; apply Permutation_sym, Permutation_rev).
  assert (HL : In WithDesktopLimit single_flag_limits) by (simpl; tauto).
  assert (Hnf : forall r, os_fail (sample_env no_failure) r = None) by reflexivity.
  split; [exact Hro|]. split; [exact HL|]. split; [exact Hnf|].
  destruct (flag_limit_set_reset_roundtrip (@rev _) Hro WithDesktopLimit HL sample_job
              (sample_env no_failure) Hnf) as [_ [k [Hk [Hb _]]]].
  exists k. auto.
Defined.

(** ** The subscription *)

Module SubscriptionFacts.
Import Subscription.

Lemma upd_client_same cs i pc : upd_client cs i pc i = pc.
Proof. unfold upd_client. rewrite Nat.eqb_refl. reflexivity. Qed.

Lemma upd_client_other cs i j pc : j <> i -> upd_client cs i pc j = cs j.
Proof. intros H. unfold upd_client. apply Nat.eqb_neq in H. rewrite H. reflexivity. Qed.

Lemma Inv_init : Inv init.
Proof.
  constructor; cbn; try discriminate; try tauto.
  right. split; [discriminate|reflexivity].
Qed.

(** Two threads never both hold the mutex. *)
Lemma holder_unique w i j : Inv w ->
  holds_lock (clients w i) = true -> holds_lock (clients w j) = true -> i = j.
Proof.
  intros I Hi Hj. apply (inv_client_lock _ I) in Hi. apply (inv_client_lock _ I) in Hj.
  rewrite Hi in Hj. injection Hj as ->. reflexivity.
Qed.

Lemma loop_step_Inv w w' : Inv w -> loop_step w w' -> Inv w'.
Proof.
  intros I Hs. destruct I as [I1 I2 I3 I4 I5 I6 I7 I8 I9 I10 I11 I12].
  destruct Hs as [w m Hl Hp|w e Hl|w m Hl|w e Hl Hmu|w e Hl He|w e Hl He|w Hl|w Hl];
    constructor; cbn [port_open closed err mu sink sink_closes strace loop clients];
    rewrite ?Hl in *; cbn [loop_holds loop_done] in *; auto; try discriminate.
  all: try (destruct I8 as [[Hx _]|[_ Hx]]; [discriminate|];
            first [right; split; [discriminate|exact Hx]
                  |left; split; [reflexivity|rewrite Hx; reflexivity]]).
  all: try (intros Hin; rewrite ?in_app_iff in Hin; destruct Hin as [Hin|[Hin|[]]];
            [apply I11 in Hin; discriminate|discriminate]).
  all: try (intros Hin; apply I11 in Hin; discriminate).
  all: try (intros i' Hin; rewrite in_app_iff in Hin; destruct Hin as [Hin|[Hin|[]]];
            [exact (I12 i' Hin)|discriminate]).
  all: try (intros e' Hin; rewrite in_app_iff in Hin; destruct Hin as [Hin|[Hin|[]]];
            [destruct (I9 e' Hin) as [Ha Hb]; first [discriminate Hb|split; [exact Ha|reflexivity]]
            |first [discriminate Hin|injection Hin as <-; split; reflexivity]]).
  all: try (intros e' Hin; destruct (I9 e' Hin) as [Ha Hb]; split; [exact Ha|reflexivity]).
  (* the loop takes the mutex only when it is free *)
  - intros i H. apply I1 in H. congruence.
  (* no caller holds the mutex while the loop records *)
  - intros i r H. exfalso.
    assert (Hh : holds_lock (clients w i) = true) by (rewrite H; reflexivity).
    apply I1 in Hh. rewrite (I2 eq_refl) in Hh. discriminate.
  (* the loop releases the mutex it holds *)
  - intros i H. exfalso. apply I1 in H. rewrite (I2 eq_refl) in H. discriminate.
Qed.

(** Case split on whether caller [j] is the stepping caller [i]. *)
Ltac same_or_other i :=
  let j := fresh "j" in let Hji := fresh "Hji" in
  intros j; destruct (Nat.eq_dec j i) as [->|Hji];
  [rewrite upd_client_same|rewrite (upd_client_other _ _ _ _ Hji)].

(** Another caller at a program point that holds the mutex contradicts the
    known holder. *)
Ltac clash I1 :=
  match goal with
  | H : holds_lock (clients ?w ?j) = true |- _ =>
      let Hj := fresh "Hj" in
      assert (Hj : mu w = Some (TClient j)) by (apply I1; exact H);
      exfalso; congruence
  | H : clients ?w ?j = ?p |- _ =>
      let Hj := fresh "Hj" in
      assert (Hj : mu w = Some (TClient j)) by (apply I1; rewrite H; reflexivity);
      exfalso; congruence
  end.

Lemma client_step_Inv i w w' : Inv w -> client_step i w w' -> Inv w'.
Proof.
  intros I Hs. destruct I as [I1 I2 I3 I4 I5 I6 I7 I8 I9 I10 I11 I12].
  destruct Hs as [w Hc|w Hc Hmu|w Hc|w Hc Hp|w e Hc|w Hc|w r Hc|w Hc|w Hc Hmu|w Hc|w r Hc];
    try (assert (Hown : mu w = Some (TClient i)) by (apply I1; rewrite Hc; reflexivity));
    constructor; cbn [port_open closed err mu sink sink_closes strace loop clients]; auto.
  all: try (intros e' Hin; rewrite in_app_iff in Hin; destruct Hin as [Hin|[Hin|[]]];
            [exact (I9 e' Hin)|discriminate]).
  all: try (intros Hin; rewrite in_app_iff in Hin; destruct Hin as [Hin|[Hin|[]]];
            [exact (I11 Hin)|discriminate]).
  all: try (intros i0 Hin; rewrite in_app_iff in Hin; destruct Hin as [Hin|[Hin|[]]];
            [exact (I12 i0 Hin)|discriminate]).
  all: try (intros Hlh; exfalso; apply I2 in Hlh; congruence).
  all: try match goal with |- context [if closed ?w then _ else _] =>
              destruct (closed w) eqn:Ecl end.
  all: try solve [intros Hn; exfalso; apply (Hn i); rewrite upd_client_same; reflexivity].
  all: try solve [intros _; rewrite (proj2 (I4 i Hc)); reflexivity].
  all: try solve [intros Hn; apply I5; intros k Hk; destruct (Nat.eq_dec k i) as [->|Hki];
                  [rewrite Hc in Hk; discriminate
                  |apply (Hn k); rewrite upd_client_other by exact Hki; exact Hk]].
  all: try solve [same_or_other i; intros * H;
                  first [discriminate H | solve [eauto] | clash I1 | reflexivity
                        | injection H as <-; reflexivity | exact Hown
                        | injection H as <-; exact (proj1 (I3 i Hc))
                        | split; [exact (proj1 (I3 i Hc))|reflexivity]
                        | split; [reflexivity|];
                          rewrite I5; [reflexivity|intros k Hk; clash I1]]].
Qed.

Lemma reachable_Inv w : reachable w -> Inv w.
Proof.
  induction 1 as [|w w' _ IH Hs].
  - exact Inv_init.
  - destruct Hs as [Hl|i Hc].
    + exact (loop_step_Inv _ _ IH Hl).
    + exact (client_step_Inv _ _ _ IH Hc).
Qed.

(** Every step leaves the event trace alone or appends one event. *)
Lemma step_trace w w' :
  step w w' -> strace w' = strace w \/ exists y, strace w' = strace w ++ [y].
Proof.
  intros [Hl|i Hc]; [destruct Hl|destruct Hc]; cbn [strace];
    solve [left; reflexivity | right; eexists; reflexivity].
Qed.

Lemma snoc_neq {A} (l : list A) y : l <> l ++ [y].
Proof.
  intros H. apply (f_equal (@List.length _)) in H. rewrite length_app in H. simpl in H. lia.
Qed.

(** Splitting a trace that grew by one event at an earlier event. *)
Lemma snoc_split {A} (l pre post : list A) x y :
  l ++ [y] = pre ++ x :: post ->
  (post = [] /\ x = y /\ l = pre) \/
  (exists post', post = post' ++ [y] /\ l = pre ++ x :: post').
Proof.
  intros H. induction post as [|z post' _] using rev_ind.
  - left. apply app_inj_tail in H as [H1 H2]. auto.
  - right. exists post'. rewrite app_comm_cons, app_assoc in H.
    apply app_inj_tail in H as [H1 H2]. subst. auto.
Qed.

(** Events appended after an earlier event [x] all satisfy [Q] when every
    step appending one event to a trace that contains [x] does. *)
Lemma after_event (x : SEvent) (Q : SEvent -> Prop) :
  (forall w w' y, reachable w -> step w w' -> strace w' = strace w ++ [y] ->
     In x (strace w) -> Q y) ->
  forall w, reachable w -> forall pre post, strace w = pre ++ x :: post ->
  forall y, In y post -> Q y.
Proof.
  intros HQ w Hr. induction Hr as [|w w' Hr IH Hs]; intros pre post Ht y Hy.
  - simpl in Ht. destruct pre; discriminate.
  - destruct (step_trace _ _ Hs) as [Ht'|[z Hz]].
    + rewrite Ht' in Ht. exact (IH _ _ Ht _ Hy).
    + rewrite Hz in Ht.
      destruct (snoc_split _ _ _ _ _ Ht) as [[-> _]|[post' [-> Hw]]].
      * destruct Hy.
      * apply in_app_iff in Hy as [Hy|[<-|[]]].
        -- exact (IH _ _ Hw _ Hy).
        -- apply (HQ w w' z Hr Hs Hz). rewrite Hw. apply in_elt.
Qed.

(** Identify the event a step appended. *)
Ltac appended Hz :=
  cbn [strace] in Hz;
  first [exfalso; exact (snoc_neq _ _ Hz) | apply app_inj_tail in Hz as [_ Hz]].

(** Once [SRecord e] is in the trace, every [Err] call returning later
    returns [e]. *)
Lemma err_returns_after_record e w :
  reachable w -> forall pre post, strace w = pre ++ SRecord e :: post ->
  forall i r, In (SErrReturn i r) post -> r = Some e.
Proof.
  intros Hr pre post Ht i r Hin.
  refine (after_event (SRecord e) (fun y => forall i r, y = SErrReturn i r -> r = Some e)
            _ w Hr pre post Ht _ Hin i r eq_refl).
  clear. intros w w' y Hr Hs Hz Hin i r ->.
  pose proof (reachable_Inv _ Hr) as I.
  destruct Hs as [Hl|j Hc]; [destruct Hl|destruct Hc]; appended Hz; try discriminate Hz.
  injection Hz as _ <-.
  rewrite (inv_errread _ I _ _ H). exact (proj1 (inv_record _ I _ Hin)).
Qed.

(** Advance the reachable state in the context by one step of caller [i]
    or of the loop. *)
Ltac client_go i c :=
  match goal with
  | R : reachable ?x |- _ =>
      let R' := fresh "R" in
      eassert (R' : reachable _)
        by (eapply (r_step x); [exact R|apply (s_client _ _ i); apply (c i x); reflexivity]);
      clear R;
      cbn [port_open closed err mu sink sink_closes strace loop clients upd_client app] in R'
  end.

Ltac loop_go c :=
  match goal with
  | R : reachable ?x |- _ =>
      let R' := fresh "R" in
      eassert (R' : reachable _)
        by (eapply (r_step x); [exact R|apply s_loop; apply (c x); reflexivity]);
      clear R;
      cbn [port_open closed err mu sink sink_closes strace loop clients upd_client app] in R'
  end.

(** ** C3: ordering inside [Subscription.Close] *)





(** ** C4: classification of the loop's dequeue error *)

(** C4: when [NextMessage] failed with [e] and the loop reached the
    [errors.Is(err, ErrAbandoned) && s.closed] test, it holds [s.mu] and no
    error is recorded yet; its next step records nothing exactly when [e] is
    the abandoned-wait error and [s.closed] is true, and records [e]
    otherwise; the loop then closes the sink and exits on its own steps; and
    every [Err] call returning after [e] was recorded returns [e]. *)
Theorem handlePortErr_records_unless_abandoned_after_close w e :
  reachable w -> loop w = LClassify e ->
  mu w = Some TLoop /\ err w = None /\
  (forall w', loop_step w w' ->
     loop w' = LUnlock /\ closed w' = closed w /\
     err w' = (if errors_Is_ErrAbandoned e && closed w then None else Some e)) /\
  (exists w'', loop_steps w w'' /\ loop w'' = LExit /\ sink_closes w'' = 1%nat /\
     err w'' = (if errors_Is_ErrAbandoned e && closed w then None else Some e)) /\
  (forall w1 pre post i r, reachable w1 -> strace w1 = pre ++ SRecord e :: post ->
     In (SErrReturn i r) post -> r = Some e).
Proof.
  intros Hr Hl. pose proof (reachable_Inv _ Hr) as I.
  assert (Hmu : mu w = Some TLoop) by (apply (inv_loop_lock _ I); rewrite Hl; reflexivity).
  assert (Herr : err w = None) by (apply (inv_noerr _ I); rewrite Hl; reflexivity).
  assert (Hsc : sink_closes w = 0%nat)
    by (destruct (inv_sink _ I) as [[H _]|[_ H]]; [rewrite Hl in H; discriminate|exact H]).
  split; [exact Hmu|]. split; [exact Herr|]. split; [|split].
  - intros w' Hs.
    destruct Hs as [w0 m Hl0 _|w0 e0 Hl0|w0 m Hl0|w0 e0 Hl0 _|w0 e0 Hl0 Hc|w0 e0 Hl0 Hc
                   |w0 Hl0|w0 Hl0];
      rewrite Hl in Hl0; try discriminate Hl0; injection Hl0 as <-;
      cbn [loop closed err]; rewrite Hc; auto.
  - destruct (errors_Is_ErrAbandoned e && closed w) eqn:Hc.
    + eexists. split.
      * eapply ls_step; [apply (l_classify_expected w e Hl Hc)|].
        eapply ls_step; [apply l_unlock; reflexivity|].
        eapply ls_step; [apply l_close_sink; reflexivity|]. apply ls_refl.
      * cbn. rewrite Hsc. auto.
    + eexists. split.
      * eapply ls_step; [apply (l_classify_record w e Hl Hc)|].
        eapply ls_step; [apply l_unlock; reflexivity|].
        eapply ls_step; [apply l_close_sink; reflexivity|]. apply ls_refl.
      * cbn. rewrite Hsc. auto.
  - intros w1 pre post i r Hr1 Ht. exact (err_returns_after_record e w1 Hr1 pre post Ht i r).
Qed.

Lemma handlePortErr_records_unless_abandoned_after_close_witness :
  exists w, reachable w /\ loop w = LClassify ErrAbandoned /\ closed w = false /\
            err w = None /\
            (forall w', loop_step w w' -> err w' = Some ErrAbandoned).
Proof.
  pose proof r_init as R.
  loop_go (fun w => l_fail w ErrAbandoned). loop_go l_lock.
  match goal with R : reachable ?x |- _ => exists x; split; [exact R|] end.
  split; [reflexivity|]. split; [reflexivity|].
  match goal with R : reachable ?x |- _ =>
    destruct (handlePortErr_records_unless_abandoned_after_close x ErrAbandoned R eq_refl)
      as [_ [Herr [Hs _]]] end.
  split; [exact Herr|]. intros w' Hw'. exact (proj2 (proj2 (Hs w' Hw'))).
Defined.

(** ** C8: idempotent [Close], sink closed once by the loop *)

(** C8: after a [Close] call set [s.closed] (its handle close succeeded), no
    later step closes the port handle and every later [Close] returns nil;
    the sink is closed at most once, by the loop at its exit and by no
    caller step, and nothing is sent on it after it was closed. *)
Theorem Close_idempotent_sink_closed_once w :
  reachable w ->
  (forall pre post i, strace w = pre ++ SFlagSet i :: post ->
     (forall j r, ~ In (SPortClose j r) post) /\
     (forall j r, In (SCloseReturn j r) post -> r = None)) /\
  (sink_closes w <= 1)%nat /\ (sink_closes w = 1%nat <-> loop w = LExit) /\
  (forall pre post, strace w = pre ++ SSinkClose :: post -> forall m, ~ In (SSend m) post) /\
  (forall i w', client_step i w w' -> sink_closes w' = sink_closes w).
Proof.
  intros Hr. pose proof (reachable_Inv _ Hr) as I.
  split; [|split; [|split; [|split]]].
  - intros pre post i Ht. split.
    + intros j r Hin.
      refine (after_event (SFlagSet i) (fun y => forall j r, y <> SPortClose j r)
                _ w Hr pre post Ht _ Hin j r eq_refl).
      clear. intros w w' y Hr Hs Hz Hin j r ->.
      pose proof (reachable_Inv _ Hr) as I.
      destruct Hs as [Hl|k Hc]; [destruct Hl|destruct Hc]; appended Hz; try discriminate Hz;
        pose proof (proj1 (inv_port _ I _ H)); pose proof (inv_flag _ I _ Hin); congruence.
    + intros j r Hin.
      refine (after_event (SFlagSet i) (fun y => forall j r, y = SCloseReturn j r -> r = None)
                _ w Hr pre post Ht _ Hin j r eq_refl).
      clear. intros w w' y Hr Hs Hz Hin j r ->.
      pose proof (reachable_Inv _ Hr) as I.
      destruct Hs as [Hl|k Hc]; [destruct Hl|destruct Hc]; appended Hz; try discriminate Hz.
      injection Hz as _ <-. destruct r0 as [e|]; [|reflexivity].
      pose proof (inv_fail _ I _ _ H). pose proof (inv_flag _ I _ Hin). congruence.
  - destruct (inv_sink _ I) as [[_ ->]|[_ ->]]; auto.
  - destruct (inv_sink _ I) as [[-> ->]|[Hl ->]]; split; auto; intros H; [discriminate|contradiction].
  - intros pre post Ht m Hin.
    refine (after_event SSinkClose (fun y => forall m, y <> SSend m)
              _ w Hr pre post Ht _ Hin m eq_refl).
    clear. intros w w' y Hr Hs Hz Hin m ->.
    pose proof (reachable_Inv _ Hr) as I.
    destruct Hs as [Hl|k Hc]; [destruct Hl|destruct Hc]; appended Hz; try discriminate Hz.
    rewrite (inv_sinkclose _ I Hin) in H. discriminate.
  - intros i w' Hs. destruct Hs; reflexivity.
Qed.

Lemma Close_idempotent_sink_closed_once_witness :
  exists w, reachable w /\
    strace w = [SPortClose 0 None; SFlagSet 0; SCloseReturn 0 None; SCloseReturn 1 None;
                SSinkClose] /\
    loop w = LExit /\ sink_closes w = 1%nat /\
    (forall j r, In (SCloseReturn j r) [SCloseReturn 0 None; SCloseReturn 1 None; SSinkClose] ->
       r = None) /\
    (forall i w', client_step i w w' -> sink_closes w' = 1%nat).
Proof.
  pose proof r_init as R.
  (* a first [Close] closes the handle and sets the flag *)
  client_go 0%nat c_start_close. client_go 0%nat c_close_lock.
  client_go 0%nat c_close_check. client_go 0%nat c_close_port_ok.
  client_go 0%nat c_close_set. client_go 0%nat c_close_unlock.
  (* a second [Close] finds the flag set *)
  client_go 1%nat c_start_close. client_go 1%nat c_close_lock.
  client_go 1%nat c_close_check. client_go 1%nat c_close_unlock.
  (* the loop's wait is abandoned; it records nothing and closes the sink *)
  loop_go (fun w => l_fail w ErrAbandoned). loop_go l_lock.
  loop_go (fun w => l_classify_expected w ErrAbandoned).
  loop_go l_unlock. loop_go l_close_sink.
  match goal with R : reachable ?x |- _ =>
    destruct (Close_idempotent_sink_closed_once x R) as [Hflag [_ [Hsc [_ Hcl]]]];
    assert (Ht : strace x = [SPortClose 0 None] ++ SFlagSet 0 ::
                   [SCloseReturn 0 None; SCloseReturn 1 None; SSinkClose]) by reflexivity;
    assert (H1 : sink_closes x = 1%nat) by (apply Hsc; reflexivity);
    exists x; split; [exact R|]; split; [exact Ht|]; split; [reflexivity|];
    split; [exact H1|]; split; [exact (proj2 (Hflag _ _ _ Ht))|];
    intros i w' Hs; rewrite (Hcl i w' Hs); exact H1
  end.
Defined.

(** ** C10: a failed handle close inside [Close] *)

(** C10: when [s.Port.Close()] fails with [e] inside [Close], the flag was
    false and stays false, the handle and [s.err] are unchanged, the caller's
    next step unlocks and returns [e] leaving the flag false; and any later
    [Close] that finds the flag false tries to close the handle again. *)
Theorem Close_port_failure_keeps_state i w w' e :
  reachable w -> clients w i = CClosePort -> client_step i w w' ->
  clients w' i = CCloseUnlock (Some e) ->
  closed w = false /\ closed w' = false /\ port_open w' = port_open w /\ err w' = err w /\
  strace w' = strace w ++ [SPortClose i (Some e)] /\
  (forall w'', client_step i w' w'' ->
     closed w'' = false /\ clients w'' i = CIdle /\
     strace w'' = strace w' ++ [SCloseReturn i (Some e)]) /\
  (forall j w1 w2, reachable w1 -> closed w1 = false -> clients w1 j = CCloseCheck ->
     client_step j w1 w2 -> clients w2 j = CClosePort).
Proof.
  intros Hr Hc Hs Hc'. pose proof (reachable_Inv _ Hr) as I.
  pose proof (proj1 (inv_port _ I _ Hc)) as Hcl.
  assert (Hnext : forall w'', client_step i w' w'' ->
            closed w'' = closed w' /\ clients w'' i = CIdle /\
            strace w'' = strace w' ++ [SCloseReturn i (Some e)]).
  { intros w'' Hs2.
    destruct Hs2 as [w1 H1|w1 H1 _|w1 H1|w1 H1 _|w1 e1 H1|w1 H1|w1 r H1|w1 H1|w1 H1 _|w1 H1
                    |w1 r H1];
      rewrite Hc' in H1; try discriminate H1.
    injection H1 as <-. cbn [closed clients strace]. rewrite upd_client_same. auto. }
  destruct Hs; rewrite Hc in H; try discriminate H;
    cbn [clients] in Hc'; rewrite upd_client_same in Hc'; try discriminate Hc'.
  injection Hc' as ->. cbn [closed port_open err strace].
  split; [exact Hcl|]. split; [exact Hcl|]. split; [reflexivity|]. split; [reflexivity|].
  split; [reflexivity|]. split.
  - intros w'' Hs2. destruct (Hnext w'' Hs2) as [E1 [E2 E3]]. rewrite E1. auto.
  - intros j w1 w2 _ Hcl1 Hj Hs2.
    destruct Hs2 as [x Hx|x Hx _|x Hx|x Hx _|x e1 Hx|x Hx|x r Hx|x Hx|x Hx _|x Hx|x r Hx];
      rewrite Hj in Hx; try discriminate Hx.
    cbn [clients]. rewrite upd_client_same, Hcl1. reflexivity.
Qed.

Lemma Close_port_failure_keeps_state_witness :
  exists w w', reachable w /\ clients w 0%nat = CClosePort /\ client_step 0 w w' /\
    clients w' 0%nat = CCloseUnlock (Some (Errno 6)) /\ closed w' = false.
Proof.
  pose proof r_init as R.
  client_go 0%nat c_start_close. client_go 0%nat c_close_lock. client_go 0%nat c_close_check.
  match goal with R : reachable ?x |- _ =>
    pose proof (c_close_port_fail 0 x (Errno 6) eq_refl) as Hs;
    exists x; eexists; split; [exact R|]; split; [reflexivity|];
    split; [exact Hs|]; split; [reflexivity|];
    exact (proj1 (proj2 (Close_port_failure_keeps_state 0 _ _ _ R eq_refl Hs eq_refl)))
  end.
Defined.
End SubscriptionFacts.

(* ------------------------------------------------------------------ *)
(** ** Limit values, idempotence and frame *)

Lemma basic_IsSet_set f i : basic_IsSet f (basic_set f i) = (0 <? f).
Proof. unfold basic_IsSet, basic_set. cbn. rewrite land_lor_self. reflexivity. Qed.

Lemma basic_IsSet_reset f i : basic_IsSet f (basic_reset f i) = false.
Proof. unfold basic_IsSet, basic_reset. cbn. rewrite land_ldiff_self. reflexivity. Qed.

Lemma lor_idem x f : Z.lor (Z.lor x f) f = Z.lor x f.
Proof. rewrite <- Z.lor_assoc, Z.lor_diag. reflexivity. Qed.

Lemma ldiff_idem x f : Z.ldiff (Z.ldiff x f) f = Z.ldiff x f.
Proof.
  apply Z.bits_inj'. intros n _. rewrite !Z.ldiff_spec.
  destruct (Z.testbit f n), (Z.testbit x n); reflexivity.
Qed.

(** X1: for the six unsigned-integer value limits, setting the limit
    [With...(x)] on a job makes [Value] return [x] and [IsSet] true; a
    following reset turns [IsSet] false but leaves [Value] at [x]: reset
    clears only the flag bit, never the value field. *)
Theorem uint_limit_value_set_reset (x : Z) (l : Limit) (Hl : In l (uint_value_limits x))
    (i : JobInfo) :
  Limit_Value l (limit_set l i) = Some (VUint x) /\ IsSet l (limit_set l i) = true /\
  Limit_Value l (limit_reset l (limit_set l i)) = Some (VUint x) /\
  IsSet l (limit_reset l (limit_set l i)) = false.
Proof.
  unfold uint_value_limits in Hl.
  repeat (destruct Hl as [<-|Hl]); [..|destruct Hl].
  all: cbn [Limit_Value IsSet limit_set limit_reset WithAffinity WithJobMemoryLimit
              WithProcessMemoryLimit WithActiveProcessLimit WithPriorityClassLimit
              WithSchedulingClassLimit].
  all: rewrite ?basic_IsSet_set, ?basic_IsSet_reset.
  all: repeat split; reflexivity.
Qed.

Lemma uint_limit_value_set_reset_witness :
  In (WithAffinity 3) (uint_value_limits 3) /\
  Limit_Value (WithAffinity 3) (limit_reset (WithAffinity 3) (limit_set (WithAffinity 3) zero_JobInfo))
    = Some (VUint 3).
Proof.
  assert (H : In (WithAffinity 3) (uint_value_limits 3)) by (simpl; tauto).
  split; [exact H|].
  exact (proj1 (proj2 (proj2 (uint_limit_value_set_reset 3 _ H zero_JobInfo)))).
Defined.

(** [x.Nanoseconds() / timeFraction * timeFraction] stays in [int64]. *)
Lemma quot_100_in_range ns : -2 ^ 63 <= ns < 2 ^ 63 ->
  Z.quot ns 100 * 100 = ns - Z.rem ns 100 /\ -2 ^ 63 <= ns - Z.rem ns 100 < 2 ^ 63.
Proof.
  intros H. pose proof (Z.quot_rem' ns 100) as E.
  destruct (Z.le_gt_cases 0 ns) as [Hp|Hn].
  - pose proof (Z.rem_bound_pos ns 100 Hp ltac:(lia)). lia.
  - pose proof (Z.rem_nonpos ns 100 ltac:(lia) ltac:(lia)).
    pose proof (Z.rem_bound_abs ns 100 ltac:(lia)). lia.
Qed.

Lemma wrap_int64_small x : -2 ^ 63 <= x < 2 ^ 63 -> wrap_int64 x = x.
Proof.
  intros H. unfold wrap_int64. rewrite Z.mod_small; lia.
Qed.

(** X2: a time limit built from a duration [ns] in the [int64] range and
    set on a job reads back as [ns] truncated toward zero to a whole
    number of 100-nanosecond ticks ([ns - ns rem 100]); the multiplication
    back to nanoseconds never wraps. Both the job and the process time
    limit behave so. *)
Theorem time_limit_value_truncates (ns : Z) (Hns : -2 ^ 63 <= ns < 2 ^ 63) (i : JobInfo) :
  Limit_Value (WithJobTimeLimit ns) (limit_set (WithJobTimeLimit ns) i)
    = Some (VDuration (ns - Z.rem ns 100)) /\
  Limit_Value (WithProcessTimeLimit ns) (limit_set (WithProcessTimeLimit ns) i)
    = Some (VDuration (ns - Z.rem ns 100)) /\
  IsSet (WithJobTimeLimit ns) (limit_set (WithJobTimeLimit ns) i) = true /\
  IsSet (WithProcessTimeLimit ns) (limit_set (WithProcessTimeLimit ns) i) = true.
Proof.
  destruct (quot_100_in_range ns Hns) as [E R].
  cbn [Limit_Value IsSet limit_set WithJobTimeLimit WithProcessTimeLimit].
  rewrite !basic_IsSet_set. unfold basic_set, upd_basic, timeFraction. cbn.
  rewrite E, wrap_int64_small by exact R. repeat split; reflexivity.
Qed.

Lemma time_limit_value_truncates_witness :
  -2 ^ 63 <= 1234567 < 2 ^ 63 /\
  Limit_Value (WithJobTimeLimit 1234567) (limit_set (WithJobTimeLimit 1234567) zero_JobInfo)
    = Some (VDuration 1234500).
Proof.
  assert (H : -2 ^ 63 <= 1234567 < 2 ^ 63) by lia.
  split; [exact H|].
  exact (proj1 (time_limit_value_truncates 1234567 H zero_JobInfo)).
Defined.

(** X3: [workingSetLimit] has no [Value] of its own: the promoted
    [basicLimit.Value] answers whether the flag is set, not the sizes.
    After set it is [true] and [MinWorkingSetSize]/[MaxWorkingSetSize]
    return the two sizes; after a following reset it is [false] and the
    two sizes are still there. *)
Theorem working_set_value_is_flag (mn mx : Z) (i : JobInfo) :
  let l := WithWorkingSetLimit mn mx in
  Limit_Value l (limit_set l i) = Some (VBool true) /\
  MinWorkingSetSize (limit_set l i) = mn /\ MaxWorkingSetSize (limit_set l i) = mx /\
  Limit_Value l (limit_reset l (limit_set l i)) = Some (VBool false) /\
  MinWorkingSetSize (limit_reset l (limit_set l i)) = mn /\
  MaxWorkingSetSize (limit_reset l (limit_set l i)) = mx.
Proof.
  cbn [Limit_Value limit_set limit_reset WithWorkingSetLimit].
  rewrite basic_IsSet_set, basic_IsSet_reset.
  unfold MinWorkingSetSize, MaxWorkingSetSize. cbn.
  repeat split; reflexivity.
Qed.

(** X4: setting a limit twice is setting it once, and so is resetting,
    for every limit of the tree (the network limits apart), whatever the
    job's cache held. *)
Theorem limit_set_reset_idempotent (l : Limit) (Hl : is_net_limit l = false) (i : JobInfo) :
  limit_set l (limit_set l i) = limit_set l i /\
  limit_reset l (limit_reset l i) = limit_reset l i.
Proof.
  destruct l; try discriminate Hl.
  all: cbn [limit_set limit_reset].
  all: unfold basic_set, basic_reset, ui_set, ui_reset, cpu_set, cpu_reset, upd_basic,
         upd_ext_memory; cbn.
  all: rewrite ?lor_idem, ?ldiff_idem.
  all: try (split; reflexivity).
  destruct r as [mn mx w hc]; cbn.
  destruct (0 <? hc); [|destruct (0 <? w); [|destruct (0 <? mx)]]; cbn; split; reflexivity.
Qed.

Lemma limit_set_reset_idempotent_witness :
  is_net_limit (WithCPUHardCapLimit 5) = false /\
  limit_set (WithCPUHardCapLimit 5) (limit_set (WithCPUHardCapLimit 5) zero_JobInfo)
    = limit_set (WithCPUHardCapLimit 5) zero_JobInfo.
Proof.
  assert (H : is_net_limit (WithCPUHardCapLimit 5) = false) by reflexivity.
  split; [exact H|]. exact (proj1 (limit_set_reset_idempotent _ H zero_JobInfo)).
Defined.

(** X5: set and reset of a limit touch only the block of its class
    ([resolveRequiredInfoClass]): every other block behind [infoPtr] is left
    as it was (the network limits apart). *)
Theorem limit_set_reset_frame (l : Limit) (Hl : is_net_limit l = false)
    (c : JobObjectInformationClass) (Hc : c <> resolveRequiredInfoClass l) (i : JobInfo) :
  infoPtr c (limit_set l i) = infoPtr c i /\ infoPtr c (limit_reset l i) = infoPtr c i.
Proof.
  destruct l; try discriminate Hl.
  all: destruct c; cbn in Hc; try (exfalso; apply Hc; reflexivity).
  all: try (split; reflexivity).
  all: cbn [limit_set]; unfold cpu_set; destruct (0 <? HardCap r); [|destruct (0 <? Weight r); [|destruct (0 <? Max r)]].
  all: split; reflexivity.
Qed.

Lemma limit_set_reset_frame_witness :
  is_net_limit WithDesktopLimit = false /\
  JobObjectExtendedLimitInformation <> resolveRequiredInfoClass WithDesktopLimit /\
  infoPtr JobObjectExtendedLimitInformation (limit_set WithDesktopLimit limited_info)
    = infoPtr JobObjectExtendedLimitInformation limited_info.
Proof.
  assert (H1 : is_net_limit WithDesktopLimit = false) by reflexivity.
  assert (H2 : JobObjectExtendedLimitInformation <> resolveRequiredInfoClass WithDesktopLimit)
    by discriminate.
  split; [exact H1|]. split; [exact H2|].
  exact (proj1 (limit_set_reset_frame _ H1 _ H2 limited_info)).
Defined.

Lemma IsSet_copy_block l src dst :
  IsSet l (copy_block (resolveRequiredInfoClass l) src dst) = IsSet l src.
Proof. destruct l; reflexivity. Qed.

Lemma IsSet_limit_set l i : flag_positive l -> IsSet l (limit_set l i) = true.
Proof.
  intros Hp. destruct l; cbn [flag_positive] in Hp; try contradiction.
  all: cbn [IsSet limit_set]; rewrite ?basic_IsSet_set; try (apply Z.ltb_lt; exact Hp).
  - unfold ui_IsSet, ui_set. cbn. rewrite land_lor_self. apply Z.ltb_lt. exact Hp.
  - unfold cpu_IsSet, cpu_set.
    destruct (0 <? HardCap r); [|destruct (0 <? Weight r); [|destruct (0 <? Max r)]]; reflexivity.
Qed.

Lemma IsSet_limit_reset l i : is_net_limit l = false -> IsSet l (limit_reset l i) = false.
Proof.
  intros Hn. destruct l; try discriminate Hn.
  all: cbn [IsSet limit_reset]; rewrite ?basic_IsSet_reset; try reflexivity.
  unfold ui_IsSet, ui_reset. cbn. rewrite land_ldiff_self. reflexivity.
Qed.

Lemma flag_positive_not_net l : flag_positive l -> is_net_limit l = false.
Proof. destruct l; cbn; tauto. Qed.

(** X6: for every limit of the tree with a non-zero flag, when no OS call
    fails, [SetLimit] leaves the limit set both in the job's cache and in
    the OS copy, the OS block of the limit's class equal to the cache's
    and every other OS block unchanged; a following [ResetLimit] leaves it
    unset in both, again touching no other OS block. *)
Theorem SetLimit_ResetLimit_os_state
  (range_order : list JobObjectInformationClass -> list JobObjectInformationClass)
  (Hro : forall ks, Permutation (range_order ks) ks)
  (l : Limit) (Hl : flag_positive l) (job : JobObject) (env : Env)
  (Hnf : forall r, os_fail env r = None) :
  exists job1 env1 job2 env2,
    SetLimit range_order [l] (job, env) = ((job1, env1), Ok tt) /\
    IsSet l (Info job1) = true /\ IsSet l (os_info env1) = true /\
    infoPtr (resolveRequiredInfoClass l) (os_info env1)
      = infoPtr (resolveRequiredInfoClass l) (Info job1) /\
    (forall c, c <> resolveRequiredInfoClass l -> infoPtr c (os_info env1) = infoPtr c (os_info env)) /\
    ResetLimit range_order [l] (job1, env1) = ((job2, env2), Ok tt) /\
    IsSet l (Info job2) = false /\ IsSet l (os_info env2) = false /\
    (forall c, c <> resolveRequiredInfoClass l -> infoPtr c (os_info env2) = infoPtr c (os_info env)).
Proof.
  pose proof (flag_positive_not_net l Hl) as Hn.
  set (c := resolveRequiredInfoClass l).
  destruct (applyLimit_single range_order Hro true l job env Hnf) as [env1 [H1 [Hf1 Hi1]]].
  fold c in H1, Hi1.
  assert (Hnf1 : forall r, os_fail env1 r = None) by (intros r; rewrite Hf1; apply Hnf).
  match type of H1 with _ = ((?j, _), _) => set (job1 := j) in H1 end.
  destruct (applyLimit_single range_order Hro false l job1 env1 Hnf1) as [env2 [H2 [_ Hi2]]].
  fold c in H2, Hi2.
  match type of H2 with _ = ((?j, _), _) => set (job2 := j) in H2 end.
  assert (Hother : forall c' src dst, c' <> c -> infoPtr c' (copy_block c src dst) = infoPtr c' dst).
  { intros c' src dst Hc'. rewrite infoPtr_copy_block.
    destruct (class_eqb c' c) eqn:E; [apply class_eqb_true in E; contradiction|reflexivity]. }
  exists job1, env1, job2, env2.
  split; [exact H1|].
  split; [unfold job1; cbn [Info set_Info]; apply IsSet_limit_set, Hl|].
  split; [rewrite Hi1; unfold c; rewrite IsSet_copy_block; apply IsSet_limit_set, Hl|].
  split; [rewrite Hi1, infoPtr_copy_block; unfold class_eqb;
          destruct (class_eq_dec c c) as [_|ne]; [reflexivity|contradiction ne; reflexivity]|].
  split; [intros c' Hc'; rewrite Hi1; apply Hother, Hc'|].
  split; [exact H2|].
  split; [unfold job2; cbn [Info set_Info]; apply IsSet_limit_reset, Hn|].
  split; [rewrite Hi2; unfold c; rewrite IsSet_copy_block; apply IsSet_limit_reset, Hn|].
  intros c' Hc'. rewrite Hi2, Hother, Hi1, Hother by exact Hc'. reflexivity.
Qed.

Lemma SetLimit_ResetLimit_os_state_witness :
  (forall ks : list JobObjectInformationClass, Permutation (rev ks) ks) /\
  flag_positive (WithCPUWeightedLimit 7) /\
  (forall r, os_fail (sample_env no_failure) r = None) /\
  exists job1 env1, SetLimit (@rev _) [WithCPUWeightedLimit 7] (sample_job, sample_env no_failure)
                      = ((job1, env1), Ok tt) /\ IsSet (WithCPUWeightedLimit 7) (os_info env1) = true.
Proof.
  assert (Hro : forall ks : list JobObjectInformationClass, Permutation (rev ks) ks)
    by (intros ks; apply Permutation_sym, Permutation_rev).
  assert (Hl : flag_positive (WithCPUWeightedLimit 7)) by exact I.
  assert (Hnf : forall r, os_fail (sample_env no_failure) r = None) by reflexivity.
  split; [exact Hro|]. split; [exact Hl|]. split; [exact Hnf|].
  destruct (SetLimit_ResetLimit_os_state (@rev _) Hro _ Hl sample_job _ Hnf)
    as [job1 [env1 [_ [_ [H1 [_ [H3 _]]]]]]].
  exists job1, env1. tauto.
Defined.

(* ------------------------------------------------------------------ *)
(** ** [sync] and [HasLimits] *)

Lemma infoPtr_copy_other c c' src dst :
  ~ In c' [c] -> infoPtr c' (copy_block c src dst) = infoPtr c' dst.
Proof.
  intros H. rewrite infoPtr_copy_block.
  destruct (class_eqb c' c) eqn:E; [apply class_eqb_true in E; subst; exfalso; apply H; left; reflexivity|].
  reflexivity.
Qed.

Lemma sync_frame_run fn cs : forall job env job' env' r,
  sync fn cs (job, env) = ((job', env'), r) ->
  Name job' = Name job /\ Handle job' = Handle job /\ os_fail env' = os_fail env /\
  match fn with
  | QueryInfo => os_info env' = os_info env /\
                 forall c, ~ In c cs -> infoPtr c (Info job') = infoPtr c (Info job)
  | SetInfo => job' = job /\
               forall c, ~ In c cs -> infoPtr c (os_info env') = infoPtr c (os_info env)
  end.
Proof.
  induction cs as [|c cs IH]; intros job env job' env' r Hrun.
  - cbn in Hrun. inversion Hrun; subst. destruct fn; auto.
  - cbn [sync] in Hrun. unfold bind at 1, info_call in Hrun.
    destruct (os_fail env (ReqInfo fn c)) eqn:Hc.
    + inversion Hrun; subst. destruct fn; cbn; auto.
    + destruct fn.
      * apply IH in Hrun as [Hn [Hh [Hf [Hi Hp]]]]. cbn in Hn, Hh, Hf, Hi.
        repeat split; auto. intros c' Hc'. rewrite Hp by (intros H; apply Hc'; right; exact H).
        cbn [Info set_Info]. apply infoPtr_copy_other. intros [H|[]]. apply Hc'. left. exact H.
      * apply IH in Hrun as [Hn [Hh [Hf [Hj Hp]]]]. subst job'. cbn in Hf.
        repeat split; auto. intros c' Hc'. rewrite Hp by (intros H; apply Hc'; right; exact H).
        cbn [os_info set_os_info log]. apply infoPtr_copy_other. intros [H|[]]. apply Hc'. left. exact H.
Qed.

(** X7: whatever the OS answers, and also when a call fails part way,
    [job.sync] keeps the job's name and handle; a [sync] with
    [QueryInformationJobObject] never changes the OS copy and changes no
    cached block outside its class list, and a [sync] with
    [SetInformationJobObject] never changes the job value and no OS block
    outside its class list. *)
Theorem sync_never_writes_other_side (fn : infoClassSync) (cs : list JobObjectInformationClass)
    (job : JobObject) (env : Env) job' env' r
    (Hrun : sync fn cs (job, env) = ((job', env'), r)) :
  Name job' = Name job /\ Handle job' = Handle job /\
  match fn with
  | QueryInfo => os_info env' = os_info env /\
                 forall c, ~ In c cs -> infoPtr c (Info job') = infoPtr c (Info job)
  | SetInfo => job' = job /\
               forall c, ~ In c cs -> infoPtr c (os_info env') = infoPtr c (os_info env)
  end.
Proof.
  destruct (sync_frame_run fn cs job env job' env' r Hrun) as [Hn [Hh [_ H]]]. auto.
Qed.

Lemma sync_never_writes_other_side_witness :
  exists job' env',
    sync SetInfo [JobObjectExtendedLimitInformation] (sample_job, limited_env ext_write_fails)
      = ((job', env'), Err (Errno 5)) /\ job' = sample_job.
Proof.
  assert (H : sync SetInfo [JobObjectExtendedLimitInformation] (sample_job, limited_env ext_write_fails)
    = ((sample_job, log (EvInfo SetInfo JobObjectExtendedLimitInformation) (limited_env ext_write_fails)),
       Err (Errno 5))) by reflexivity.
  exists sample_job, (log (EvInfo SetInfo JobObjectExtendedLimitInformation) (limited_env ext_write_fails)).
  split; [exact H|].
  exact (proj1 (proj2 (proj2 (sync_never_writes_other_side _ _ _ _ _ _ _ H)))).
Defined.

Lemma sync_err_in fn cs : forall job env job' env' e,
  sync fn cs (job, env) = ((job', env'), Err e) ->
  exists c, In c cs /\ os_fail env (ReqInfo fn c) = Some e.
Proof.
  induction cs as [|c cs IH]; intros job env job' env' e Hrun; [discriminate|].
  cbn [sync] in Hrun. unfold bind at 1, info_call in Hrun.
  destruct (os_fail env (ReqInfo fn c)) eqn:Hc.
  - inversion Hrun; subst. exists c. split; [left; reflexivity|exact Hc].
  - destruct fn; apply IH in Hrun as [c' [Hin Hf]]; exists c'; split; auto; right; exact Hin.
Qed.

(** X8: [HasLimits] never changes the OS copy nor the job's handle. When
    it succeeds it has refreshed the four limit blocks of the cache from
    the OS and answers whether any of the four OS flag words (limit flags,
    UI restrictions, CPU-rate control, network control) is positive; when
    it fails, the error is the one of a query of one of those four blocks. *)
Theorem HasLimits_reports_os_limits (job : JobObject) (env : Env) job' env' r
    (Hrun : HasLimits (job, env) = ((job', env'), r)) :
  os_info env' = os_info env /\ Handle job' = Handle job /\
  match r with
  | Ok b =>
      b = (0 <? LimitFlags (BasicLimitInformation (ExtendedLimits (os_info env))))
          || (0 <? UIRestrictionsClass (UIRestrictions (os_info env)))
          || (0 <? ControlFlags (CPURateControl (os_info env)))
          || (0 <? NetControlFlags (NetRateControl (os_info env))) /\
      Info job' = copy_blocks limit_classes (os_info env) (Info job)
  | Err e => exists c, In c limit_classes /\ os_fail env (ReqInfo QueryInfo c) = Some e
  end.
Proof.
  unfold HasLimits, bind in Hrun.
  destruct (QueryLimits (job, env)) as [[j1 e1] [u|e]] eqn:Hq.
  - destruct u. inversion Hrun; subst job' env' r. clear Hrun.
    destruct (sync_frame_run _ _ _ _ _ _ _ Hq) as [_ [Hh [_ [Hi _]]]].
    pose proof (sync_ok_inv _ _ _ _ _ Hq) as Hok.
    destruct (sync_spec QueryInfo limit_classes job env Hok) as [e2 [Hq2 _]].
    unfold QueryLimits in Hq. fold limit_classes in Hq. rewrite Hq2 in Hq.
    inversion Hq; subst j1 e2. clear Hq Hq2.
    split; [exact Hi|]. split; [exact Hh|]. split; [|reflexivity].
    unfold limitInfoClassesSet, set_NetRateControl, set_CPURateControl, set_UIRestrictions,
      set_ExtendedLimits.
    cbn [Info set_Info ExtendedLimits UIRestrictions CPURateControl NetRateControl].
    destruct (0 <? LimitFlags (BasicLimitInformation (ExtendedLimits (os_info env))));
    destruct (0 <? UIRestrictionsClass (UIRestrictions (os_info env)));
    destruct (0 <? ControlFlags (CPURateControl (os_info env)));
    destruct (0 <? NetControlFlags (NetRateControl (os_info env))); reflexivity.
  - inversion Hrun; subst j1 e1 r. clear Hrun.
    destruct (sync_frame_run _ _ _ _ _ _ _ Hq) as [_ [Hh [_ [Hi _]]]].
    split; [exact Hi|]. split; [exact Hh|].
    exact (sync_err_in _ _ _ _ _ _ _ Hq).
Qed.

Lemma HasLimits_reports_os_limits_witness :
  exists job' env',
    HasLimits (sample_job, limited_env no_failure) = ((job', env'), Ok true) /\
    os_info env' = limited_info.
Proof.
  destruct (HasLimits (sample_job, limited_env no_failure)) as [[job' env'] r] eqn:H.
  pose proof (HasLimits_reports_os_limits _ _ _ _ _ H) as [Hi [_ Hr]].
  assert (Hb : r = Ok true).
  { destruct r as [b|e]; [destruct Hr as [Hb _]; rewrite Hb; reflexivity|].
    vm_compute in H. discriminate H. }
  exists job', env'. rewrite <- Hb. split; [reflexivity|exact Hi].
Defined.

(* ------------------------------------------------------------------ *)
(** ** Notifications *)

Lemma digit_val_dec d : 0 <= d < 10 -> digit_val (dec_digit d) = d.
Proof.
  intros H.
  assert (d = 0 \/ d = 1 \/ d = 2 \/ d = 3 \/ d = 4 \/ d = 5 \/ d = 6 \/ d = 7 \/ d = 8 \/ d = 9)
    as Hd by lia.
  repeat (destruct Hd as [->|Hd]); [..|subst d]; reflexivity.
Qed.

Lemma dec_digits_parse f : forall n acc a, 0 <= n < 10 ^ Z.of_nat f ->
  exists k, 0 <= k /\ parse_dec_aux (dec_digits f n acc) a = parse_dec_aux acc (a * 10 ^ k + n).
Proof.
  induction f as [|f IH]; intros n acc a Hn.
  - cbn in Hn. assert (n = 0) as -> by lia. exists 0. cbn. split; [lia|f_equal; lia].
  - cbn [dec_digits]. rewrite Nat2Z.inj_succ, Z.pow_succ_r in Hn by lia.
    pose proof (Z.mod_pos_bound n 10 ltac:(lia)) as Hm.
    destruct (n <? 10) eqn:E.
    + apply Z.ltb_lt in E. exists 1. split; [lia|].
      cbn [parse_dec_aux]. rewrite digit_val_dec by exact Hm.
      rewrite Z.mod_small by lia. f_equal; lia.
    + apply Z.ltb_ge in E.
      destruct (IH (n / 10) (String (dec_digit (n mod 10)) acc) a) as [k [Hk Hp]].
      { split; [apply Z.div_pos; lia|]. apply Z.div_lt_upper_bound; lia. }
      exists (k + 1). split; [lia|]. rewrite Hp. cbn [parse_dec_aux].
      rewrite digit_val_dec by exact Hm. f_equal.
      rewrite Z.pow_add_r by lia. pose proof (Z.div_mod n 10 ltac:(lia)). nia.
Qed.

Lemma fmt_uint_parse n : 0 <= n < 2 ^ 32 -> parse_dec_aux (fmt_uint n) 0 = n.
Proof.
  intros Hn. unfold fmt_uint.
  destruct (dec_digits_parse 20 n EmptyString 0) as [k [_ Hp]].
  { split; [lia|]. change (10 ^ Z.of_nat 20) with 100000000000000000000. lia. }
  rewrite Hp. reflexivity.
Qed.

Lemma dec_digits_head f : forall n acc, 0 <= n ->
  ((f > 0)%nat \/ exists d s, acc = String (dec_digit d) s /\ 0 <= d < 10) ->
  exists d s, dec_digits f n acc = String (dec_digit d) s /\ 0 <= d < 10.
Proof.
  induction f as [|f IH]; intros n acc Hn Hacc.
  - destruct Hacc as [Hf|Hacc]; [lia|exact Hacc].
  - cbn [dec_digits]. pose proof (Z.mod_pos_bound n 10 ltac:(lia)) as Hm.
    destruct (n <? 10).
    + exists (n mod 10), acc. split; [reflexivity|exact Hm].
    + apply IH; [apply Z.div_pos; lia|]. right. exists (n mod 10), acc. split; [reflexivity|exact Hm].
Qed.

Lemma resolveNotificationType_in m t :
  resolveNotificationType m = Some t -> In (m, t) notificationTypes.
Proof.
  unfold resolveNotificationType.
  destruct (find (fun p => fst p =? m) notificationTypes) as [[m' t']|] eqn:E; [|discriminate].
  intros H. injection H as <-. apply find_some in E as [Hin Heq].
  cbn in Heq. apply Z.eqb_eq in Heq. subst. exact Hin.
Qed.

(** X9: on 32-bit message codes, the [Type] of a message [NextMessage]
    returns determines the message code: the twelve known codes get twelve
    distinct names, any other code gets its decimal digits, and no decimal
    string is one of the twelve names. *)
Theorem NextMessage_type_identifies_code (m1 m2 p1 p2 : Z)
    (H1 : 0 <= m1 < 2 ^ 32) (H2 : 0 <= m2 < 2 ^ 32)
    (Heq : Subscription.Type_ (fst (NextMessage (Ok (m1, p1))))
           = Subscription.Type_ (fst (NextMessage (Ok (m2, p2))))) :
  m1 = m2.
Proof.
  assert (Hhead : forall m t, 0 <= m -> In (m, t) notificationTypes ->
                  forall n, 0 <= n -> t <> fmt_uint n).
  { intros m t _ Hin n Hn Ht.
    destruct (dec_digits_head 20 n EmptyString Hn (or_introl (Nat.lt_0_succ 19))) as [d [s [Hs Hd]]].
    unfold fmt_uint in Ht. rewrite Hs in Ht. clear Hs.
    assert (d = 0 \/ d = 1 \/ d = 2 \/ d = 3 \/ d = 4 \/ d = 5 \/ d = 6 \/ d = 7 \/ d = 8 \/ d = 9)
      as Hd' by lia.
    cbn in Hin. repeat (destruct Hin as [Hin|Hin]; [injection Hin as <- <-|]); [..|destruct Hin].
    all: repeat (destruct Hd' as [->|Hd']); [..|subst d]; discriminate Ht. }
  cbn [NextMessage jobapi_GetQueuedCompletionStatus fst Subscription.Type_] in Heq.
  destruct (resolveNotificationType m1) as [t1|] eqn:E1;
  destruct (resolveNotificationType m2) as [t2|] eqn:E2.
  - apply resolveNotificationType_in in E1, E2.
    cbn in E1, E2.
    repeat destruct E1 as [E1|E1]; try contradiction.
    all: repeat destruct E2 as [E2|E2]; try contradiction.
    all: injection E1 as Em1 Et1; injection E2 as Em2 Et2; subst; try discriminate Heq.
    all: reflexivity.
  - apply resolveNotificationType_in in E1. exfalso. exact (Hhead _ _ (proj1 H1) E1 m2 (proj1 H2) Heq).
  - apply resolveNotificationType_in in E2. exfalso.
    exact (Hhead _ _ (proj1 H2) E2 m1 (proj1 H1) (eq_sym Heq)).
  - rewrite <- (fmt_uint_parse m1 H1), <- (fmt_uint_parse m2 H2), Heq. reflexivity.
Qed.

Lemma NextMessage_type_identifies_code_witness :
  0 <= 14 < 2 ^ 32 /\ 0 <= 14 < 2 ^ 32 /\
  Subscription.Type_ (fst (NextMessage (Ok (14, 7)))) = Subscription.Type_ (fst (NextMessage (Ok (14, 9)))) /\
  14 = 14.
Proof.
  assert (H : 0 <= 14 < 2 ^ 32) by lia.
  assert (He : Subscription.Type_ (fst (NextMessage (Ok (14, 7))))
               = Subscription.Type_ (fst (NextMessage (Ok (14, 9))))) by reflexivity.
  split; [exact H|]. split; [exact H|]. split; [exact He|].
  exact (NextMessage_type_identifies_code 14 14 7 9 H H He).
Defined.

(** X10: [CreatePort] never leaks the port it creates: if
    [CreateIoCompletionPort] fails nothing else is called and its error is
    returned; a created port is either returned with no error, associated
    with the job and not closed, or its association failed, it is closed
    exactly once and the error comes back wrapped twice as a
    [SetInformationJobObject] error. [Notify] starts the notification loop
    exactly when [CreatePort] succeeded, and on the port it returned. *)
Theorem CreatePort_Notify_no_leak (os : PortOS) (job : JobObject) :
  ((exists e,
     create_port os = Err e /\
     CreatePort os job = ([PECreateIoCompletionPort], (0, Some e)) /\
     Notify os job = ([PECreateIoCompletionPort], Err e)) \/
  (exists h,
     create_port os = Ok h /\ associate_fail os (Handle job) h = None /\
     CreatePort os job = ([PECreateIoCompletionPort; PEAssociate (Handle job) h], (h, None)) /\
     count_occ port_event_eq_dec (fst (CreatePort os job)) (PECloseHandle h) = 0%nat /\
     Notify os job = (fst (CreatePort os job) ++ [PEStartNotify h], Ok h)) \/
  (exists h lastErr,
     create_port os = Ok h /\ associate_fail os (Handle job) h = Some lastErr /\
     snd (CreatePort os job)
       = (h, Some (SyscallError "SetInformationJobObject" (SyscallError "SetInformationJobObject" lastErr))) /\
     count_occ port_event_eq_dec (fst (CreatePort os job)) (PECloseHandle h) = 1%nat /\
     Notify os job = (fst (CreatePort os job),
       Err (SyscallError "SetInformationJobObject" (SyscallError "SetInformationJobObject" lastErr))))) /\
  (forall p, In (PEStartNotify p) (fst (Notify os job)) <->
     snd (snd (CreatePort os job)) = None /\ p = fst (snd (CreatePort os job))).
Proof.
  unfold Notify, CreatePort, AssociateCompletionPort.
  destruct (create_port os) as [h|e] eqn:Hc.
  - destruct (associate_fail os (Handle job) h) as [lastErr|] eqn:Ha.
    + split.
      * right. right. exists h, lastErr. cbn [fst snd].
        split; [reflexivity|]. split; [exact Ha|]. split; [reflexivity|].
        split; [|reflexivity].
        rewrite !count_occ_cons_neq by discriminate.
        rewrite count_occ_cons_eq by reflexivity. reflexivity.
      * intros p. cbn [fst snd]. split.
        -- intros [H|[H|[H|[]]]]; discriminate H.
        -- intros [H _]; discriminate H.
    + split.
      * right. left. exists h. cbn [fst snd].
        split; [reflexivity|]. split; [exact Ha|]. split; [reflexivity|].
        split; [|reflexivity].
        rewrite !count_occ_cons_neq by discriminate. reflexivity.
      * intros p. cbn [fst snd]. split.
        -- intros [H|[H|[H|[]]]]; try discriminate H. injection H as <-. auto.
        -- intros [_ ->]. right; right; left; reflexivity.
  - split.
    + left. exists e. auto.
    + intros p. cbn [fst snd]. split.
      * intros [H|[]]; discriminate H.
      * intros [H _]; discriminate H.
Qed.

(** Notify on a port whose association is refused starts no loop. *)
Lemma CreatePort_Notify_no_leak_witness :
  count_occ port_event_eq_dec (fst (CreatePort refusing_os sample_job)) (PECloseHandle 7) = 1%nat /\
  ~ In (PEStartNotify 7) (fst (Notify refusing_os sample_job)).
Proof.
  destruct (CreatePort_Notify_no_leak refusing_os sample_job)
    as [[[e [Hc _]]|[[h [Hc [Ha _]]]|[h [lastErr [Hc [_ [_ [H _]]]]]]]] Hn].
  - discriminate Hc.
  - injection Hc as <-. discriminate Ha.
  - injection Hc as <-. split; [exact H|].
    rewrite Hn. intros [Hs _]. discriminate Hs.
Defined.

(* ------------------------------------------------------------------ *)
(** ** Processes *)

Lemma count_close_single (pre : list ProcEvent) h :
  (forall x, In x pre -> x <> PrCloseHandle h) ->
  count_occ proc_event_eq_dec (pre ++ [PrCloseHandle h]) (PrCloseHandle h) = 1%nat.
Proof.
  intros H. rewrite count_occ_app.
  rewrite (proj1 (count_occ_not_In proc_event_eq_dec pre (PrCloseHandle h)))
    by (intros Hin; exact (H _ Hin eq_refl)).
  rewrite count_occ_cons_eq by reflexivity. reflexivity.
Qed.

(** X11: [Assign] and [Contains] open the process with their access
    rights ([PROCESS_ALL_ACCESS], [PROCESS_QUERY_LIMITED_INFORMATION]) and
    the pid as [uint32]. If that fails, nothing else happens and the error
    comes back as is ([Contains] answers [false] with it). If it succeeds,
    the one job call is made on the handle, the handle is closed exactly
    once, as the last call, and the result is the job call's, wrapped. *)
Theorem Assign_Contains_close_process_handle (os : ProcOS) (job : JobObject) (pid : Z) :
  (forall e, OpenProcess_os os PROCESS_ALL_ACCESS (pid mod 2 ^ 32) = Err e ->
     Assign os job pid = ([PrOpenProcess PROCESS_ALL_ACCESS (pid mod 2 ^ 32)], Some e)) /\
  (forall h, OpenProcess_os os PROCESS_ALL_ACCESS (pid mod 2 ^ 32) = Ok h ->
     fst (Assign os job pid)
       = [PrOpenProcess PROCESS_ALL_ACCESS (pid mod 2 ^ 32); PrAssign (Handle job) h; PrCloseHandle h] /\
     count_occ proc_event_eq_dec (fst (Assign os job pid)) (PrCloseHandle h) = 1%nat /\
     snd (Assign os job pid)
       = option_map (SyscallError "AssignProcessToJobObject")
           (AssignProcessToJobObject_fail os (Handle job) h)) /\
  (forall e, OpenProcess_os os PROCESS_QUERY_LIMITED_INFORMATION (pid mod 2 ^ 32) = Err e ->
     Contains os job pid
       = ([PrOpenProcess PROCESS_QUERY_LIMITED_INFORMATION (pid mod 2 ^ 32)], (false, Some e))) /\
  (forall h, OpenProcess_os os PROCESS_QUERY_LIMITED_INFORMATION (pid mod 2 ^ 32) = Ok h ->
     fst (Contains os job pid)
       = [PrOpenProcess PROCESS_QUERY_LIMITED_INFORMATION (pid mod 2 ^ 32); PrIsInJob h (Handle job);
          PrCloseHandle h] /\
     count_occ proc_event_eq_dec (fst (Contains os job pid)) (PrCloseHandle h) = 1%nat /\
     snd (Contains os job pid)
       = (fst (IsProcessInJob_os os h (Handle job)),
          option_map (SyscallError "IsProcessInJob") (snd (IsProcessInJob_os os h (Handle job))))).
Proof.
  unfold Assign, Contains, withProcessHandle.
  change (PROCESS_ALL_ACCESS mod 2 ^ 32) with PROCESS_ALL_ACCESS.
  change (PROCESS_QUERY_LIMITED_INFORMATION mod 2 ^ 32) with PROCESS_QUERY_LIMITED_INFORMATION.
  split; [|split; [|split]]; intros x Hx; rewrite Hx; [reflexivity| |reflexivity|].
  - split; [reflexivity|]. split.
    + cbn [fst app]. apply (count_close_single [_; _]). intros y [<-|[<-|[]]]; discriminate.
    + destruct (AssignProcessToJobObject_fail os (Handle job) x); reflexivity.
  - destruct (IsProcessInJob_os os x (Handle job)) as [f r].
    split; [reflexivity|]. split; [|reflexivity].
    cbn [fst app]. apply (count_close_single [_; _]). intros y [<-|[<-|[]]]; discriminate.
Qed.

Lemma thread_scan_found os s pid pre e post :
  forallb (fun x => negb (thread_matches pid x)) pre = true -> thread_matches pid e = true ->
  thread_scan os s pid (pre ++ e :: post)
    = (repeat (PrThread32Next s) (S (List.length pre)) ++ fst (ResumeThread os (ThreadID e)),
       snd (ResumeThread os (ThreadID e))).
Proof.
  induction pre as [|x pre IH]; intros Hpre He.
  - cbn [app thread_scan]. unfold thread_matches in He. rewrite He.
    destruct (ResumeThread os (ThreadID e)); reflexivity.
  - cbn [forallb] in Hpre. apply andb_true_iff in Hpre as [Hx Hpre].
    cbn [app thread_scan]. unfold thread_matches in Hx. apply negb_true_iff in Hx. rewrite Hx.
    rewrite (IH Hpre He). reflexivity.
Qed.

Lemma in_events_split {A} (x a : A) l1 l2 : In x (a :: l1 ++ l2) -> a = x \/ In x l1 \/ In x l2.
Proof. intros [H|H]; [left; exact H|right; apply in_app_or, H]. Qed.

Lemma thread_scan_none os s pid rest :
  forallb (fun x => negb (thread_matches pid x)) rest = true ->
  thread_scan os s pid rest = (repeat (PrThread32Next s) (S (List.length rest)), snd (thread_scan os s pid [])).
Proof.
  induction rest as [|x rest IH]; intros H; [reflexivity|].
  cbn [forallb] in H. apply andb_true_iff in H as [Hx H].
  cbn [thread_scan]. unfold thread_matches in Hx. apply negb_true_iff in Hx. rewrite Hx.
  rewrite (IH H). reflexivity.
Qed.

(** X12: [ResumeProcess] never looks at the entry [Thread32First] filled
    in: its loop calls [Thread32Next] before the test, so changing the
    first snapshot entry changes nothing it does. In particular a process
    whose only thread comes first in the snapshot is never resumed. *)
Theorem ResumeProcess_skips_first_entry (os : ProcOS) (pid : Z) (e0 : ThreadEntry32)
    (rest : list ThreadEntry32) (Hs : snapshot_entries os = e0 :: rest) (e0' : ThreadEntry32) :
  ResumeProcess (set_snapshot_entries (e0' :: rest) os) pid = ResumeProcess os pid.
Proof.
  unfold ResumeProcess. cbn [CreateToolhelp32Snapshot_os set_snapshot_entries snapshot_entries].
  rewrite Hs. destruct (CreateToolhelp32Snapshot_os os TH32CS_SNAPTHREAD (pid mod 2 ^ 32)) as [s|e];
    [|reflexivity].
  assert (Hscan : forall l, thread_scan (set_snapshot_entries (e0' :: rest) os) s pid l
                            = thread_scan os s pid l).
  { induction l as [|x l IH]; [reflexivity|]. cbn [thread_scan].
    rewrite IH. reflexivity. }
  rewrite Hscan. reflexivity.
Qed.

Lemma ResumeProcess_skips_first_entry_witness :
  snapshot_entries sample_proc_os
    = {| OwnerProcessID := 100; ThreadID := 1 |}
      :: [{| OwnerProcessID := 4; ThreadID := 2 |}; {| OwnerProcessID := 100; ThreadID := 3 |}] /\
  ResumeProcess (set_snapshot_entries
                   [{| OwnerProcessID := 0; ThreadID := 0 |};
                    {| OwnerProcessID := 4; ThreadID := 2 |}; {| OwnerProcessID := 100; ThreadID := 3 |}]
                   sample_proc_os) 100
    = ResumeProcess sample_proc_os 100.
Proof.
  assert (Hs : snapshot_entries sample_proc_os
    = {| OwnerProcessID := 100; ThreadID := 1 |}
      :: [{| OwnerProcessID := 4; ThreadID := 2 |}; {| OwnerProcessID := 100; ThreadID := 3 |}])
    by reflexivity.
  split; [exact Hs|].
  exact (ResumeProcess_skips_first_entry sample_proc_os 100 _ _ Hs {| OwnerProcessID := 0; ThreadID := 0 |}).
Defined.

(** X13: once the snapshot is taken, [ResumeProcess] opens and resumes
    the thread of the first entry after the first one whose owner is the
    pid and whose thread id is not 0, and no other thread, and returns
    what [ResumeThread] returns; if no such entry follows, it opens no
    thread and reports "no threads found" when the snapshot ended with
    [ERROR_NO_MORE_FILES], the wrapped [Thread32Next] error otherwise. In
    every case the snapshot handle is closed, as the last call. *)
Theorem ResumeProcess_resumes_first_later_match (os : ProcOS) (pid s : Z)
    (Hs : CreateToolhelp32Snapshot_os os TH32CS_SNAPTHREAD (pid mod 2 ^ 32) = Ok s)
    (e0 : ThreadEntry32) (rest : list ThreadEntry32) (He : snapshot_entries os = e0 :: rest) :
  (exists pre, fst (ResumeProcess os pid) = pre ++ [PrCloseHandle s]) /\
  ((exists pre e post,
      rest = pre ++ e :: post /\
      forallb (fun x => negb (thread_matches pid x)) pre = true /\ thread_matches pid e = true /\
      snd (ResumeProcess os pid) = snd (ResumeThread os (ThreadID e)) /\
      In (PrOpenThread THREAD_SUSPEND_RESUME (ThreadID e)) (fst (ResumeProcess os pid)) /\
      forall a tid, In (PrOpenThread a tid) (fst (ResumeProcess os pid)) -> tid = ThreadID e)
   \/
   (forallb (fun x => negb (thread_matches pid x)) rest = true /\
    (forall a tid, ~ In (PrOpenThread a tid) (fst (ResumeProcess os pid))) /\
    snd (ResumeProcess os pid)
      = (if (match snapshot_end os with Errno c => c =? ERROR_NO_MORE_FILES | _ => false end)
         then Some (WMsg "no threads found") else Some (WWrap "Thread32Next" (snapshot_end os))))).
Proof.
  unfold ResumeProcess. rewrite Hs, He.
  destruct (thread_scan os s pid rest) as [evs r] eqn:Hscan.
  split; [exists (PrSnapshot TH32CS_SNAPTHREAD (pid mod 2 ^ 32) :: PrThread32First s :: evs); reflexivity|].
  destruct (forallb (fun x => negb (thread_matches pid x)) rest) eqn:Hall.
  - right. rewrite (thread_scan_none os s pid rest Hall) in Hscan.
    injection Hscan as <- <-. split; [reflexivity|]. split.
    + intros a tid Hin.
      apply in_events_split in Hin as [Hin|[[Hin|Hin]|[Hin|[]]]]; try discriminate Hin.
      first [apply repeat_spec in Hin
            | destruct Hin as [Hin|Hin]; [discriminate Hin|apply repeat_spec in Hin]];
      discriminate Hin.
    + cbn. destruct (snapshot_end os) as [c| |]; [|reflexivity|reflexivity].
      destruct (c =? ERROR_NO_MORE_FILES); reflexivity.
  - left.
    assert (Hex : exists pre e post, rest = pre ++ e :: post /\
              forallb (fun x => negb (thread_matches pid x)) pre = true /\ thread_matches pid e = true).
    { clear -Hall. induction rest as [|x rest IH]; [discriminate Hall|].
      cbn [forallb] in Hall. destruct (thread_matches pid x) eqn:Hx.
      - exists [], x, rest. auto.
      - destruct (IH Hall) as [pre [e [post [-> [Hp He]]]]].
        exists (x :: pre), e, post. cbn [forallb]. rewrite Hx, Hp. auto. }
    destruct Hex as [pre [e [post [Hr [Hp Hm]]]]].
    exists pre, e, post. split; [exact Hr|]. split; [exact Hp|]. split; [exact Hm|].
    rewrite Hr, (thread_scan_found os s pid pre e post Hp Hm) in Hscan.
    injection Hscan as <- <-.
    assert (Hrt : forall a tid, In (PrOpenThread a tid) (fst (ResumeThread os (ThreadID e))) ->
                  tid = ThreadID e).
    { intros a tid. unfold ResumeThread.
      destruct (OpenThread_os os THREAD_SUSPEND_RESUME (ThreadID e)).
      - intros [H|[H|[H|[]]]]; [injection H as _ <-; reflexivity|discriminate H|discriminate H].
      - intros [H|[]]. injection H as _ <-. reflexivity. }
    split; [reflexivity|]. split.
    + apply in_cons, in_or_app. left. apply in_cons. right. apply in_or_app. right.
      unfold ResumeThread. destruct (OpenThread_os os THREAD_SUSPEND_RESUME (ThreadID e));
        left; reflexivity.
    + intros a tid Hin.
      apply in_events_split in Hin as [Hin|[[Hin|Hin]|[Hin|[]]]]; try discriminate Hin.
      destruct Hin as [Hin|Hin]; [discriminate Hin|].
      apply in_app_or in Hin as [Hin|Hin]; [|exact (Hrt a tid Hin)].
      apply repeat_spec in Hin. discriminate Hin.
Qed.

Lemma ResumeProcess_resumes_first_later_match_witness :
  CreateToolhelp32Snapshot_os sample_proc_os TH32CS_SNAPTHREAD (100 mod 2 ^ 32) = Ok 12 /\
  snapshot_entries sample_proc_os
    = {| OwnerProcessID := 100; ThreadID := 1 |}
      :: [{| OwnerProcessID := 4; ThreadID := 2 |}; {| OwnerProcessID := 100; ThreadID := 3 |}] /\
  exists pre, fst (ResumeProcess sample_proc_os 100) = pre ++ [PrCloseHandle 12].
Proof.
  assert (Hc : CreateToolhelp32Snapshot_os sample_proc_os TH32CS_SNAPTHREAD (100 mod 2 ^ 32) = Ok 12)
    by reflexivity.
  assert (Hs : snapshot_entries sample_proc_os
    = {| OwnerProcessID := 100; ThreadID := 1 |}
      :: [{| OwnerProcessID := 4; ThreadID := 2 |}; {| OwnerProcessID := 100; ThreadID := 3 |}])
    by reflexivity.
  split; [exact Hc|]. split; [exact Hs|].
  exact (proj1 (ResumeProcess_resumes_first_later_match sample_proc_os 100 12 Hc _ _ Hs)).
Defined.

Lemma Assign_no_snapshot os job pid f p : ~ In (PrSnapshot f p) (fst (Assign os job pid)).
Proof.
  unfold Assign, withProcessHandle.
  destruct (OpenProcess_os os (PROCESS_ALL_ACCESS mod 2 ^ 32) (pid mod 2 ^ 32)).
  - cbn. intros [H|[H|[H|[]]]]; discriminate H.
  - cbn. intros [H|[]]; discriminate H.
Qed.

Lemma ResumeThread_no_snapshot os tid f p : ~ In (PrSnapshot f p) (fst (ResumeThread os tid)).
Proof.
  unfold ResumeThread. destruct (OpenThread_os os THREAD_SUSPEND_RESUME tid); cbn.
  - intros [H|[H|[H|[]]]]; discriminate H.
  - intros [H|[]]; discriminate H.
Qed.

Lemma thread_scan_no_snapshot os s pid l f p : ~ In (PrSnapshot f p) (fst (thread_scan os s pid l)).
Proof.
  induction l as [|x l IH]; cbn [thread_scan].
  - intros [H|[]]; discriminate H.
  - destruct ((OwnerProcessID x =? pid) && negb (ThreadID x =? 0)).
    + pose proof (ResumeThread_no_snapshot os (ThreadID x) f p) as Hn.
      destruct (ResumeThread os (ThreadID x)) as [evs r].
      intros [H|H]; [discriminate H|exact (Hn H)].
    + destruct (thread_scan os s pid l) as [evs r].
      intros [H|H]; [discriminate H|exact (IH H)].
Qed.

Lemma ResumeProcess_snapshot_pid os pid f p :
  In (PrSnapshot f p) (fst (ResumeProcess os pid)) -> p = pid mod 2 ^ 32.
Proof.
  unfold ResumeProcess.
  destruct (CreateToolhelp32Snapshot_os os TH32CS_SNAPTHREAD (pid mod 2 ^ 32)) as [sh|e].
  - destruct (snapshot_entries os) as [|x rest].
    + intros [H|H]; [injection H as _ <-; reflexivity|].
      apply in_app_or in H as [[H|[]]|[H|[]]]; discriminate H.
    + pose proof (thread_scan_no_snapshot os sh pid rest f p) as Hn.
      destruct (thread_scan os sh pid rest) as [evs r].
      intros [H|H]; [injection H as _ <-; reflexivity|].
      apply in_app_or in H as [[H|H]|[H|[]]]; [discriminate H|contradiction|discriminate H].
  - intros [H|[]]. injection H as _ <-. reflexivity.
Qed.

(** X14: [StartInJobObject] starts the command with its creation flags
    plus [CREATE_SUSPENDED], keeping every flag already set, and leaves
    those flags in the command. Threads are looked up for resuming only
    after the start succeeded and the new process was assigned to the job,
    and then for that process; no error means the start, the assignment
    and [ResumeProcess] of that process all succeeded. *)
Theorem StartInJobObject_resumes_only_assigned (os : ProcOS) (cmd : Cmd) (job : JobObject)
    cmd' evs r (Hrun : StartInJobObject os cmd job = (cmd', evs, r)) :
  let old := CreationFlags (match SysProcAttr_ cmd with None => {| CreationFlags := 0 |} | Some a => a end) in
  let flags := Z.lor old CREATE_SUSPENDED in
  hd_error evs = Some (PrCmdStart flags) /\
  SysProcAttr_ cmd' = Some {| CreationFlags := flags |} /\
  Z.testbit flags 2 = true /\ (forall n, Z.testbit old n = true -> Z.testbit flags n = true) /\
  (forall f p, In (PrSnapshot f p) evs ->
     exists pid, cmd_start os flags = Ok pid /\ snd (Assign os job pid) = None /\
                 Process cmd' = Some pid /\ p = pid mod 2 ^ 32) /\
  (r = None ->
     exists pid, cmd_start os flags = Ok pid /\ snd (Assign os job pid) = None /\
                 snd (ResumeProcess os pid) = None).
Proof.
  intros old flags.
  assert (Hbits : Z.testbit flags 2 = true /\ forall n, Z.testbit old n = true -> Z.testbit flags n = true).
  { unfold flags, CREATE_SUSPENDED. split.
    - rewrite Z.lor_spec. apply orb_true_r.
    - intros n Hn. rewrite Z.lor_spec, Hn. reflexivity. }
  unfold StartInJobObject in Hrun. fold old flags in Hrun.
  destruct (cmd_start os flags) as [pid|e] eqn:Hs.
  - destruct (Assign os job pid) as [evs1 r1] eqn:Ha.
    destruct r1 as [e|].
    + injection Hrun as <- <- <-. split; [reflexivity|]. split; [reflexivity|].
      split; [exact (proj1 Hbits)|]. split; [exact (proj2 Hbits)|]. split.
      * intros f p [H|H]; [discriminate H|].
        exfalso. apply (Assign_no_snapshot os job pid f p). rewrite Ha. exact H.
      * discriminate.
    + cbn [SysProcAttr_] in Hrun.
      destruct (Resume os {| SysProcAttr_ := Some {| CreationFlags := flags |}; Process := Some pid |})
        as [evs2 r2] eqn:Hr.
      injection Hrun as <- <- <-. split; [reflexivity|]. split; [reflexivity|].
      split; [exact (proj1 Hbits)|]. split; [exact (proj2 Hbits)|].
      unfold Resume in Hr. cbn [Process] in Hr. split.
      * intros f p [H|H]; [discriminate H|].
        apply in_app_or in H as [H|H].
        -- exfalso. apply (Assign_no_snapshot os job pid f p). rewrite Ha. exact H.
        -- exists pid. split; [reflexivity|]. split; [rewrite Ha; reflexivity|]. split; [reflexivity|].
           apply (ResumeProcess_snapshot_pid os pid f p). rewrite Hr. exact H.
      * intros ->. exists pid. split; [reflexivity|]. split; [rewrite Ha; reflexivity|].
        rewrite Hr. reflexivity.
  - injection Hrun as <- <- <-. split; [reflexivity|]. split; [reflexivity|].
    split; [exact (proj1 Hbits)|]. split; [exact (proj2 Hbits)|]. split.
    + intros f p [H|[]]. discriminate H.
    + discriminate.
Qed.

Lemma StartInJobObject_resumes_only_assigned_witness :
  exists cmd' evs,
    StartInJobObject sample_proc_os {| SysProcAttr_ := None; Process := None |} sample_job
      = (cmd', evs, None) /\
    SysProcAttr_ cmd' = Some {| CreationFlags := CREATE_SUSPENDED |}.
Proof.
  destruct (StartInJobObject sample_proc_os {| SysProcAttr_ := None; Process := None |} sample_job)
    as [[cmd' evs] r] eqn:H.
  pose proof (StartInJobObject_resumes_only_assigned _ _ _ _ _ _ H) as [_ [Ha _]].
  assert (Hr : r = None) by (vm_compute in H; congruence).
  exists cmd', evs. rewrite <- Hr. split; [reflexivity|exact Ha].
Defined.

(** X15: [Start] returns a job exactly when it returns no error. If
    [Create] fails, no process call is made. If [Create] succeeds but
    starting the command in the job fails, the new job's handle is closed
    as the last job-side call and no job is returned; on success the job
    [Create] made is returned and left open. *)
Theorem Start_closes_job_on_start_failure range_order (limits : list Limit) (os : ProcOS)
    (cmd : Cmd) (env : Env) env' evs oj r
    (Hrun : Start range_order limits os cmd env = (env', evs, oj, r)) :
  (oj = None <-> r <> None) /\
  (forall e, snd (Create range_order EmptyString limits env) = Err e -> evs = [] /\ r = Some (WErr e)) /\
  (forall job, snd (Create range_order EmptyString limits env) = Ok job ->
     evs = snd (fst (StartInJobObject os cmd job)) /\
     r = snd (StartInJobObject os cmd job) /\
     (r = None -> oj = Some job /\ env' = fst (Create range_order EmptyString limits env)) /\
     (r <> None -> trace env' = trace (fst (Create range_order EmptyString limits env))
                                  ++ [EvCloseJob (Handle job)])).
Proof.
  unfold Start in Hrun.
  destruct (Create range_order EmptyString limits env) as [env1 [job|e]] eqn:Hc; cbn [fst snd].
  - destruct (StartInJobObject os cmd job) as [[cmd' evs1] r1] eqn:Hs. cbn [fst snd].
    destruct r1 as [e|].
    + unfold Close_job in Hrun.
      destruct (os_fail env1 ReqCloseJob); injection Hrun as <- <- <- <-.
      all: split; [split; [discriminate|reflexivity]|].
      all: split; [discriminate|].
      all: intros job' Hj; injection Hj as <-; rewrite Hs; cbn [fst snd].
      all: split; [reflexivity|]. all: split; [reflexivity|].
      all: split; [discriminate|intros _; reflexivity].
    + injection Hrun as <- <- <- <-.
      split; [split; [discriminate|intros H; contradiction H; reflexivity]|].
      split; [discriminate|].
      intros job' Hj. injection Hj as <-. rewrite Hs; cbn [fst snd].
      split; [reflexivity|]. split; [reflexivity|].
      split; [intros _; split; reflexivity|intros H; contradiction H; reflexivity].
  - injection Hrun as <- <- <- <-.
    split; [split; [discriminate|reflexivity]|].
    split; [intros e' He; injection He as <-; split; reflexivity|].
    intros job' Hj. discriminate Hj.
Qed.

Lemma Start_closes_job_on_start_failure_witness :
  exists env' evs,
    Start (fun ks => ks) [] sample_proc_os {| SysProcAttr_ := None; Process := None |}
          (sample_env no_failure) = (env', evs, Some {| Name := EmptyString; Handle := 42; Info := zero_JobInfo |}, None) /\
    env' = fst (Create (fun ks => ks) EmptyString [] (sample_env no_failure)).
Proof.
  destruct (Start (fun ks => ks) [] sample_proc_os {| SysProcAttr_ := None; Process := None |}
              (sample_env no_failure)) as [[[env' evs] oj] r] eqn:H.
  pose proof (Start_closes_job_on_start_failure _ _ _ _ _ _ _ _ _ H) as [_ [_ Hok]].
  assert (Hc : snd (Create (fun ks => ks) EmptyString [] (sample_env no_failure))
               = Ok {| Name := EmptyString; Handle := 42; Info := zero_JobInfo |}) by reflexivity.
  destruct (Hok _ Hc) as [_ [Hr [Hnone _]]].
  assert (Hr0 : r = None) by (rewrite Hr; vm_compute; reflexivity).
  destruct (Hnone Hr0) as [Hoj He].
  exists env', evs. rewrite Hoj, Hr0. split; [reflexivity|exact He].
Defined.
